(** * gif-picker: the description engines, verified against their specification

    A shallow embedding of [describe_gifs.py] (the TGIF engine, driven by a
    TSV catalog of remote GIFs) and of [describe_sources.py] (the
    manifest-driven engine, driven by per-source manifests of local files),
    and the properties their specification states about them.

    Conventions of the embedding
    - Python integers are [Z]; [range n] is [seqZ 0 n].
    - A Python value that came out of [json.loads] is a [json]; Python's
      [None] is [JNull]; a dict with string keys is a [gmap string json].
    - A call that may raise returns a [py A]: [Ret a] or [Raise e].
    - What a function prints is returned as a list of [log_line]s.
    - The outside world (network, image decoder, ffprobe/ffmpeg, the Gemini
      service, the scheduler of the thread pool) enters as explicit
      arguments, never as assumptions about what it answers. *)

From Stdlib Require Import ZArith Lia Permutation Strings.Byte QArith Qminmax.
From stdpp Require Import numbers strings fin_maps gmap sorting list.

Set Warnings "-register-all,-clear-no-such-hyp".
Set Default Proof Using "Type".

Local Open Scope Z_scope.

(** ** Python values, exceptions and built-ins *)

Module Py.

(** The exceptions the two scripts can meet. [OtherError] stands for every
    exception class the scripts do not name (network, decoder, service). *)
Inductive exn :=
| ZeroDivisionError
| JSONDecodeError
| KeyError (key : string)
| TypeError
| IndexError
| RuntimeError (msg : string)
| OtherError (msg : string).

(** Outcome of a call: a value or a raised exception. *)
Inductive py (A : Type) :=
| Ret (a : A)
| Raise (e : exn).
Arguments Ret {A} a.
Arguments Raise {A} e.

Definition bind {A B} (m : py A) (k : A -> py B) : py B :=
  match m with
  | Ret a => k a
  | Raise e => Raise e
  end.

(** A list comprehension whose element expression may raise: elements are
    evaluated left to right and the first exception leaves the whole
    comprehension. *)
Fixpoint comprehension {A B} (f : A -> py B) (l : list A) : py (list B) :=
  match l with
  | [] => Ret []
  | x :: l' =>
      bind (f x) (fun y => bind (comprehension f l') (fun ys => Ret (y :: ys)))
  end.

(** Values produced by [json.loads]. Numbers are the integers; the scripts
    never compute with a JSON number, they only test truth and equality. *)
Inductive json :=
| JNull
| JBool (b : bool)
| JNum (z : Z)
| JStr (s : string)
| JArr (l : list json)
| JObj (m : gmap string json).

(** Truth value of a Python object ([if x:]). *)
Definition truthy (v : json) : bool :=
  match v with
  | JNull => false
  | JBool b => b
  | JNum z => negb (z =? 0)
  | JStr s => negb (String.eqb s "")
  | JArr l => match l with [] => false | _ => true end
  | JObj m => negb (bool_decide (m = ∅))
  end.

(** A [bytes] object. *)
Definition bytes : Type := list Byte.byte.

(** [range(n)] *)
Definition range (n : Z) : list Z := seqZ 0 n.

(** [round(a / b)] for integers [a], [b <> 0]: the quotient rounded to the
    nearest integer, a tie going to the even neighbour (Python 3 [round]).
    The quotient is taken exactly; the float that Python forms in between
    is that same rational correctly rounded to 53 bits, which [round] maps
    to the same integer as long as [a] stays far below [2^52], as frame
    counts do. *)
Definition round_half_even (a b : Z) : Z :=
  let a' := if b <? 0 then - a else a in
  let b' := Z.abs b in
  let q := a' / b' in
  let r := a' mod b' in
  if 2 * r <? b' then q
  else if b' <? 2 * r then q + 1
  else if Z.even q then q else q + 1.

(** [round(a / b)], raising on a zero divisor as [/] does. *)
Definition round_div (a b : Z) : py Z :=
  if b =? 0 then Raise ZeroDivisionError else Ret (round_half_even a b).

(** *** Hashable values and sets of them

    What a Python [set] holds of a JSON value: [hash] and [==] identify
    [True] with [1] and [False] with [0]; lists and dicts are unhashable. *)
Inductive key :=
| KNone
| KNum (z : Z)
| KStr (s : string).

#[global] Instance key_eq_dec : EqDecision key.
Proof. solve_decision. Defined.

Definition key_to_sum (k : key) : unit + Z + string :=
  match k with
  | KNone => inl (inl tt)
  | KNum z => inl (inr z)
  | KStr s => inr s
  end.

Definition key_of_sum (x : unit + Z + string) : key :=
  match x with
  | inl (inl _) => KNone
  | inl (inr z) => KNum z
  | inr s => KStr s
  end.

#[global] Instance key_countable : Countable key.
Proof.
  refine (inj_countable' key_to_sum key_of_sum _).
  intros []; reflexivity.
Defined.

(** [hash(v)] as far as set membership goes; [TypeError: unhashable type]
    for a list or a dict. *)
Definition hash_key (v : json) : py key :=
  match v with
  | JNull => Ret KNone
  | JBool b => Ret (KNum (if b then 1 else 0))
  | JNum z => Ret (KNum z)
  | JStr s => Ret (KStr s)
  | JArr _ | JObj _ => Raise TypeError
  end.

(** [v[name]] for a string [name]: a dict answers or raises [KeyError]; every
    other JSON value raises [TypeError] (not subscriptable, or indices must
    be integers). *)
Definition subscript (v : json) (name : string) : py json :=
  match v with
  | JObj m => match m !! name with
              | Some x => Ret x
              | None => Raise (KeyError name)
              end
  | _ => Raise TypeError
  end.

(** [d.get(name)] and [d.get(name, default)] on a dict. *)
Definition dict_get (d : gmap string json) (name : string) : json :=
  default JNull (d !! name).

Definition dict_get_or (d : gmap string json) (name : string) (dflt : json) : json :=
  default dflt (d !! name).

(** *** Strings *)

(** [needle in s] *)
Fixpoint contains (needle s : string) : bool :=
  String.prefix needle s ||
  match s with
  | EmptyString => false
  | String _ s' => contains needle s'
  end.

(** Characters [str.strip()] removes, among the first 128 code points. *)
Definition isspace (c : Ascii.ascii) : bool :=
  let n := Ascii.nat_of_ascii c in
  ((9 <=? n) && (n <=? 13) || (28 <=? n) && (n <=? 32))%nat.

Fixpoint lstrip (s : string) : string :=
  match s with
  | EmptyString => EmptyString
  | String c s' => if isspace c then lstrip s' else s
  end.

Fixpoint rstrip (s : string) : string :=
  match s with
  | EmptyString => EmptyString
  | String c s' =>
      match rstrip s' with
      | EmptyString => if isspace c then EmptyString else String c EmptyString
      | r => String c r
      end
  end.

(** [s.strip()] *)
Definition strip (s : string) : string := rstrip (lstrip s).

(** [s.split("\n")]: never empty, one more piece than there are newlines. *)
Fixpoint split_newline (s : string) : list string :=
  match s with
  | EmptyString => [EmptyString]
  | String c s' =>
      let rest := split_newline s' in
      if (Ascii.nat_of_ascii c =? 10)%nat then EmptyString :: rest
      else match rest with
           | piece :: pieces => String c piece :: pieces
           | [] => [String c EmptyString]
           end
  end.

(** [s.replace(old, new)] for a non-empty [old]: every occurrence, found
    left to right without overlap. [skip] counts the characters of a
    matched occurrence still to be passed over. *)
Fixpoint replace_from (old new : string) (skip : nat) (s : string) : string :=
  match s with
  | EmptyString => EmptyString
  | String c s' =>
      match skip with
      | S k => replace_from old new k s'
      | O =>
          if String.prefix old s
          then new +:+ replace_from old new (String.length old - 1) s'
          else String c (replace_from old new 0 s')
      end
  end.

Definition replace (old new s : string) : string := replace_from old new 0 s.

(** [s.split("\t", 1)]: [None] when there is no tab (one part), else the
    text before the first tab and the text after it (two parts). *)
Fixpoint split_tab (s : string) : option (string * string) :=
  match s with
  | EmptyString => None
  | String c s' =>
      if (Ascii.nat_of_ascii c =? 9)%nat then Some (EmptyString, s')
      else match split_tab s' with
           | Some (before, after) => Some (String c before, after)
           | None => None
           end
  end.

(** [l[1:-1]] *)
Definition slice_1_m1 {A} (l : list A) : list A := removelast (tail l).

(** [l[:n]]: the first [n] elements, or all but the last [-n] for [n < 0]. *)
Definition slice_to {A} (l : list A) (n : Z) : list A :=
  if 0 <=? n then take (Z.to_nat n) l
  else take (length l - Z.to_nat (- n))%nat l.

(** [s[:n]] for [0 <= n] *)
Definition str_prefix (n : nat) (s : string) : string := String.substring 0 n s.

(** *** JSONL files *)

(** A line of a JSONL file, taken as what [json.loads] makes of it: a
    [JSONDecodeError], or the decoded value. [json.dumps(v) + "\n"] writes
    the line that decodes to [v]. *)
Inductive line :=
| Garbled
| Json (v : json).

Definition json_loads_line (l : line) : py json :=
  match l with
  | Garbled => Raise JSONDecodeError
  | Json v => Ret v
  end.

(** [json.loads(line)[field]] as an element of a set: the key, or the
    first exception on the way ([JSONDecodeError] from [json.loads],
    [KeyError] or [TypeError] from the subscript, [TypeError] from hashing). *)
Definition line_key (field : string) (l : line) : py key :=
  bind (json_loads_line l) (fun data =>
  bind (subscript data field) hash_key).

End Py.
Import Py.

(** ** Frame sampling (both scripts) *)

Definition NUM_FRAMES : Z := 5.
Definition MAX_FRAME_DIM : Z := 512.

(** The index selection of [extract_frames] ([describe_gifs.py]) and of
    [extract_frames_gif] ([describe_sources.py]); the two are the same code.

      if n_frames <= num_frames:
          indices = list(range(n_frames))
      else:
          indices = [round(i * (n_frames - 1) / (num_frames - 1))
                     for i in range(num_frames)] *)
Definition frame_indices (n_frames num_frames : Z) : py (list Z) :=
  if n_frames <=? num_frames then Ret (range n_frames)
  else comprehension
         (fun i => round_div (i * (n_frames - 1)) (num_frames - 1))
         (range num_frames).

(** A decoded image: its frame count ([getattr(img, "n_frames", 1)]) and what
    seeking to a frame, converting, resizing to [max_dim] and saving it as
    PNG gives: the bytes, or an exception of the decoder. *)
Record image := {
  n_frames : Z;
  frame_png : Z -> Z -> py bytes;
}.

(** [extract_frames] / [extract_frames_gif] after [Image.open]: one PNG per
    selected index, in index order. *)
Definition extract_frames_of (img : image) (num_frames max_dim : Z)
  : py (list bytes) :=
  bind (frame_indices (n_frames img) num_frames) (fun indices =>
  comprehension (fun idx => frame_png img idx max_dim) indices).

(** Non-decreasing sequences of indices. *)
Fixpoint nondecreasing (l : list Z) : Prop :=
  match l with
  | [] => True
  | x :: l' => match l' with [] => True | y :: _ => x <= y end /\ nondecreasing l'
  end.

(** The rounded sample positions [round(i*(F-1)/(K-1))], [i = 0 .. K-1],
    for a divisor [K - 1] that is not zero. *)
Definition spread (F K : Z) : list Z :=
  map (fun i => round_half_even (i * (F - 1)) (K - 1)) (range K).

(** ** describe_gifs.py: the TGIF engine *)

Module DescribeGifs.

(** An entry of the list [load_gifs] returns. *)
Record gif := {
  url : string;
  original_description : string;
}.

(** [fix_tumblr_url] *)
Definition fix_tumblr_url (u : string) : string :=
  fold_left
    (fun u old => replace (old +:+ ".tumblr.com") "64.media.tumblr.com" u)
    ["38.media"; "33.media"; "31.media"] u.

(** [load_gifs], on the lines of the TSV file. [gifs] is the list built so
    far, in order. *)
Fixpoint load_gifs_from (lines : list string) (limit : Z) (gifs : list gif)
  : list gif :=
  match lines with
  | [] => gifs
  | l :: lines' =>
      match split_tab (strip l) with
      | None => load_gifs_from lines' limit gifs
      | Some (u, desc) =>
          let gifs := gifs ++ [{| url := fix_tumblr_url u;
                                  original_description := desc |}] in
          if negb (limit =? 0) && (limit <=? Z.of_nat (length gifs))
          then gifs
          else load_gifs_from lines' limit gifs
      end
  end.

Definition load_gifs (tsv : list string) (limit : Z) : list gif :=
  load_gifs_from tsv limit [].

(** What [urlopen(req, timeout=timeout)] does for a URL: it raises (timeout,
    HTTP error, transport error), or it gives a response with the final
    location [resp.url] and the outcome of [resp.read()]. *)
Inductive http_reply :=
| UrlopenRaises (e : exn)
| Response (resp_url : string) (read : py bytes).

(** The outside world as one job sees it. [generate_content frames attempt]
    is the text of the response to the [attempt]-th request of the job (from
    0), or the exception the call ends in; a response without text, on which
    [_clean_json_text] raises, counts as such an exception. *)
Record world := {
  urlopen : string -> http_reply;
  Image_open : bytes -> py image;
  generate_content : list bytes -> Z -> py string;
}.

(** Lines printed to stderr by a job. *)
Inductive log_line :=
| Skipping_removed_GIF (u : string)
| Download_error (e : exn)
| JSON_parse_error_retrying
| JSON_parse_error_giving_up
| Raw_response (prefix : string)
| API_error (e : exn).

Definition VIOLATION_LOCATION : string :=
  "assets.tumblr.com/images/media_violation/".

(** [download_gif]: the bytes, or [None] with the line printed. *)
Definition download_gif (w : world) (u : string) : option bytes * list log_line :=
  match urlopen w u with
  | UrlopenRaises e => (None, [Download_error e])
  | Response resp_url read =>
      if contains VIOLATION_LOCATION resp_url
      then (None, [Skipping_removed_GIF u])
      else match read with
           | Ret data => (Some data, [])
           | Raise e => (None, [Download_error e])
           end
  end.

(** [extract_frames] *)
Definition extract_frames (w : world) (gif_data : bytes)
    (num_frames max_dim : Z) : py (list bytes) :=
  bind (Image_open w gif_data) (fun img =>
  extract_frames_of img num_frames max_dim).

Definition newline : string := String (Ascii.ascii_of_nat 10) EmptyString.
Definition fence : string := "```".

(** [_clean_json_text] *)
Definition _clean_json_text (text : string) : string :=
  let text := strip text in
  if String.prefix fence text
  then String.concat newline (slice_1_m1 (split_newline text))
  else text.

Section Inference.

(** [json.loads] on a string: the value, or [None] for [JSONDecodeError]. *)
Variable json_loads : string -> option json.

(** The loop [for attempt in range(1 + retries)] of
    [describe_gif_from_data], with [n] iterations left. The result is the
    value returned ([JNull] is Python's [None]) and the lines printed. *)
Fixpoint attempts (w : world) (frames : list bytes) (retries : Z)
    (n : nat) (attempt : Z) : json * list log_line :=
  match n with
  | O => (JNull, [])
  | S n' =>
      match generate_content w frames attempt with
      | Raise e => (JNull, [API_error e])
      | Ret text =>
          match json_loads (_clean_json_text text) with
          | Some v => (v, [])
          | None =>
              let printed :=
                if attempt <? retries then [JSON_parse_error_retrying]
                else [JSON_parse_error_giving_up;
                      Raw_response (str_prefix 300 text)] in
              let '(v, later) := attempts w frames retries n' (attempt + 1) in
              (v, printed ++ later)
          end
      end
  end.

(** [describe_gif_from_data] *)
Definition describe_gif_from_data (w : world) (gif_data : bytes)
    (retries : Z) : json * list log_line :=
  match extract_frames w gif_data NUM_FRAMES MAX_FRAME_DIM with
  | Raise e => (JNull, [API_error e])
  | Ret frames => attempts w frames retries (Z.to_nat (1 + retries)) 0
  end.

(** What [process_gif] returns: a dict, the sentinel [REMOVED], or [None]. *)
Inductive job_result :=
| Described (record : gmap string json)
| REMOVED
| NONE.

(** The dict [{"url": ..., "original_description": ..., **descriptions}]:
    keys of [descriptions] replace the two literal ones. *)
Definition result_record (g : gif) (descriptions : gmap string json)
  : gmap string json :=
  descriptions ∪
  <["url" := JStr (url g)]>
    (<["original_description" := JStr (original_description g)]> ∅).

(** [process_gif]; [**descriptions] on a value that is not a dict raises
    [TypeError], which nothing in [process_gif] catches. *)
Definition process_gif (w : world) (g : gif) : py job_result * list log_line :=
  match download_gif w (url g) with
  | (None, printed) => (Ret REMOVED, printed)
  | (Some gif_data, printed) =>
      let '(descriptions, printed') := describe_gif_from_data w gif_data 1 in
      (if truthy descriptions
       then match descriptions with
            | JObj d => Ret (Described (result_record g d))
            | _ => Raise TypeError
            end
       else Ret NONE,
       printed ++ printed')
  end.

End Inference.

(** The resume scan of [main]:

      for line in f:
          data = json.loads(line)
          processed_urls.add(data["url"])                                  *)
Fixpoint scan (lines : list line) (processed_urls : gset key) : py (gset key) :=
  match lines with
  | [] => Ret processed_urls
  | l :: lines' =>
      bind (line_key "url" l) (fun k =>
      scan lines' ({[k]} ∪ processed_urls))
  end.

(** [processed_urls] as [main] builds it; [output] is the content of the
    output file, [None] when it does not exist. *)
Definition load_processed (resume : bool) (output : option (list line))
  : py (gset key) :=
  match resume, output with
  | true, Some lines => scan lines ∅
  | _, _ => Ret ∅
  end.

(** [[g for g in gifs if g["url"] not in processed_urls]] *)
Definition filter_processed (gifs : list gif) (processed_urls : gset key)
  : list gif :=
  filter (fun g => KStr (url g) ∉ processed_urls) gifs.

(** Lines printed to stdout by [main], from the resume scan on; elapsed
    time and rate are left out of the progress and summary lines. *)
Inductive out_line :=
| Resuming (already : Z)
| To_process (n : Z)
| Nothing_to_do
| Progress (done total ok nfailed nremoved : Z)
| Done (ok nfailed nremoved : Z).

(** The state shared by the completion loop: the open output file, as the
    part already flushed and the part still in the write buffer, the three
    counters, and what has been printed. *)
Record run_state := {
  flushed : list line;
  buffer : list line;
  success : Z;
  failed : Z;
  removed : Z;
  stdout : list out_line;
}.

(** The statements of the body of [with lock:], one state change each. *)
Definition inc_removed (s : run_state) : run_state :=
  {| flushed := flushed s; buffer := buffer s; success := success s;
     failed := failed s; removed := removed s + 1; stdout := stdout s |}.

Definition out_write (record : gmap string json) (s : run_state) : run_state :=
  {| flushed := flushed s; buffer := buffer s ++ [Json (JObj record)];
     success := success s; failed := failed s; removed := removed s;
     stdout := stdout s |}.

Definition out_flush (s : run_state) : run_state :=
  {| flushed := flushed s ++ buffer s; buffer := [];
     success := success s; failed := failed s; removed := removed s;
     stdout := stdout s |}.

Definition inc_success (s : run_state) : run_state :=
  {| flushed := flushed s; buffer := buffer s; success := success s + 1;
     failed := failed s; removed := removed s; stdout := stdout s |}.

Definition inc_failed (s : run_state) : run_state :=
  {| flushed := flushed s; buffer := buffer s; success := success s;
     failed := failed s + 1; removed := removed s; stdout := stdout s |}.

Definition print (l : out_line) (s : run_state) : run_state :=
  {| flushed := flushed s; buffer := buffer s; success := success s;
     failed := failed s; removed := removed s; stdout := stdout s ++ [l] |}.

(** [done = success + failed + removed] and the progress line printed when
    [done % 10 == 0 or done == len(to_process)]. *)
Definition report (total : Z) (s : run_state) : run_state :=
  let done := success s + failed s + removed s in
  if (done mod 10 =? 0) || (done =? total)
  then print (Progress done total (success s) (failed s) (removed s)) s
  else s.

(** The body of [with lock:] for one result, as the list of its statements
    in program order: [if result is REMOVED: ... elif result: ... else: ...]
    and the progress report. *)
Definition critical_section (total : Z) (result : job_result)
  : list (run_state -> run_state) :=
  match result with
  | REMOVED => [inc_removed]
  | Described record =>
      if truthy (JObj record)
      then [out_write record; out_flush; inc_success]
      else [inc_failed]
  | NONE => [inc_failed]
  end ++ [report total].

(** [for future in as_completed(futures)]: the statements executed for the
    results in completion order, up to the first [future.result()] that
    raises, and that exception. *)
Fixpoint completion_loop (total : Z) (results : list (py job_result))
  : list (run_state -> run_state) * option exn :=
  match results with
  | [] => ([], None)
  | Raise e :: _ => ([], Some e)
  | Ret result :: results' =>
      let '(steps, e) := completion_loop total results' in
      (critical_section total result ++ steps, e)
  end.

Definition run_steps (steps : list (run_state -> run_state)) (s : run_state)
  : run_state :=
  fold_left (fun s step => step s) steps s.

Section Main.

Variable json_loads : string -> option json.

(** The world as the job submitted [i]-th sees it. *)
Variable worlds : nat -> world.

(** [as_completed]: the submitted jobs in the order they complete. *)
Variable as_completed : list (nat * gif) -> list (nat * gif).

(** [open(args.output, "a" if args.resume else "w")]: the content of the
    file once it is open. *)
Definition open_output (resume : bool) (output : option (list line)) : list line :=
  if resume then default [] output else [].

Definition opened (content : list line) (printed : list out_line) : run_state :=
  {| flushed := content; buffer := []; success := 0; failed := 0;
     removed := 0; stdout := printed |}.

(** How [main] ends: the output file ([None]: there is none), the counters
    and what was printed, and the exception that ended it, if one did. *)
Record exit := {
  output_file : option (list line);
  last : run_state;
  uncaught : option exn;
}.

(** [main] once the catalog is loaded; [gifs] is what [load_gifs] returned,
    [output] the output file before the run. *)
Definition main_loaded (gifs : list gif) (resume : bool)
    (output : option (list line)) : exit :=
  match load_processed resume output with
  | Raise e =>
      {| output_file := output; last := opened [] []; uncaught := Some e |}
  | Ret processed_urls =>
      let to_process := filter_processed gifs processed_urls in
      let total := Z.of_nat (length to_process) in
      let printed :=
        match resume, output with
        | true, Some _ => [Resuming (Z.of_nat (size processed_urls))]
        | _, _ => []
        end ++ [To_process total] in
      match to_process with
      | [] =>
          {| output_file := output;
             last := opened [] (printed ++ [Nothing_to_do]);
             uncaught := None |}
      | _ :: _ =>
          let futures := imap pair to_process in
          let results :=
            map (fun '(i, g) => fst (process_gif json_loads (worlds i) g))
                (as_completed futures) in
          let '(steps, e) := completion_loop total results in
          let s := out_flush (run_steps steps
                                (opened (open_output resume output) printed)) in
          {| output_file := Some (flushed s);
             last := match e with
                     | None => print (Done (success s) (failed s) (removed s)) s
                     | Some _ => s
                     end;
             uncaught := e |}
      end
  end.

(** [main]; [tsv] holds the lines of the catalog file. *)
Definition main (tsv : list string) (limit : Z) (resume : bool)
    (output : option (list line)) : exit :=
  main_loaded (load_gifs tsv limit) resume output.

End Main.

End DescribeGifs.

(** ** describe_sources.py: the manifest-driven engine *)

Module DescribeSources.

(** A file below a source directory: [source_dir / name]. *)
Definition path : Type := string * string.

(** The video stream [ffprobe] reports, as far as [extract_frames_mp4] reads
    it. A field is [None] when the key is absent; otherwise it is what the
    conversion applied to it gives ([float(...)], [int(...)],
    [map(int, ....split("/"))]): the number, or the exception. Floats are
    taken as the rationals they stand for. *)
Record video_stream := {
  duration : option (py Q);
  nb_frames : option (py Z);
  r_frame_rate : option (py (Z * Z));
}.

(** The run of [ffprobe]: its return code and standard error, and what
    [json.loads(probe.stdout)] followed by the search for the first video
    stream gives: an exception, [None], or the stream. *)
Record probe := {
  returncode : Z;
  stderr : string;
  video : py (option video_stream);
}.

(** The outside world as one job sees it. [ffprobe] raises when
    [subprocess.run] does. [ffmpeg file i ts max_dim] is the run for the
    [i]-th timestamp: an exception of [subprocess.run], or the frame file
    it left behind, if any. [generate_content] is as in [DescribeGifs]:
    what the service answers to the [attempt]-th request of the job. *)
Record world := {
  path_exists : path -> bool;
  Image_open : path -> py image;
  ffprobe : path -> py probe;
  ffmpeg : path -> Z -> Q -> Z -> py (option bytes);
  generate_content : list bytes -> Z -> py string;
}.

(** [extract_frames_gif] *)
Definition extract_frames_gif (w : world) (file_path : path)
    (num_frames max_dim : Z) : py (list bytes) :=
  bind (Image_open w file_path) (fun img =>
  extract_frames_of img num_frames max_dim).

(** The duration [extract_frames_mp4] settles on: the [duration] field; if
    that is zero, [nb_frames * den / num] when both [nb_frames] and [num]
    are positive; and [1.0] if the result is not positive. *)
Definition resolve_duration (vs : video_stream) : py Q :=
  bind (default (Ret 0%Q) (duration vs)) (fun d =>
  bind (if Qeq_bool d 0
        then
          bind (default (Ret 0) (nb_frames vs)) (fun nb =>
          bind (default (Ret (30, 1)) (r_frame_rate vs)) (fun '(num, den) =>
          Ret (if (0 <? nb) && (0 <? num)
               then (inject_Z (nb * den) / inject_Z num)%Q
               else d)))
        else Ret d) (fun d =>
  Ret (if Qle_bool d 0 then 1%Q else d))).

(** [timestamps[-1] = v] *)
Definition set_last {A} (l : list A) (v : A) : py (list A) :=
  match l with
  | [] => Raise IndexError
  | _ :: _ => Ret (removelast l ++ [v])
  end.

(** The timestamps at which frames are taken. *)
Definition timestamps_of (d : Q) (num_frames : Z) : py (list Q) :=
  if num_frames =? 1 then Ret [0%Q]
  else
    let timestamps :=
      map (fun i => (inject_Z i * d / inject_Z (num_frames - 1))%Q)
          (range num_frames) in
    set_last timestamps
      (Qmin (List.last timestamps 0%Q) (Qmax 0 (d - (1 # 100))))%Q.

(** The loop over [enumerate(timestamps)]: one run of [ffmpeg] per
    timestamp; the frames of the runs that left a file, in order. *)
Fixpoint grab_frames (w : world) (file_path : path) (max_dim : Z)
    (i : Z) (timestamps : list Q) : py (list bytes) :=
  match timestamps with
  | [] => Ret []
  | ts :: timestamps' =>
      bind (ffmpeg w file_path i ts max_dim) (fun out =>
      bind (grab_frames w file_path max_dim (i + 1) timestamps') (fun frames =>
      Ret (match out with
           | Some frame => frame :: frames
           | None => frames
           end)))
  end.

(** [extract_frames_mp4] *)
Definition extract_frames_mp4 (w : world) (file_path : path)
    (num_frames max_dim : Z) : py (list bytes) :=
  bind (ffprobe w file_path) (fun p =>
  if negb (returncode p =? 0)
  then Raise (RuntimeError ("ffprobe failed: " +:+ stderr p))
  else
    bind (video p) (fun video_stream =>
    match video_stream with
    | None => Raise (RuntimeError "No video stream found")
    | Some vs =>
        bind (resolve_duration vs) (fun d =>
        bind (timestamps_of d num_frames) (fun timestamps =>
        bind (grab_frames w file_path max_dim 0 timestamps) (fun frames =>
        match frames with
        | [] => Raise (RuntimeError "ffmpeg extracted no frames")
        | _ :: _ => Ret frames
        end)))
    end)).

(** [extract_frames]: dispatch on the format. *)
Definition extract_frames (w : world) (file_path : path) (fmt : json)
  : py (list bytes) :=
  match fmt with
  | JStr "mp4" | JStr "webm" =>
      extract_frames_mp4 w file_path NUM_FRAMES MAX_FRAME_DIM
  | _ => extract_frames_gif w file_path NUM_FRAMES MAX_FRAME_DIM
  end.

(** Lines printed to stderr by a job; [id] is [item['id']]. *)
Inductive log_line :=
| File_not_found (local_path : path)
| Frame_extraction_error (id : json) (e : exn)
| JSON_parse_error (id : json)
| API_error (id : json) (e : exn).

Definition newline : string := String (Ascii.ascii_of_nat 10) EmptyString.
Definition fence : string := "```".

(** The fence stripping inlined in [describe_item]. *)
Definition clean (text : string) : string :=
  let text := strip text in
  if String.prefix fence text
  then String.concat newline (slice_1_m1 (split_newline text))
  else text.

Section Inference.

Variable json_loads : string -> option json.

(** An [except] clause of [describe_item]: it prints a line that mentions
    [item['id']] and returns [None]; on an item without ["id"] the
    formatting itself raises [KeyError]. *)
Definition handler (item : gmap string json) (mk : json -> log_line)
  : py (option (gmap string json)) * list log_line :=
  match item !! "id" with
  | Some id => (Ret None, [mk id])
  | None => (Raise (KeyError "id"), [])
  end.

(** The dict [describe_item] returns: the four literal keys, then [**desc].
    The lookups and the unpacking are evaluated in this order, and the
    first that raises decides. *)
Definition result_record (item : gmap string json) (desc : json)
  : py (gmap string json) :=
  bind (subscript (JObj item) "id") (fun id =>
  bind (subscript (JObj item) "original_url") (fun original_url =>
  match desc with
  | JObj d =>
      Ret (d ∪
           <["id" := id]>
           (<["url" := original_url]>
           (<["attribution" := dict_get_or item "page_url" (JStr "")]>
           (<["original_description" := dict_get_or item "title" (JStr "")]> ∅))))
  | _ => Raise TypeError
  end)).

(** [describe_item]: the dict or [None], or the exception that leaves it
    ([item["local_file"]] missing or not a string; an [except] clause on an
    item without ["id"]), and the lines printed. [generate_content] is
    called once, outside any loop: only request 0 is ever made. *)
Definition describe_item (w : world) (source_dir : string)
    (item : gmap string json)
  : py (option (gmap string json)) * list log_line :=
  match item !! "local_file" with
  | None => (Raise (KeyError "local_file"), [])
  | Some (JStr name) =>
      let local_path := (source_dir, name) in
      if negb (path_exists w local_path)
      then (Ret None, [File_not_found local_path])
      else
        match extract_frames w local_path
                (dict_get_or item "format" (JStr "gif")) with
        | Raise e => handler item (fun id => Frame_extraction_error id e)
        | Ret frames =>
            match generate_content w frames 0 with
            | Raise e => handler item (fun id => API_error id e)
            | Ret text =>
                match json_loads (clean text) with
                | None => handler item JSON_parse_error
                | Some desc =>
                    match result_record item desc with
                    | Ret record => (Ret (Some record), [])
                    | Raise e => handler item (fun id => API_error id e)
                    end
                end
            end
        end
  | Some _ => (Raise TypeError, [])
  end.

End Inference.

(** [manifest.json] as loaded: the source name and the items, each a dict. *)
Record manifest := {
  source : string;
  items : list (gmap string json);
}.

(** A reference to an item of [manifest["items"]]: its position there,
    with the fields it has when the run starts. The only field the run
    changes is ["described"], through the position. *)
Definition item_ref : Type := nat * gmap string json.

(** [items_needing_description] *)
Definition items_needing_description (m : manifest) (force : bool)
  : list item_ref :=
  filter (fun r : item_ref =>
            truthy (dict_get r.2 "downloaded")
            && (force || negb (truthy (dict_get r.2 "described"))) = true)
         (imap pair (items m)).

(** The resume scan of [process_source]:

      for line in f:
          try:
              existing_ids.add(json.loads(line)["id"])
          except (json.JSONDecodeError, KeyError):
              pass                                                        *)
Fixpoint scan (lines : list line) (existing_ids : gset key) : py (gset key) :=
  match lines with
  | [] => Ret existing_ids
  | l :: lines' =>
      match line_key "id" l with
      | Ret k => scan lines' ({[k]} ∪ existing_ids)
      | Raise JSONDecodeError | Raise (KeyError _) => scan lines' existing_ids
      | Raise e => Raise e
      end
  end.

(** [[i for i in to_process if i["id"] not in existing_ids]] *)
Fixpoint filter_existing (to_process : list item_ref) (existing_ids : gset key)
  : py (list item_ref) :=
  match to_process with
  | [] => Ret []
  | i :: rest =>
      bind (subscript (JObj i.2) "id") (fun id =>
      bind (hash_key id) (fun k =>
      bind (filter_existing rest existing_ids) (fun kept =>
      Ret (if bool_decide (k ∈ existing_ids) then kept else i :: kept))))
  end.

(** Lines printed to stdout by [process_source]; the rate is left out. *)
Inductive out_line :=
| All_items_already_described
| To_describe (n workers : Z)
| Progress (source_name : string) (ok nfailed done total : Z).

(** The mode the descriptions file is opened in: ["a"] or ["w"]. *)
Inductive output_mode :=
| Append
| Truncate.

(** The state shared by the completion loop: the open descriptions file
    (flushed part and write buffer), the two counters, the items of the
    manifest in memory, and what has been printed. *)
Record run_state := {
  flushed : list line;
  buffer : list line;
  success : Z;
  failed : Z;
  manifest_items : list (gmap string json);
  stdout : list out_line;
}.

(** The statements of the body of [with lock:], one state change each. *)
Definition out_write (record : gmap string json) (s : run_state) : run_state :=
  {| flushed := flushed s; buffer := buffer s ++ [Json (JObj record)];
     success := success s; failed := failed s;
     manifest_items := manifest_items s; stdout := stdout s |}.

Definition out_flush (s : run_state) : run_state :=
  {| flushed := flushed s ++ buffer s; buffer := [];
     success := success s; failed := failed s;
     manifest_items := manifest_items s; stdout := stdout s |}.

(** [item["described"] = True], on the item the reference points to. *)
Definition set_described (pos : nat) (s : run_state) : run_state :=
  {| flushed := flushed s; buffer := buffer s;
     success := success s; failed := failed s;
     manifest_items :=
       alter (insert "described" (JBool true)) pos (manifest_items s);
     stdout := stdout s |}.

Definition inc_success (s : run_state) : run_state :=
  {| flushed := flushed s; buffer := buffer s; success := success s + 1;
     failed := failed s; manifest_items := manifest_items s;
     stdout := stdout s |}.

Definition inc_failed (s : run_state) : run_state :=
  {| flushed := flushed s; buffer := buffer s; success := success s;
     failed := failed s + 1; manifest_items := manifest_items s;
     stdout := stdout s |}.

Definition print (l : out_line) (s : run_state) : run_state :=
  {| flushed := flushed s; buffer := buffer s; success := success s;
     failed := failed s; manifest_items := manifest_items s;
     stdout := stdout s ++ [l] |}.

Definition report (source_name : string) (total : Z) (s : run_state)
  : run_state :=
  let done := success s + failed s in
  if (done mod 10 =? 0) || (done =? total)
  then print (Progress source_name (success s) (failed s) done total) s
  else s.

(** The body of [with lock:] for the job of the item at [pos]. *)
Definition critical_section (source_name : string) (total : Z) (pos : nat)
    (result : option (gmap string json)) : list (run_state -> run_state) :=
  match result with
  | Some record =>
      if truthy (JObj record)
      then [out_write record; out_flush; set_described pos; inc_success]
      else [inc_failed]
  | None => [inc_failed]
  end ++ [report source_name total].

(** [for future in as_completed(futures)], up to the first
    [future.result()] that raises. *)
Fixpoint completion_loop (source_name : string) (total : Z)
    (results : list (nat * py (option (gmap string json))))
  : list (run_state -> run_state) * option exn :=
  match results with
  | [] => ([], None)
  | (_, Raise e) :: _ => ([], Some e)
  | (pos, Ret result) :: results' =>
      let '(steps, e) := completion_loop source_name total results' in
      (critical_section source_name total pos result ++ steps, e)
  end.

Definition run_steps (steps : list (run_state -> run_state)) (s : run_state)
  : run_state :=
  fold_left (fun s step => step s) steps s.

Section ProcessSource.

Variable json_loads : string -> option json.

(** The world as the job of the item at a position sees it. *)
Variable worlds : nat -> world.

(** [as_completed]: the submitted jobs in the order they complete. *)
Variable as_completed : list item_ref -> list item_ref.

Variable source_dir : string.

(** [open(descriptions_path, output_mode)]: the content once open. *)
Definition open_output (mode : output_mode) (descriptions : option (list line))
  : list line :=
  match mode with
  | Append => default [] descriptions
  | Truncate => []
  end.

(** How [process_source] ends: the descriptions file ([None]: there is
    none), the mode it was opened in ([None]: it was not opened), the
    manifest [save_manifest] wrote ([None]: it was not called), what the
    call returned or raised, and the final state of the loop. *)
Record exit := {
  descriptions_file : option (list line);
  opened_in : option output_mode;
  saved : option manifest;
  returned : py Z;
  last : run_state;
}.

Definition idle (m : manifest) (printed : list out_line) : run_state :=
  {| flushed := []; buffer := []; success := 0; failed := 0;
     manifest_items := items m; stdout := printed |}.

(** [to_process] after the limit:

      to_process = items_needing_description(manifest, force=force)
      if limit:
          to_process = to_process[:limit]                                 *)
Definition limited (m : manifest) (limit : Z) (force : bool) : list item_ref :=
  let to_process := items_needing_description m force in
  if limit =? 0 then to_process else slice_to to_process limit.

(** The resume support: [existing_ids] and [to_process] after the block
    [if descriptions_path.exists() and not force: ...]. *)
Definition resume_filter (to_process : list item_ref) (force : bool)
    (descriptions : option (list line)) : py (gset key * list item_ref) :=
  match descriptions, force with
  | Some lines, false =>
      bind (scan lines ∅) (fun existing_ids =>
      bind (filter_existing to_process existing_ids) (fun to_process =>
      Ret (existing_ids, to_process)))
  | _, _ => Ret (∅, to_process)
  end.

(** [output_mode = "a" if existing_ids else "w"; if force: output_mode = "w"] *)
Definition choose_mode (existing_ids : gset key) (force : bool) : output_mode :=
  if force then Truncate
  else if bool_decide (existing_ids = ∅) then Truncate else Append.

(** [process_source]; [descriptions] is [descriptions.jsonl] before the
    call, [None] when it does not exist. *)
Definition process_source (m : manifest) (workers limit : Z) (force : bool)
    (descriptions : option (list line)) : exit :=
  match limited m limit force with
  | [] =>
      {| descriptions_file := descriptions; opened_in := None; saved := None;
         returned := Ret 0; last := idle m [] |}
  | (_ :: _) as to_process =>
      match resume_filter to_process force descriptions with
      | Raise e =>
          {| descriptions_file := descriptions; opened_in := None;
             saved := None; returned := Raise e; last := idle m [] |}
      | Ret (existing_ids, []) =>
          {| descriptions_file := descriptions; opened_in := None;
             saved := None; returned := Ret 0;
             last := idle m [All_items_already_described] |}
      | Ret (existing_ids, (_ :: _) as to_process) =>
          let total := Z.of_nat (length to_process) in
          let mode := choose_mode existing_ids force in
          let results :=
            map (fun r : item_ref =>
                   (r.1, fst (describe_item json_loads (worlds r.1)
                                source_dir r.2)))
                (as_completed to_process) in
          let '(steps, e) := completion_loop (source m) total results in
          let s := out_flush
                     (run_steps steps
                        {| flushed := open_output mode descriptions;
                           buffer := []; success := 0; failed := 0;
                           manifest_items := items m;
                           stdout := [To_describe total workers] |}) in
          {| descriptions_file := Some (flushed s);
             opened_in := Some mode;
             saved := match e with
                      | None => Some {| source := source m;
                                        items := manifest_items s |}
                      | Some _ => None
                      end;
             returned := match e with
                         | None => Ret (success s)
                         | Some e => Raise e
                         end;
             last := s |}
      end
  end.

End ProcessSource.

End DescribeSources.

(** ** Both scripts: the API key *)

(** [s.split()]: the maximal runs of characters that are not white space,
    in order. *)
Fixpoint split_whitespace (s : string) : list string :=
  match s with
  | EmptyString => []
  | String c s' =>
      if isspace c then split_whitespace s'
      else match s' with
           | EmptyString => [String c EmptyString]
           | String c' _ =>
               if isspace c' then String c EmptyString :: split_whitespace s'
               else match split_whitespace s' with
                    | token :: tokens => String c token :: tokens
                    | [] => [String c EmptyString]
                    end
           end
  end.

(** [load_api_key], the same in both scripts; [key_file] is what opening
    and reading the key file gives: its text, or the exception.

      with open(API_KEY_PATH) as f:
          return f.read().strip().split()[0]                             *)
Definition load_api_key (key_file : py string) : py string :=
  bind key_file (fun text =>
  match split_whitespace (strip text) with
  | [] => Raise IndexError
  | token :: _ => Ret token
  end).

(** ** describe_sources.py: finding the sources and [main] *)

Module DescribeSourcesMain.

(** An entry [d] of [SOURCES_DIR.iterdir()]: [d.name], [d.is_dir()] and
    [(d / "manifest.json").exists()]. *)
Record dir_entry := {
  name : string;
  is_dir : bool;
  has_manifest : bool;
}.

(** The order [sorted] puts sibling paths in: that of their names. *)
Definition path_le (a b : dir_entry) : Prop :=
  String.leb (name a) (name b) = true.

#[global] Instance path_le_dec (a b : dir_entry) : Decision (path_le a b).
Proof. unfold path_le. apply _. Defined.

(** [find_sources]; [listing] is [None] when [SOURCES_DIR] does not
    exist. A [source_filter] that is [None] or empty filters nothing. *)
Definition find_sources (listing : option (list dir_entry))
    (source_filter : option string) : list dir_entry :=
  match listing with
  | None => []
  | Some entries =>
      filter (fun d =>
                (negb (negb (is_dir d) || String.prefix "_" (name d))
                 && negb (match source_filter with
                          | Some f => negb (String.eqb f "")
                                      && negb (String.eqb (name d) f)
                          | None => false
                          end)
                 && has_manifest d) = true)
             (merge_sort path_le entries)
  end.

(** Lines printed to stdout by [main], besides those of [process_source]. *)
Inductive out_line :=
| No_sources_found
| Found (names : list string)
| Source_header (source_name : string) (total downloaded described : Z)
| Done (total_success : Z) (sources : Z).

Section Main.

Variable json_loads : string -> option json.

(** The world as the job of an item of a source sees it, and the order in
    which the jobs of a source complete. *)
Variable worlds : string -> nat -> DescribeSources.world.
Variable as_completed :
  string -> list DescribeSources.item_ref -> list DescribeSources.item_ref.

(** [load_manifest] on a source directory: the manifest, or the exception
    of [open], of [json.load] or of the first use of the manifest in
    [main]. *)
Variable load_manifest : string -> py DescribeSources.manifest.

(** [descriptions.jsonl] of a source directory before the run. *)
Variable descriptions : string -> option (list line).

(** [sum(1 for i in manifest["items"] if i.get(field))] *)
Definition count_flag (field : string) (m : DescribeSources.manifest) : Z :=
  Z.of_nat (length (filter (fun i => truthy (dict_get i field) = true)
                           (DescribeSources.items m))).

(** The loop of [main] over the sources, from [total_success] on: what
    was printed, how [process_source] ended for each source reached, and
    the final [total_success] or the exception that ended the loop. *)
Fixpoint main_loop (sources : list dir_entry) (workers limit : Z)
    (force : bool) (total_success : Z)
  : list out_line * list (string * DescribeSources.exit) * py Z :=
  match sources with
  | [] => ([], [], Ret total_success)
  | d :: sources' =>
      match load_manifest (name d) with
      | Raise e => ([], [], Raise e)
      | Ret m =>
          let header :=
            Source_header (DescribeSources.source m)
              (Z.of_nat (length (DescribeSources.items m)))
              (count_flag "downloaded" m) (count_flag "described" m) in
          let x := DescribeSources.process_source json_loads
                     (worlds (name d)) (as_completed (name d)) (name d)
                     m workers limit force (descriptions (name d)) in
          match DescribeSources.returned x with
          | Raise e => ([header], [(name d, x)], Raise e)
          | Ret count =>
              let '(printed, exits, r) :=
                main_loop sources' workers limit force (total_success + count) in
              (header :: printed, (name d, x) :: exits, r)
          end
      end
  end.

(** [main] after the client is set up. *)
Definition main (listing : option (list dir_entry))
    (source_filter : option string) (workers limit : Z) (force : bool)
  : list out_line * list (string * DescribeSources.exit) * py Z :=
  match find_sources listing source_filter with
  | [] => ([No_sources_found], [], Ret 0)
  | (_ :: _) as sources =>
      let '(printed, exits, r) := main_loop sources workers limit force 0 in
      (Found (name <$> sources) :: printed
       ++ match r with
          | Ret total => [Done total (Z.of_nat (length sources))]
          | Raise _ => []
          end,
       exits, r)
  end.

End Main.

End DescribeSourcesMain.

(** ** Vocabulary of the properties *)

(** A video stream whose duration cannot be resolved: the [duration] field
    is absent or zero, and the frame-count/rate metadata ([nb_frames],
    default 0, and the numerator of [r_frame_rate], default 30/1) is not
    positive on both counts. *)
Definition unresolved (vs : DescribeSources.video_stream) : Prop :=
  (DescribeSources.duration vs = None \/
   exists d, DescribeSources.duration vs = Some (Ret d) /\ Qeq d 0) /\
  exists nb num den,
    default (Ret 0) (DescribeSources.nb_frames vs) = Ret nb /\
    default (Ret (30, 1)) (DescribeSources.r_frame_rate vs) = Ret (num, den) /\
    (nb <= 0 \/ num <= 0).

(** The timestamps taken over a nominal second with the default of five
    frames: 0, 0.25, 0.5, 0.75 and 0.99. *)
Definition nominal_second : list Q :=
  [0; 1 # 4; 1 # 2; 3 # 4; 99 # 100]%Q.

(** The states a run goes through: the state before the first statement
    and the state after each statement, in order. *)
Fixpoint states {S : Type} (steps : list (S -> S)) (s : S) : list S :=
  match steps with
  | [] => [s]
  | step :: steps' => s :: states steps' (step s)
  end.

(** The success count a line of the TGIF engine's output reports. *)
Definition tgif_reported (l : DescribeGifs.out_line) : option Z :=
  match l with
  | DescribeGifs.Progress _ _ ok _ _ => Some ok
  | DescribeGifs.Done ok _ _ => Some ok
  | _ => None
  end.

(** In a state of the TGIF engine, neither the success counter nor any
    success count printed so far exceeds the number of records flushed to
    the output file since it was opened with [n0] lines. *)
Definition tgif_never_overcounts (n0 : nat) (s : DescribeGifs.run_state) : Prop :=
  DescribeGifs.success s
    <= Z.of_nat (length (DescribeGifs.flushed s)) - Z.of_nat n0 /\
  Forall (fun l => forall ok, tgif_reported l = Some ok ->
            ok <= Z.of_nat (length (DescribeGifs.flushed s)) - Z.of_nat n0)
         (DescribeGifs.stdout s).

(** The same for the manifest-driven engine. *)
Definition sources_reported (l : DescribeSources.out_line) : option Z :=
  match l with
  | DescribeSources.Progress _ ok _ _ _ => Some ok
  | _ => None
  end.

Definition sources_never_overcounts (n0 : nat) (s : DescribeSources.run_state)
  : Prop :=
  DescribeSources.success s
    <= Z.of_nat (length (DescribeSources.flushed s)) - Z.of_nat n0 /\
  Forall (fun l => forall ok, sources_reported l = Some ok ->
            ok <= Z.of_nat (length (DescribeSources.flushed s)) - Z.of_nat n0)
         (DescribeSources.stdout s).

(** [i["id"]] of a manifest item as an element of a set. *)
Definition item_key (r : DescribeSources.item_ref) : py key :=
  bind (subscript (JObj r.2) "id") hash_key.

(** The item's id is among the ids found in the existing descriptions. *)
Definition known (existing_ids : gset key) (r : DescribeSources.item_ref) : bool :=
  match item_key r with
  | Ret k => bool_decide (k ∈ existing_ids)
  | Raise _ => false
  end.

(** The lines the completion loop of [process_source] writes for the
    results it consumes: one per dict, in completion order, up to the first
    result that raises. *)
Fixpoint sources_written
    (results : list (nat * py (option (gmap string json)))) : list line :=
  match results with
  | [] => []
  | (_, Raise _) :: _ => []
  | (_, Ret (Some record)) :: results' =>
      (if truthy (JObj record) then [Json (JObj record)] else [])
      ++ sources_written results'
  | (_, Ret None) :: results' => sources_written results'
  end.

(** The same for the completion loop of the TGIF engine. *)
Fixpoint tgif_written (results : list (py DescribeGifs.job_result)) : list line :=
  match results with
  | [] => []
  | Raise _ :: _ => []
  | Ret (DescribeGifs.Described record) :: results' =>
      (if truthy (JObj record) then [Json (JObj record)] else [])
      ++ tgif_written results'
  | Ret _ :: results' => tgif_written results'
  end.

(** The results the completion loop of [process_source] consumes when the
    jobs of [to_process] are submitted: position and outcome of
    [describe_item], in completion order. *)
Definition sources_results (json_loads : string -> option json)
    (worlds : nat -> DescribeSources.world)
    (as_completed : list DescribeSources.item_ref -> list DescribeSources.item_ref)
    (source_dir : string) (to_process : list DescribeSources.item_ref)
  : list (nat * py (option (gmap string json))) :=
  map (fun r : DescribeSources.item_ref =>
         (r.1, fst (DescribeSources.describe_item json_loads (worlds r.1)
                      source_dir r.2)))
      (as_completed to_process).

(** The items of a manifest that still lack a description, given the ids
    found in the existing descriptions: those needing description whose id
    is not among them. *)
Definition undescribed (m : DescribeSources.manifest) (existing_ids : gset key)
  : list DescribeSources.item_ref :=
  filter (fun r => known existing_ids r = false)
         (DescribeSources.items_needing_description m false).

(** The identities recorded in a JSONL file: the [field] of every line, as
    set elements, in file order; an exception when a line has none. *)
Definition identities (field : string) (lines : list line) : py (list key) :=
  comprehension (line_key field) lines.

(** The thread pool completes every submitted job exactly once. *)
Definition fair {A : Type} (as_completed : list A -> list A) : Prop :=
  forall jobs, as_completed jobs ≡ₚ jobs.

(** The results the completion loop of the TGIF engine consumes when the
    GIFs of [to_process] are submitted, in completion order. *)
Definition tgif_results (json_loads : string -> option json)
    (worlds : nat -> DescribeGifs.world)
    (as_completed : list (nat * DescribeGifs.gif) -> list (nat * DescribeGifs.gif))
    (to_process : list DescribeGifs.gif) : list (py DescribeGifs.job_result) :=
  map (fun '(i, g) => fst (DescribeGifs.process_gif json_loads (worlds i) g))
      (as_completed (imap pair to_process)).

(** No response of the service carries a ["url"] of its own: the record of
    a job keeps the URL of its GIF. *)
Definition tgif_keeps_identity (json_loads : string -> option json)
    (worlds : nat -> DescribeGifs.world) : Prop :=
  forall i g record printed,
    DescribeGifs.process_gif json_loads (worlds i) g
      = (Ret (DescribeGifs.Described record), printed) ->
    record !! "url" = Some (JStr (DescribeGifs.url g)).

(** The identity of a manifest item as a set element; [KNone] also stands
    in for an item whose id is missing or unhashable, which [distinct_ids]
    excludes. *)
Definition key_of (r : DescribeSources.item_ref) : key :=
  match item_key r with
  | Ret k => k
  | Raise _ => KNone
  end.

(** The ids of a manifest are catalog-unique: every item has a hashable
    ["id"], and no two items have equal ids. *)
Definition distinct_ids (its : list (gmap string json)) : Prop :=
  Forall (fun r => exists k, item_key r = Ret k) (imap pair its) /\
  NoDup (key_of <$> imap pair its).

(** No response of the service carries an ["id"] of its own: the record of
    a job keeps the id of its item. *)
Definition sources_keeps_identity (json_loads : string -> option json)
    (worlds : nat -> DescribeSources.world) (source_dir : string) : Prop :=
  forall pos item record printed,
    DescribeSources.describe_item json_loads (worlds pos) source_dir item
      = (Ret (Some record), printed) ->
    record !! "id" = item !! "id".

(** Two lists of items agree on the ids, position by position. *)
Definition same_ids (its its' : list (gmap string json)) : Prop :=
  Forall2 (fun a b : gmap string json => a !! "id" = b !! "id") its its'.

(** Between two jobs of the TGIF engine: nothing is buffered and the
    success counter equals the number of records flushed. *)
Definition tgif_settled (n0 : nat) (s : DescribeGifs.run_state) : Prop :=
  DescribeGifs.buffer s = [] /\
  DescribeGifs.success s
    = Z.of_nat (length (DescribeGifs.flushed s)) - Z.of_nat n0 /\
  tgif_never_overcounts n0 s.

(** The same for the manifest-driven engine. *)
Definition sources_settled (n0 : nat) (s : DescribeSources.run_state) : Prop :=
  DescribeSources.buffer s = [] /\
  DescribeSources.success s
    = Z.of_nat (length (DescribeSources.flushed s)) - Z.of_nat n0 /\
  sources_never_overcounts n0 s.

(** Every request of a TGIF job from [attempt] on, [n] of them, is
    answered with text that does not parse. *)
Definition unparsable_from (json_loads : string -> option json)
    (w : DescribeGifs.world) (frames : list bytes)
    (texts : Z -> string) (attempt : Z) (n : nat) : Prop :=
  forall i, attempt <= i < attempt + Z.of_nat n ->
    DescribeGifs.generate_content w frames i = Ret (texts i) /\
    json_loads (DescribeGifs._clean_json_text (texts i)) = None.

(** What the retry loop prints on parse failures at the attempts
    [attempt], [attempt + 1], ... ([n] of them). *)
Fixpoint parse_failures (texts : Z -> string) (retries : Z) (n : nat)
    (attempt : Z) : list DescribeGifs.log_line :=
  match n with
  | O => []
  | S n' =>
      (if attempt <? retries then [DescribeGifs.JSON_parse_error_retrying]
       else [DescribeGifs.JSON_parse_error_giving_up;
             DescribeGifs.Raw_response (str_prefix 300 (texts attempt))])
      ++ parse_failures texts retries n' (attempt + 1)
  end.

(** How the completion loop of the TGIF engine counts a result. *)
Inductive tally := Counted_success | Counted_failed | Counted_removed.

Definition tgif_counted (result : DescribeGifs.job_result) : tally :=
  match result with
  | DescribeGifs.Described record =>
      if truthy (JObj record) then Counted_success else Counted_failed
  | DescribeGifs.REMOVED => Counted_removed
  | DescribeGifs.NONE => Counted_failed
  end.

Definition sources_counted (result : option (gmap string json)) : tally :=
  match result with
  | Some record =>
      if truthy (JObj record) then Counted_success else Counted_failed
  | None => Counted_failed
  end.

#[global] Instance tally_eq_dec : EqDecision tally.
Proof. solve_decision. Defined.

(** How many results of a list are counted as [t]. *)
Definition count_of {A} (counted : A -> tally) (t : tally) (results : list A) : Z :=
  Z.of_nat (length (filter (fun r => counted r = t) results)).

(** [c in s] for a character. *)
Fixpoint mem_char (c : Ascii.ascii) (s : string) : bool :=
  match s with
  | EmptyString => false
  | String x s' => Ascii.eqb c x || mem_char c s'
  end.

(** The hosts [fix_tumblr_url] rewrites. *)
Definition LEGACY_HOSTS : list string :=
  ["38.media.tumblr.com"; "33.media.tumblr.com"; "31.media.tumblr.com"].

(** Texts made of white space only, and texts without a line break. *)
Fixpoint blank (s : string) : bool :=
  match s with
  | EmptyString => true
  | String c s' => isspace c && blank s'
  end.

Definition one_line (s : string) : bool :=
  negb (mem_char (Ascii.ascii_of_nat 10) s).

(** The line break ["\n"]. *)
Definition newline_text : string := String (Ascii.ascii_of_nat 10) EmptyString.

(** A manifest item [describe_item] can work on: ["local_file"] is a
    string and there is an ["id"]. *)
Definition well_formed (item : gmap string json) : Prop :=
  (exists name, item !! "local_file" = Some (JStr name)) /\
  is_Some (item !! "id").

(** The positions the completion loop of [process_source] flags as
    described: those of the jobs that returned a dict, in completion
    order, up to the first result that raises. *)
Fixpoint described_positions
    (results : list (nat * py (option (gmap string json)))) : list nat :=
  match results with
  | [] => []
  | (_, Raise _) :: _ => []
  | (pos, Ret (Some record)) :: results' =>
      (if truthy (JObj record) then [pos] else [])
      ++ described_positions results'
  | (_, Ret None) :: results' => described_positions results'
  end.

(** The records the descriptions file of a source gained in a call of
    [process_source] that found it as [before]. *)
Definition records_gained (before : option (list line))
    (x : DescribeSources.exit) : Z :=
  match DescribeSources.opened_in x, DescribeSources.descriptions_file x with
  | Some mode, Some f =>
      Z.of_nat (length f)
      - Z.of_nat (length (DescribeSources.open_output mode before))
  | _, _ => 0
  end.

(** Texts without white space. *)
Fixpoint solid (s : string) : bool :=
  match s with
  | EmptyString => true
  | String c s' => negb (isspace c) && solid s'
  end.

(** Nothing or white space comes next. *)
Definition token_end (rest : string) : Prop :=
  match rest with
  | EmptyString => True
  | String c _ => isspace c = true
  end.

(** ** Sample inputs

    Concrete worlds and catalogs on which the properties below are
    evaluated. *)

Module Samples.

Definition dq : string := String (Ascii.ascii_of_nat 34) EmptyString.

(** The text [{"mood": "funny"}]. *)
Definition mood_text : string :=
  "{" +:+ dq +:+ "mood" +:+ dq +:+ ": " +:+ dq +:+ "funny" +:+ dq +:+ "}".

Definition mood_dict : gmap string json := {["mood" := JStr "funny"]}.

(** [json.loads] on the texts used here; every other text used here is
    not JSON. *)
Definition sample_loads (text : string) : option json :=
  if String.eqb text mood_text then Some (JObj mood_dict) else None.

(** A decoder for which every file is a single-frame image. *)
Definition still : image :=
  {| n_frames := 1; frame_png := fun _ _ => Ret [] |}.

Definition cat_gif : DescribeGifs.gif :=
  {| DescribeGifs.url := "https://64.media.tumblr.com/cat.gif";
     DescribeGifs.original_description := "a cat jumps" |}.

(** The service answers with text that is not JSON, then with JSON. *)
Definition sorry_then_mood (frames : list bytes) (attempt : Z) : py string :=
  if attempt =? 0 then Ret "Sorry, I cannot help with that." else Ret mood_text.

(** The service never answers with JSON. *)
Definition always_sorry (frames : list bytes) (attempt : Z) : py string :=
  Ret "Sorry, I cannot help with that.".

(** The fetch times out. *)
Definition timed_out : DescribeGifs.world :=
  {| DescribeGifs.urlopen := fun _ => DescribeGifs.UrlopenRaises (OtherError "timed out");
     DescribeGifs.Image_open := fun _ => Ret still;
     DescribeGifs.generate_content := fun _ _ => Ret mood_text |}.

(** The fetch is redirected to the removal notice. *)
Definition taken_down : DescribeGifs.world :=
  {| DescribeGifs.urlopen := fun _ =>
       DescribeGifs.Response
         "https://assets.tumblr.com/images/media_violation/community_guidelines_v1_1280.png"
         (Ret []);
     DescribeGifs.Image_open := fun _ => Ret still;
     DescribeGifs.generate_content := fun _ _ => Ret mood_text |}.

(** The fetch succeeds; the service answers as [replies] says. *)
Definition online (replies : list bytes -> Z -> py string) : DescribeGifs.world :=
  {| DescribeGifs.urlopen := fun u => DescribeGifs.Response u (Ret []);
     DescribeGifs.Image_open := fun _ => Ret still;
     DescribeGifs.generate_content := replies |}.

(** An item of a manifest: downloaded, not yet described. *)
Definition clip (id : string) : gmap string json :=
  list_to_map [("id", JStr id);
               ("local_file", JStr ("files/" +:+ id +:+ ".gif"));
               ("original_url", JStr ("https://example.org/" +:+ id));
               ("downloaded", JBool true)].

(** Every local file is there and decodes; the service answers as
    [replies] says. *)
Definition on_disk (replies : list bytes -> Z -> py string)
  : DescribeSources.world :=
  {| DescribeSources.path_exists := fun _ => true;
     DescribeSources.Image_open := fun _ => Ret still;
     DescribeSources.ffprobe := fun _ => Raise (OtherError "ffprobe: not found");
     DescribeSources.ffmpeg := fun _ _ _ _ => Ret None;
     DescribeSources.generate_content := replies |}.

(** A WebM stream as [ffprobe] often reports it: no [duration], no
    [nb_frames]. *)
Definition bare_stream : DescribeSources.video_stream :=
  {| DescribeSources.duration := None;
     DescribeSources.nb_frames := None;
     DescribeSources.r_frame_rate := Some (Ret (30, 1)) |}.

(** [ffprobe] reports [bare_stream]; every run of [ffmpeg] leaves a
    one-byte frame file. *)
Definition webm_on_disk : DescribeSources.world :=
  {| DescribeSources.path_exists := fun _ => true;
     DescribeSources.Image_open := fun _ => Raise (OtherError "cannot identify image file");
     DescribeSources.ffprobe := fun _ =>
       Ret {| DescribeSources.returncode := 0;
              DescribeSources.stderr := "";
              DescribeSources.video := Ret (Some bare_stream) |};
     DescribeSources.ffmpeg := fun _ _ _ _ => Ret (Some [Byte.x00]);
     DescribeSources.generate_content := fun _ _ => Ret mood_text |}.

(** An output file left by an earlier run: one record, for another GIF. *)
Definition earlier_output : list line :=
  [Json (JObj (DescribeGifs.result_record
                 {| DescribeGifs.url := "https://64.media.tumblr.com/dog.gif";
                    DescribeGifs.original_description := "a dog runs" |}
                 mood_dict))].

(** A manifest of four downloaded items, none flagged as described. *)
Definition demo_manifest : DescribeSources.manifest :=
  {| DescribeSources.source := "demo";
     DescribeSources.items := [clip "a"; clip "b"; clip "c"; clip "d"] |}.

(** The record [describe_item] writes for [clip id] when the service
    answers [mood_text]. *)
Definition clip_record (id : string) : gmap string json :=
  mood_dict ∪
  list_to_map [("id", JStr id);
               ("url", JStr ("https://example.org/" +:+ id));
               ("attribution", JStr "");
               ("original_description", JStr "")].

Definition always_mood (frames : list bytes) (attempt : Z) : py string :=
  Ret mood_text.

Definition tab : string := String (Ascii.ascii_of_nat 9) EmptyString.

(** A catalog that lists one GIF under two of the legacy CDN hosts. *)
Definition mirrored_catalog : list string :=
  ["https://38.media.tumblr.com/cat.gif" +:+ tab +:+ "a cat jumps";
   "https://33.media.tumblr.com/cat.gif" +:+ tab +:+ "a cat jumping"].

Definition dog_url : string := "https://64.media.tumblr.com/dog.gif".

Definition dog_gif : DescribeGifs.gif :=
  {| DescribeGifs.url := dog_url;
     DescribeGifs.original_description := "a dog runs" |}.

(** The text [{"url": "https://64.media.tumblr.com/dog.gif"}]: a response
    that carries a ["url"] of its own. *)
Definition url_text : string :=
  "{" +:+ dq +:+ "url" +:+ dq +:+ ": " +:+ dq +:+ dog_url +:+ dq +:+ "}".

Definition url_dict : gmap string json := {["url" := JStr dog_url]}.

(** [json.loads] on [url_text]; every other text used with it is not
    JSON. *)
Definition url_loads (text : string) : option json :=
  if String.eqb text url_text then Some (JObj url_dict) else None.

Definition always_url (frames : list bytes) (attempt : Z) : py string :=
  Ret url_text.

Definition bird_gif : DescribeGifs.gif :=
  {| DescribeGifs.url := "https://64.media.tumblr.com/bird.gif";
     DescribeGifs.original_description := "a bird lands" |}.

(** The service fails the first job submitted and serves the others. *)
Definition first_job_unlucky (i : nat) : DescribeGifs.world :=
  match i with
  | O => online always_sorry
  | S _ => online always_mood
  end.

(** [json.loads] on a few more texts: an empty object, a list, and the
    object of [mood_text]. *)
Definition reply_loads (text : string) : option json :=
  if String.eqb text "{}" then Some (JObj ∅)
  else if String.eqb text "[1]" then Some (JArr [JNum 1])
  else sample_loads text.

Definition always_empty_object (frames : list bytes) (attempt : Z) : py string :=
  Ret "{}".

Definition always_list (frames : list bytes) (attempt : Z) : py string :=
  Ret "[1]".

(** The service answers two requests of a job and fails every later one. *)
Definition two_replies (frames : list bytes) (attempt : Z) : py string :=
  if attempt <=? 1 then Ret "Sorry, I cannot help with that."
  else Raise (OtherError "quota exceeded").

(** A manifest item that lacks ["original_url"]. *)
Definition no_url_clip : gmap string json :=
  list_to_map [("id", JStr "a");
               ("local_file", JStr "files/a.gif");
               ("downloaded", JBool true)].

(** A manifest with a single item, downloaded and not yet described. *)
Definition solo_manifest : DescribeSources.manifest :=
  {| DescribeSources.source := "demo";
     DescribeSources.items := [clip "a"] |}.

(** An image of one frame whose decoder fails on every other frame. *)
Definition still_only : image :=
  {| n_frames := 1;
     frame_png := fun idx _ =>
       if idx =? 0 then Ret [] else Raise (OtherError "no more images") |}.

(** A sources directory: a source, a directory set aside with an
    underscore, and a stray file. *)
Definition sources_listing : list DescribeSourcesMain.dir_entry :=
  [{| DescribeSourcesMain.name := "kidmograph";
      DescribeSourcesMain.is_dir := true;
      DescribeSourcesMain.has_manifest := true |};
   {| DescribeSourcesMain.name := "_drafts";
      DescribeSourcesMain.is_dir := true;
      DescribeSourcesMain.has_manifest := true |};
   {| DescribeSourcesMain.name := "README.md";
      DescribeSourcesMain.is_dir := false;
      DescribeSourcesMain.has_manifest := false |}].

(** A catalog of two GIFs; the first is the one of [earlier_output]. *)
Definition pets_catalog : list string :=
  [dog_url +:+ tab +:+ "a dog runs";
   "https://64.media.tumblr.com/cat.gif" +:+ tab +:+ "a cat jumps"].

(** A manifest item without ["local_file"], and a manifest that holds it
    after a well-formed item. *)
Definition no_file_clip : gmap string json :=
  list_to_map [("id", JStr "b"); ("downloaded", JBool true)].

Definition broken_manifest : DescribeSources.manifest :=
  {| DescribeSources.source := "demo";
     DescribeSources.items := [clip "a"; no_file_clip] |}.

End Samples.

(** * Properties *)

(** ** The built-ins on concrete values *)

Example round_ties_to_even :
  round_div 5 2 = Ret 2 /\ round_div 7 2 = Ret 4 /\ round_div 11 4 = Ret 3 /\
  round_div 33 4 = Ret 8 /\ round_div 1 0 = Raise ZeroDivisionError.
Proof. repeat split; reflexivity. Qed.

Example replace_leftmost_first :
  replace "ab" "X" "aababab" = "aXXX" /\ replace "aa" "b" "aaaaa" = "bba".
Proof. split; reflexivity. Qed.

Example fix_tumblr_url_legacy_host :
  DescribeGifs.fix_tumblr_url "https://38.media.tumblr.com/cat.gif"
    = "https://64.media.tumblr.com/cat.gif" /\
  DescribeGifs.fix_tumblr_url "https://64.media.tumblr.com/cat.gif"
    = "https://64.media.tumblr.com/cat.gif".
Proof. split; reflexivity. Qed.

Example clean_json_text_fenced :
  DescribeGifs._clean_json_text
    ("  ```json" +:+ DescribeGifs.newline +:+ "{}" +:+ DescribeGifs.newline
     +:+ "```  ") = "{}" /\
  DescribeGifs._clean_json_text " {} " = "{}" /\
  DescribeGifs._clean_json_text "```" = "".
Proof. repeat split; reflexivity. Qed.

Example load_gifs_skips_and_limits :
  DescribeGifs.load_gifs
    ("no tab in this line" :: Samples.mirrored_catalog) 1
  = [{| DescribeGifs.url := "https://64.media.tumblr.com/cat.gif";
        DescribeGifs.original_description := "a cat jumps" |}] /\
  length (DescribeGifs.load_gifs Samples.mirrored_catalog 0) = 2%nat.
Proof. split; reflexivity. Qed.

Example slice_to_negative :
  slice_to [1; 2; 3; 4] 3 = [1; 2; 3] /\ slice_to [1; 2; 3; 4] (-1) = [1; 2; 3] /\
  slice_to [1; 2; 3; 4] 9 = [1; 2; 3; 4] /\ slice_to [1; 2; 3; 4] (-9) = [].
Proof. repeat split; reflexivity. Qed.


(** ** Frame sampling *)

(** *** Rounding *)

Lemma round_half_even_pos (a b : Z) :
  0 < b ->
  round_half_even a b =
    if 2 * (a mod b) <? b then a / b
    else if b <? 2 * (a mod b) then a / b + 1
    else if Z.even (a / b) then a / b else a / b + 1.
Proof.
  intros Hb. unfold round_half_even.
  replace (b <? 0) with false by (symmetry; apply Z.ltb_ge; lia).
  rewrite Z.abs_eq by lia. reflexivity.
Qed.

Lemma round_half_even_bounds (a b : Z) :
  0 < b -> a / b <= round_half_even a b <= a / b + 1.
Proof.
  intros Hb. rewrite round_half_even_pos by assumption.
  repeat case_match; lia.
Qed.

Lemma round_half_even_exact (q b : Z) :
  0 < b -> round_half_even (q * b) b = q.
Proof.
  intros Hb. rewrite round_half_even_pos by assumption.
  rewrite Z.mod_mul, Z.div_mul by lia.
  replace (2 * 0 <? b) with true by (symmetry; apply Z.ltb_lt; lia).
  reflexivity.
Qed.

Lemma round_half_even_mono (a a' b : Z) :
  0 < b -> a <= a' -> round_half_even a b <= round_half_even a' b.
Proof.
  intros Hb Hle.
  assert (Hq : a / b <= a' / b) by (apply Z.div_le_mono; lia).
  destruct (Z.eq_dec (a / b) (a' / b)) as [Heq | Hne].
  - assert (Hr : a mod b <= a' mod b).
    { pose proof (Z.div_mod a b ltac:(lia)).
      pose proof (Z.div_mod a' b ltac:(lia)). nia. }
    rewrite !round_half_even_pos by assumption. rewrite <- Heq.
    repeat case_match; lia.
  - pose proof (round_half_even_bounds a b Hb).
    pose proof (round_half_even_bounds a' b Hb). lia.
Qed.

Lemma comprehension_ret {A B} (f : A -> py B) (g : A -> B) (l : list A) :
  (forall x, x ∈ l -> f x = Ret (g x)) ->
  comprehension f l = Ret (map g l).
Proof.
  induction l as [| x l IH]; intros Hf; simpl.
  - reflexivity.
  - rewrite (Hf x) by apply list_elem_of_here. simpl.
    rewrite IH; [reflexivity |].
    intros y Hy. apply Hf. apply list_elem_of_further, Hy.
Qed.

Lemma comprehension_length {A B} (f : A -> py B) (l : list A) (r : list B) :
  comprehension f l = Ret r -> length r = length l.
Proof.
  revert r. induction l as [| x l IH]; intros r; simpl.
  - intros [= <-]. reflexivity.
  - destruct (f x) as [y |]; simpl; [| discriminate].
    destruct (comprehension f l) as [ys |]; simpl; [| discriminate].
    intros [= <-]. simpl. f_equal. apply IH. reflexivity.
Qed.

Lemma nondecreasing_map_seq (g : Z -> Z) (start n : nat) :
  (forall a b, a <= b -> g a <= g b) ->
  nondecreasing (map g (map Z.of_nat (seq start n))).
Proof.
  intros Hg. revert start. induction n as [| n IH]; intros start; simpl.
  - exact I.
  - split; [| apply IH].
    destruct n as [| n]; simpl; [exact I |]. apply Hg. lia.
Qed.

Lemma range_seq (n : Z) : range n = map Z.of_nat (seq 0 (Z.to_nat n)).
Proof.
  unfold range, seqZ. apply list_fmap_ext. intros _ i _. lia.
Qed.

Lemma range_cons (n : Z) : 0 < n -> range n = 0 :: seqZ 1 (n - 1).
Proof.
  intros Hn. unfold range. rewrite seqZ_cons by lia.
  f_equal.
Qed.

Lemma range_last (n : Z) : 0 < n -> last (range n) = Some (n - 1).
Proof.
  intros Hn. unfold range. rewrite last_lookup, length_seqZ.
  rewrite lookup_seqZ. split; lia.
Qed.

Lemma range_identity (n b : Z) :
  0 < b ->
  map (fun i => round_half_even (i * b) b) (range n) = range n.
Proof.
  intros Hb. rewrite <- (map_id (range n)) at 2.
  apply map_ext. intros i. apply round_half_even_exact, Hb.
Qed.

Lemma frame_indices_few (F K : Z) :
  F <= K -> frame_indices F K = Ret (range F).
Proof.
  intros H. unfold frame_indices.
  destruct (Z.leb_spec F K); [reflexivity | lia].
Qed.

Lemma frame_indices_spread (F K : Z) :
  2 <= K -> K <= F -> frame_indices F K = Ret (spread F K).
Proof.
  intros HK HF. unfold frame_indices, spread.
  destruct (Z.leb_spec F K) as [Hle | Hlt].
  - assert (F = K) as -> by lia.
    rewrite range_identity by lia. reflexivity.
  - apply comprehension_ret. intros i _. unfold round_div.
    destruct (Z.eqb_spec (K - 1) 0); [lia | reflexivity].
Qed.

Lemma spread_nondecreasing (F K : Z) :
  2 <= K -> 1 <= F -> nondecreasing (spread F K).
Proof.
  intros HK HF. unfold spread. rewrite range_seq.
  apply nondecreasing_map_seq. intros a b Hab.
  apply round_half_even_mono; nia.
Qed.

Lemma spread_length (F K : Z) : length (spread F K) = Z.to_nat K.
Proof. unfold spread, range. rewrite length_map, length_seqZ. reflexivity. Qed.

Lemma spread_head (F K : Z) : 2 <= K -> head (spread F K) = Some 0.
Proof.
  intros HK. unfold spread. rewrite range_cons by lia. simpl.
  f_equal. apply (round_half_even_exact 0 (K - 1)). lia.
Qed.

Lemma spread_last (F K : Z) : 2 <= K -> last (spread F K) = Some (F - 1).
Proof.
  intros HK. unfold spread.
  change (map ?f ?l) with (f <$> l).
  rewrite fmap_last, range_last by lia. simpl. f_equal.
  rewrite Z.mul_comm. apply round_half_even_exact. lia.
Qed.

(** C2 (as the code has it). For every frame count [F] and target count
    [K >= 1]: when [F <= K] the sampled indices are exactly [0 .. F-1];
    when [F >= K] and [K >= 2] they are
    [round(i*(F-1)/(K-1))] for [i = 0 .. K-1], a non-decreasing sequence of
    length exactly [K] whose first element is [0] and whose last is [F-1];
    and [F = 12], [K = 5] gives [0, 3, 6, 8, 11]. *)
Theorem C2_frame_indices (F K : Z) :
  1 <= K ->
  (F <= K -> frame_indices F K = Ret (range F)) /\
  (K <= F -> 2 <= K ->
     frame_indices F K = Ret (spread F K) /\
     nondecreasing (spread F K) /\
     length (spread F K) = Z.to_nat K /\
     head (spread F K) = Some 0 /\
     last (spread F K) = Some (F - 1)) /\
  frame_indices 12 5 = Ret [0; 3; 6; 8; 11].
Proof.
  intros HK. split; [| split].
  - apply frame_indices_few.
  - intros HF HK2. split; [apply frame_indices_spread; assumption |].
    split; [apply spread_nondecreasing; lia |].
    split; [apply spread_length |].
    split; [apply spread_head | apply spread_last]; assumption.
  - reflexivity.
Qed.

Lemma C2_frame_indices_witness :
  frame_indices 3 5 = Ret [0; 1; 2] /\
  frame_indices 7 5 = Ret (spread 7 5) /\
  spread 7 5 = [0; 2; 3; 4; 6].
Proof.
  destruct (C2_frame_indices 3 5 ltac:(lia)) as [Hfew _].
  destruct (C2_frame_indices 7 5 ltac:(lia)) as [_ [Hmany _]].
  split; [exact (Hfew ltac:(lia)) |].
  split; [exact (proj1 (Hmany ltac:(lia) ltac:(lia))) | reflexivity].
Defined.

(** C2 as stated fails at [K = 1]: with two frames and a target of one the
    comprehension divides by [K - 1 = 0] and no index sequence is produced,
    although the statement asks for one of length 1 from 0 to 1. *)
Lemma C2_counterexample :
  1 <= 1 /\ 1 <= 2 /\
  frame_indices 2 1 = Raise ZeroDivisionError /\
  ~ (exists l, frame_indices 2 1 = Ret l /\ length l = 1%nat /\
               head l = Some 0 /\ last l = Some (2 - 1)).
Proof.
  split; [lia |]. split; [lia |]. split; [reflexivity |].
  intros (l & Hl & _). discriminate Hl.
Qed.

(** ** describe_gifs.py: fetch outcomes *)

Section FetchOutcomes.

Import DescribeGifs.

Variable json_loads : string -> option json.

Lemma download_gif_tombstone (w : world) (u resp_url : string) (read : py bytes) :
  urlopen w u = Response resp_url read ->
  contains VIOLATION_LOCATION resp_url = true ->
  download_gif w u = (None, [Skipping_removed_GIF u]).
Proof. intros Hw Hc. unfold download_gif. rewrite Hw, Hc. reflexivity. Qed.

Lemma download_gif_unreachable (w : world) (u : string) (e : exn) :
  urlopen w u = UrlopenRaises e ->
  download_gif w u = (None, [Download_error e]).
Proof. intros Hw. unfold download_gif. rewrite Hw. reflexivity. Qed.

(** The statements run for a [REMOVED] result touch the removed counter
    and nothing else but the progress line. *)
Lemma critical_section_removed (total : Z) (s : run_state) :
  let s' := run_steps (critical_section total REMOVED) s in
  removed s' = removed s + 1 /\ failed s' = failed s /\
  success s' = success s /\ flushed s' = flushed s /\ buffer s' = buffer s.
Proof.
  simpl. unfold report. destruct (_ || _); simpl; repeat split; reflexivity.
Qed.

(** The removal half of C1, which the code meets: a fetch that lands on
    the removal notice gives [REMOVED], counted as removed only, nothing
    written. *)
Lemma tombstone_is_removed (w : world) (g : gif) (resp_url : string)
    (read : py bytes) (total : Z) (s : run_state) :
  urlopen w (url g) = Response resp_url read ->
  contains VIOLATION_LOCATION resp_url = true ->
  process_gif json_loads w g = (Ret REMOVED, [Skipping_removed_GIF (url g)]) /\
  let s' := run_steps (critical_section total REMOVED) s in
  removed s' = removed s + 1 /\ failed s' = failed s /\
  success s' = success s /\ flushed s' = flushed s /\ buffer s' = buffer s.
Proof.
  intros Hw Hc. split; [| apply critical_section_removed].
  unfold process_gif. rewrite (download_gif_tombstone _ _ _ _ Hw Hc).
  reflexivity.
Qed.

Example tombstone_on_sample :
  process_gif json_loads Samples.taken_down Samples.cat_gif
  = (Ret REMOVED, [Skipping_removed_GIF (url Samples.cat_gif)]).
Proof. reflexivity. Qed.

(** C1, where the code departs from it. A fetch that fails for another
    reason ([urlopen] raises: timeout, HTTP error, transport error) makes
    [download_gif] return [None] as well, and [process_gif] turns every
    [None] into [REMOVED]: the job is counted as removed, the failed
    counter stays as it is. *)
Theorem C1_fetch_error_counted_as_removed (w : world) (g : gif) (e : exn)
    (total : Z) (s : run_state) :
  urlopen w (url g) = UrlopenRaises e ->
  process_gif json_loads w g = (Ret REMOVED, [Download_error e]) /\
  let s' := run_steps (critical_section total REMOVED) s in
  removed s' = removed s + 1 /\ failed s' = failed s /\
  success s' = success s /\ flushed s' = flushed s /\ buffer s' = buffer s.
Proof.
  intros Hw. split; [| apply critical_section_removed].
  unfold process_gif. rewrite (download_gif_unreachable _ _ _ Hw).
  reflexivity.
Qed.

End FetchOutcomes.

(** C1 on a run: one GIF whose fetch times out ends the run with
    [removed = 1] and [failed = 0]. *)
Lemma C1_fetch_error_counted_as_removed_witness :
  DescribeGifs.process_gif Samples.sample_loads Samples.timed_out Samples.cat_gif
    = (Ret DescribeGifs.REMOVED,
       [DescribeGifs.Download_error (OtherError "timed out")]) /\
  let x := DescribeGifs.main_loaded Samples.sample_loads
             (fun _ => Samples.timed_out) (fun jobs => jobs)
             [Samples.cat_gif] false None in
  DescribeGifs.removed (DescribeGifs.last x) = 1 /\
  DescribeGifs.failed (DescribeGifs.last x) = 0 /\
  DescribeGifs.output_file x = Some [].
Proof.
  split.
  - exact (proj1 (C1_fetch_error_counted_as_removed Samples.sample_loads
                    Samples.timed_out Samples.cat_gif (OtherError "timed out")
                    1 (DescribeGifs.opened [] []) eq_refl)).
  - vm_compute. repeat split; reflexivity.
Defined.

(** ** Bounded retry on a response that does not parse *)

Section Retry.

Import DescribeGifs.

Variable json_loads : string -> option json.

Lemma attempts_all_unparsable (w : world) (frames : list bytes)
    (texts : Z -> string) (retries : Z) (n : nat) (attempt : Z) :
  unparsable_from json_loads w frames texts attempt n ->
  attempts json_loads w frames retries n attempt
    = (JNull, parse_failures texts retries n attempt).
Proof.
  revert attempt. induction n as [| n IH]; intros attempt H; simpl.
  - reflexivity.
  - destruct (H attempt ltac:(lia)) as [-> ->].
    rewrite IH; [reflexivity |].
    intros i Hi. apply H. lia.
Qed.

(** A parse failure before the last attempt is followed by another
    request, whose outcome decides. *)
Lemma attempts_retry (w : world) (frames : list bytes) (text : string)
    (retries : Z) (n : nat) (attempt : Z) :
  generate_content w frames attempt = Ret text ->
  json_loads (_clean_json_text text) = None ->
  attempt < retries ->
  attempts json_loads w frames retries (S n) attempt =
    let '(v, later) := attempts json_loads w frames retries n (attempt + 1) in
    (v, JSON_parse_error_retrying :: later).
Proof.
  intros Hg Hp Hlt. simpl. rewrite Hg, Hp.
  destruct (Z.ltb_spec attempt retries); [| lia].
  destruct (attempts _ _ _ _ _ _). reflexivity.
Qed.

Lemma attempts_parsed (w : world) (frames : list bytes) (text : string)
    (v : json) (retries : Z) (n : nat) (attempt : Z) :
  generate_content w frames attempt = Ret text ->
  json_loads (_clean_json_text text) = Some v ->
  attempts json_loads w frames retries (S n) attempt = (v, []).
Proof. intros Hg Hp. simpl. rewrite Hg, Hp. reflexivity. Qed.

Lemma str_prefix_length (n : nat) (s : string) :
  (String.length (str_prefix n s) <= n)%nat.
Proof.
  unfold str_prefix. revert s. induction n as [| n IH]; intros [| c s]; simpl;
    try lia.
  specialize (IH s). lia.
Qed.

(** The record of a job is never an empty dict. *)
Lemma result_record_url_or_overridden (g : gif) (d : gmap string json) :
  is_Some (result_record g d !! "url").
Proof.
  unfold result_record. destruct (d !! "url") as [v |] eqn:Hd.
  - exists v. apply lookup_union_Some_l, Hd.
  - eexists. rewrite lookup_union_r by exact Hd. apply lookup_insert_eq.
Qed.

Lemma result_record_truthy (g : gif) (d : gmap string json) :
  truthy (JObj (result_record g d)) = true.
Proof.
  simpl. apply negb_true_iff, bool_decide_eq_false. intros Heq.
  destruct (result_record_url_or_overridden g d) as [v Hv].
  rewrite Heq, lookup_empty in Hv. discriminate.
Qed.

(** In the TGIF engine with the default of one retry: text that does not
    parse, then a JSON object, is a success after two requests. *)
Lemma tgif_retry_then_success (w : world) (g : gif) (data : bytes)
    (frames : list bytes) (text0 text1 : string) (d : gmap string json) :
  download_gif w (url g) = (Some data, []) ->
  extract_frames w data NUM_FRAMES MAX_FRAME_DIM = Ret frames ->
  generate_content w frames 0 = Ret text0 ->
  json_loads (_clean_json_text text0) = None ->
  generate_content w frames 1 = Ret text1 ->
  json_loads (_clean_json_text text1) = Some (JObj d) ->
  d <> ∅ ->
  process_gif json_loads w g
    = (Ret (Described (result_record g d)), [JSON_parse_error_retrying]).
Proof.
  intros Hd He H0 Hp0 H1 Hp1 Hne.
  unfold process_gif, describe_gif_from_data. rewrite Hd, He.
  change (Z.to_nat (1 + 1)) with 2%nat.
  rewrite (attempts_retry w frames text0 1 1 0 H0 Hp0 ltac:(lia)).
  rewrite (attempts_parsed w frames text1 (JObj d) 1 0 (0 + 1) H1 Hp1).
  simpl. rewrite bool_decide_eq_false_2 by exact Hne. reflexivity.
Qed.

(** In the TGIF engine: when none of the [1 + retries] responses parses,
    the job returns [None] after exactly those requests, having printed
    the give-up line and the first 300 characters of the last response. *)
Lemma tgif_retries_exhausted (w : world) (data : bytes) (frames : list bytes)
    (texts : Z -> string) (retries : Z) :
  0 <= retries ->
  extract_frames w data NUM_FRAMES MAX_FRAME_DIM = Ret frames ->
  unparsable_from json_loads w frames texts 0 (Z.to_nat (1 + retries)) ->
  exists printed,
    describe_gif_from_data json_loads w data retries
      = (JNull, printed ++ [JSON_parse_error_giving_up;
                            Raw_response (str_prefix 300 (texts retries))]) /\
    printed = replicate (Z.to_nat retries) JSON_parse_error_retrying.
Proof.
  intros Hr He Hu. unfold describe_gif_from_data. rewrite He.
  rewrite (attempts_all_unparsable _ _ _ _ _ _ Hu).
  eexists. split; [| reflexivity]. f_equal.
  replace (Z.to_nat (1 + retries)) with (S (Z.to_nat retries)) by lia.
  assert (Hgen : forall n a, a + Z.of_nat n = retries ->
            parse_failures texts retries (S n) a =
            replicate n JSON_parse_error_retrying ++
            [JSON_parse_error_giving_up;
             Raw_response (str_prefix 300 (texts retries))]).
  { induction n as [| n IH]; intros a Ha.
    - simpl. destruct (Z.ltb_spec a retries); [lia |].
      replace a with retries by lia. reflexivity.
    - change (parse_failures texts retries (S (S n)) a) with
        ((if a <? retries then [JSON_parse_error_retrying]
          else [JSON_parse_error_giving_up;
                Raw_response (str_prefix 300 (texts a))])
         ++ parse_failures texts retries (S n) (a + 1)).
      destruct (Z.ltb_spec a retries); [| lia].
      rewrite IH by lia. reflexivity. }
  apply Hgen. lia.
Qed.

End Retry.

Section NoRetry.

Import DescribeSources.

Variable json_loads : string -> option json.

(** The statements run for a job that returned [None]: the failed counter
    moves, the descriptions file and the flags do not. *)
Lemma critical_section_failed (source_name : string) (total : Z) (pos : nat)
    (s : run_state) :
  let s' := run_steps (critical_section source_name total pos None) s in
  failed s' = failed s + 1 /\ success s' = success s /\
  flushed s' = flushed s /\ buffer s' = buffer s /\
  manifest_items s' = manifest_items s.
Proof.
  simpl. unfold report. destruct (_ || _); simpl; repeat split; reflexivity.
Qed.

(** C3, where the code departs from it. In the manifest-driven engine
    [describe_item] makes one request and no more: when the text of that
    response does not parse, the job returns [None] at once, whatever a
    second request would have been answered, prints the parse error without
    any part of the raw response, and is counted as failed with nothing
    written. *)
Theorem C3_manifest_engine_does_not_retry (w : world) (source_dir name : string)
    (item : gmap string json) (id : json) (frames : list bytes)
    (text : string) (source_name : string) (total : Z) (pos : nat)
    (s : run_state) :
  item !! "local_file" = Some (JStr name) ->
  item !! "id" = Some id ->
  path_exists w (source_dir, name) = true ->
  extract_frames w (source_dir, name) (dict_get_or item "format" (JStr "gif"))
    = Ret frames ->
  generate_content w frames 0 = Ret text ->
  json_loads (clean text) = None ->
  describe_item json_loads w source_dir item
    = (Ret None, [JSON_parse_error id]) /\
  let s' := run_steps (critical_section source_name total pos None) s in
  failed s' = failed s + 1 /\ success s' = success s /\
  flushed s' = flushed s /\ buffer s' = buffer s /\
  manifest_items s' = manifest_items s.
Proof.
  intros Hfile Hid Hex Hfr Hg Hp. split; [| apply critical_section_failed].
  unfold describe_item. rewrite Hfile, Hex. simpl. rewrite Hfr, Hg, Hp.
  unfold handler. rewrite Hid. reflexivity.
Qed.

End NoRetry.

(** C3 on one item: the first response does not parse and the second would
    have; the manifest-driven job fails after the first, while the TGIF job
    facing the same responses succeeds. *)
Lemma C3_manifest_engine_does_not_retry_witness :
  Samples.sample_loads
    (DescribeSources.clean
       match Samples.sorry_then_mood [[]] 1 with Ret t => t | Raise _ => "" end)
    = Some (JObj Samples.mood_dict) /\
  DescribeSources.describe_item Samples.sample_loads
    (Samples.on_disk Samples.sorry_then_mood) "sources/demo" (Samples.clip "c1")
    = (Ret None, [DescribeSources.JSON_parse_error (JStr "c1")]) /\
  DescribeGifs.process_gif Samples.sample_loads
    (Samples.online Samples.sorry_then_mood) Samples.cat_gif
    = (Ret (DescribeGifs.Described
              (DescribeGifs.result_record Samples.cat_gif Samples.mood_dict)),
       [DescribeGifs.JSON_parse_error_retrying]).
Proof.
  split; [vm_compute; reflexivity |]. split.
  - exact (proj1 (C3_manifest_engine_does_not_retry Samples.sample_loads
                    (Samples.on_disk Samples.sorry_then_mood)
                    "sources/demo" "files/c1.gif" (Samples.clip "c1")
                    (JStr "c1") [[]] "Sorry, I cannot help with that."
                    "demo" 1 0%nat
                    (DescribeSources.idle
                       {| DescribeSources.source := "demo";
                          DescribeSources.items := [Samples.clip "c1"] |} [])
                    eq_refl eq_refl eq_refl eq_refl eq_refl eq_refl)).
  - vm_compute. reflexivity.
Defined.

(** ** The resume scan *)

Section TgifScan.

Import DescribeGifs.

Variable json_loads : string -> option json.
Variable worlds : nat -> world.
Variable as_completed : list (nat * gif) -> list (nat * gif).

Lemma scan_app_raise (pre rest : list line) (l : line) (e : exn)
    (processed_urls : gset key) :
  Forall (fun l => exists k, line_key "url" l = Ret k) pre ->
  line_key "url" l = Raise e ->
  scan (pre ++ l :: rest) processed_urls = Raise e.
Proof.
  intros Hpre Hl. revert processed_urls.
  induction Hpre as [| l0 pre [k Hk] _ IH]; intros processed_urls; simpl.
  - rewrite Hl. reflexivity.
  - rewrite Hk. simpl. apply IH.
Qed.

(** C4, where the code departs from it. The resume scan of the TGIF engine
    has no handler: the first line of the existing output on which
    [json.loads(line)["url"]] raises (text that is not JSON, a record
    without ["url"]) ends [main] with that exception; nothing is scheduled
    and the file is left as it was. *)
Theorem C4_tgif_scan_aborts_on_malformed_line (gifs : list gif)
    (pre rest : list line) (l : line) (e : exn) :
  Forall (fun l => exists k, line_key "url" l = Ret k) pre ->
  line_key "url" l = Raise e ->
  main_loaded json_loads worlds as_completed gifs true
    (Some (pre ++ l :: rest))
  = {| output_file := Some (pre ++ l :: rest);
       last := opened [] [];
       uncaught := Some e |}.
Proof.
  intros Hpre Hl. unfold main_loaded, load_processed.
  rewrite (scan_app_raise pre rest l e ∅ Hpre Hl). reflexivity.
Qed.

End TgifScan.

(** C4 on a run: an output file whose only line was cut off mid-write, and
    one whose record has no ["url"]. *)
Lemma C4_tgif_scan_aborts_on_malformed_line_witness :
  DescribeGifs.uncaught
    (DescribeGifs.main_loaded Samples.sample_loads
       (fun _ => Samples.online Samples.always_sorry) (fun jobs => jobs)
       [Samples.cat_gif] true (Some [Garbled]))
  = Some JSONDecodeError /\
  DescribeGifs.uncaught
    (DescribeGifs.main_loaded Samples.sample_loads
       (fun _ => Samples.online Samples.always_sorry) (fun jobs => jobs)
       [Samples.cat_gif] true (Some [Json (JObj Samples.mood_dict)]))
  = Some (KeyError "url").
Proof.
  split.
  - exact (f_equal DescribeGifs.uncaught
             (C4_tgif_scan_aborts_on_malformed_line Samples.sample_loads
                (fun _ => Samples.online Samples.always_sorry) (fun jobs => jobs)
                [Samples.cat_gif] [] [] Garbled JSONDecodeError
                (List.Forall_nil _) eq_refl)).
  - exact (f_equal DescribeGifs.uncaught
             (C4_tgif_scan_aborts_on_malformed_line Samples.sample_loads
                (fun _ => Samples.online Samples.always_sorry) (fun jobs => jobs)
                [Samples.cat_gif] [] [] (Json (JObj Samples.mood_dict))
                (KeyError "url") (List.Forall_nil _) eq_refl)).
Defined.

(** ** describe_sources.py: time-based sources *)

Section VideoFallback.

Import DescribeSources.

Lemma resolve_duration_unresolved (vs : video_stream) :
  unresolved vs -> resolve_duration vs = Ret 1%Q.
Proof.
  intros [Hd (nb & num & den & Hnb & Hrate & Hmeta)].
  assert (Hguard : (0 <? nb) && (0 <? num) = false).
  { apply andb_false_iff. rewrite !Z.ltb_ge. exact Hmeta. }
  unfold resolve_duration.
  destruct Hd as [-> | (d & -> & Hd0)]; simpl.
  - rewrite Hnb, Hrate. simpl. rewrite Hguard. reflexivity.
  - assert (Hz : Qeq_bool d 0 = true) by (apply Qeq_bool_iff, Hd0).
    rewrite Hz, Hnb, Hrate. simpl. rewrite Hguard.
    assert (Hle : Qle_bool d 0 = true).
    { apply Qle_bool_iff. rewrite Hd0. apply Qle_refl. }
    rewrite Hle. reflexivity.
Qed.

(** With five frames asked for, a duration of one second gives five
    timestamps, the last clamped to 0.99. *)
Lemma timestamps_of_nominal_second :
  exists timestamps,
    timestamps_of 1 NUM_FRAMES = Ret timestamps /\
    map Qred timestamps = nominal_second /\
    length timestamps = 5%nat.
Proof. eexists. split; [reflexivity |]. split; reflexivity. Qed.

Lemma grab_frames_all (w : world) (file_path : path) (max_dim : Z)
    (timestamps : list Q) (i : Z) :
  (forall j ts, exists frame, ffmpeg w file_path j ts max_dim = Ret (Some frame)) ->
  exists frames,
    grab_frames w file_path max_dim i timestamps = Ret frames /\
    length frames = length timestamps.
Proof.
  intros Hff. revert i.
  induction timestamps as [| ts timestamps IH]; intros i; simpl.
  - exists []. split; reflexivity.
  - destruct (Hff i ts) as [frame ->]. simpl.
    destruct (IH (i + 1)) as (frames & -> & Hlen). simpl.
    exists (frame :: frames). split; [reflexivity |]. simpl. lia.
Qed.

Lemma grab_frames_at_most (w : world) (file_path : path) (max_dim : Z)
    (timestamps : list Q) (i : Z) (frames : list bytes) :
  grab_frames w file_path max_dim i timestamps = Ret frames ->
  (length frames <= length timestamps)%nat.
Proof.
  revert i frames.
  induction timestamps as [| ts timestamps IH]; intros i frames; simpl.
  - intros [= <-]. simpl. lia.
  - destruct (ffmpeg w file_path i ts max_dim) as [out |]; simpl;
      [| discriminate].
    destruct (grab_frames w file_path max_dim (i + 1) timestamps)
      as [frames' |] eqn:Hg; simpl; [| discriminate].
    specialize (IH _ _ Hg).
    intros [= <-]. destruct out; simpl; lia.
Qed.

(** C6, where the code departs from it. When the duration cannot be
    resolved, [extract_frames_mp4] does fall back to a duration of one
    second, but it then goes on as for any other duration: with the default
    of five frames it runs [ffmpeg] at the five timestamps
    0, 0.25, 0.5, 0.75, 0.99 and returns the frame of every run that left a
    file, five frames when all do, not exactly one. *)
Theorem C6_fallback_samples_five_timestamps (w : world) (file_path : path)
    (p : probe) (vs : video_stream) :
  ffprobe w file_path = Ret p ->
  returncode p = 0 ->
  video p = Ret (Some vs) ->
  unresolved vs ->
  (forall j ts, exists frame,
     ffmpeg w file_path j ts MAX_FRAME_DIM = Ret (Some frame)) ->
  resolve_duration vs = Ret 1%Q /\
  (exists timestamps,
     timestamps_of 1 NUM_FRAMES = Ret timestamps /\
     map Qred timestamps = nominal_second) /\
  exists frames,
    extract_frames_mp4 w file_path NUM_FRAMES MAX_FRAME_DIM = Ret frames /\
    length frames = 5%nat.
Proof.
  intros Hprobe Hrc Hvideo Hun Hff.
  pose proof (resolve_duration_unresolved vs Hun) as Hres.
  destruct timestamps_of_nominal_second as (timestamps & Hts & Hred & Hlen).
  split; [exact Hres |]. split; [exists timestamps; split; assumption |].
  destruct (grab_frames_all w file_path MAX_FRAME_DIM timestamps 0 Hff)
    as (frames & Hgrab & Hframes).
  exists frames. split; [| lia].
  unfold extract_frames_mp4. rewrite Hprobe. cbn [bind]. rewrite Hrc.
  change (negb (0 =? 0)) with false. cbn iota.
  rewrite Hvideo. cbn [bind]. rewrite Hres. cbn [bind].
  rewrite Hts. cbn [bind]. rewrite Hgrab. cbn [bind].
  destruct frames; [simpl in Hframes; lia | reflexivity].
Qed.

End VideoFallback.

(** C6 on a file: a stream without [duration] and [nb_frames] yields the
    five frames of the five runs. *)
Lemma C6_fallback_samples_five_timestamps_witness :
  DescribeSources.extract_frames_mp4 Samples.webm_on_disk ("sources/demo", "files/c1.webm")
    NUM_FRAMES MAX_FRAME_DIM
  = Ret (replicate 5 [Byte.x00]).
Proof.
  destruct (C6_fallback_samples_five_timestamps Samples.webm_on_disk
              ("sources/demo", "files/c1.webm")
              {| DescribeSources.returncode := 0;
                 DescribeSources.stderr := "";
                 DescribeSources.video := Ret (Some Samples.bare_stream) |}
              Samples.bare_stream eq_refl eq_refl eq_refl)
    as (_ & _ & frames & Hframes & _).
  - split; [left; reflexivity |].
    exists 0, 30, 1. split; [reflexivity |]. split; [reflexivity | lia].
  - intros j ts. exists [Byte.x00]. reflexivity.
  - reflexivity.
Defined.

(** ** Write before count *)

Lemma states_app {S : Type} (a b : list (S -> S)) (s : S) :
  states (a ++ b) s = states a s ++ tail (states b (fold_left (fun s f => f s) a s)).
Proof.
  revert s. induction a as [| f a IH]; intros s; simpl.
  - destruct b; reflexivity.
  - rewrite IH. reflexivity.
Qed.

Lemma states_last {S : Type} (steps : list (S -> S)) (s : S) :
  last (states steps s) = Some (fold_left (fun s f => f s) steps s).
Proof.
  revert s. induction steps as [| f steps IH]; intros s; simpl.
  - reflexivity.
  - specialize (IH (f s)). destruct (states steps (f s)) eqn:E.
    + destruct steps; discriminate E.
    + exact IH.
Qed.

Section TgifWriteBeforeCount.

Import DescribeGifs.

Lemma tgif_reports_mono (n0 : nat) (f f' : list line) (out : list out_line) :
  (length f <= length f')%nat ->
  Forall (fun l => forall ok, tgif_reported l = Some ok ->
            ok <= Z.of_nat (length f) - Z.of_nat n0) out ->
  Forall (fun l => forall ok, tgif_reported l = Some ok ->
            ok <= Z.of_nat (length f') - Z.of_nat n0) out.
Proof.
  intros Hlen Hf. eapply Forall_impl; [exact Hf |].
  intros l H ok Hok. specialize (H ok Hok). lia.
Qed.

Lemma tgif_report_settled (n0 : nat) (total : Z) (s : run_state) :
  tgif_settled n0 s -> tgif_settled n0 (report total s).
Proof.
  intros (Hb & Hs & Hle & Hout). unfold report.
  destruct (_ || _); [| repeat split; assumption].
  repeat split; simpl; try assumption.
  apply Forall_app. split; [assumption |].
  constructor; [| constructor]. intros ok [= <-]. lia.
Qed.

Lemma tgif_block (n0 : nat) (total : Z) (result : job_result) (s : run_state) :
  tgif_settled n0 s ->
  Forall (tgif_never_overcounts n0) (states (critical_section total result) s) /\
  tgif_settled n0 (run_steps (critical_section total result) s).
Proof.
  intros Hset. pose proof Hset as (Hb & Hs & Hle & Hout).
  assert (Hfail : tgif_settled n0 (inc_failed s))
    by (repeat split; assumption).
  unfold critical_section.
  destruct result as [record | |]; [destruct (truthy (JObj record)) |..];
    cbn [app states run_steps fold_left].
  - set (s3 := inc_success (out_flush (out_write record s))).
    assert (H3 : tgif_settled n0 s3).
    { subst s3. repeat split; simpl.
      - rewrite Hb, length_app. simpl. lia.
      - rewrite Hb, length_app. simpl. lia.
      - eapply tgif_reports_mono; [| exact Hout]. rewrite length_app. lia. }
    split; [| apply tgif_report_settled, H3].
    repeat constructor; simpl; try assumption; try lia;
      try (rewrite Hb, length_app; simpl; lia);
      try (eapply tgif_reports_mono; [| exact Hout]; rewrite length_app; lia);
      try apply H3; apply (tgif_report_settled n0 total s3 H3).
  - split; [| apply tgif_report_settled, Hfail].
    repeat constructor; simpl; try assumption; try lia;
      apply (tgif_report_settled n0 total _ Hfail).
  - assert (Hrem : tgif_settled n0 (inc_removed s))
      by (repeat split; assumption).
    split; [| apply tgif_report_settled, Hrem].
    repeat constructor; simpl; try assumption; try lia;
      apply (tgif_report_settled n0 total _ Hrem).
  - split; [| apply tgif_report_settled, Hfail].
    repeat constructor; simpl; try assumption; try lia;
      apply (tgif_report_settled n0 total _ Hfail).
Qed.

Lemma tgif_loop_states (n0 : nat) (total : Z) (results : list (py job_result))
    (s : run_state) :
  tgif_settled n0 s ->
  Forall (tgif_never_overcounts n0) (states (completion_loop total results).1 s) /\
  tgif_settled n0 (run_steps (completion_loop total results).1 s).
Proof.
  revert s. induction results as [| [result | e] results IH]; intros s Hset.
  - simpl. split; [repeat constructor; apply Hset | exact Hset].
  - simpl. destruct (completion_loop total results) as [steps e] eqn:Hloop.
    simpl in *. destruct (tgif_block n0 total result s Hset) as [Hblock Hnext].
    destruct (IH _ Hnext) as [Hrest Hend].
    unfold run_steps in *. rewrite states_app, fold_left_app.
    split; [| exact Hend].
    apply Forall_app. split; [exact Hblock |].
    destruct (states steps _); [constructor |].
    simpl. exact (Forall_inv_tail Hrest).
  - simpl. split; [repeat constructor; apply Hset | exact Hset].
Qed.

End TgifWriteBeforeCount.

Section SourcesWriteBeforeCount.

Import DescribeSources.

Lemma sources_reports_mono (n0 : nat) (f f' : list line) (out : list out_line) :
  (length f <= length f')%nat ->
  Forall (fun l => forall ok, sources_reported l = Some ok ->
            ok <= Z.of_nat (length f) - Z.of_nat n0) out ->
  Forall (fun l => forall ok, sources_reported l = Some ok ->
            ok <= Z.of_nat (length f') - Z.of_nat n0) out.
Proof.
  intros Hlen Hf. eapply Forall_impl; [exact Hf |].
  intros l H ok Hok. specialize (H ok Hok). lia.
Qed.

Lemma sources_report_settled (n0 : nat) (name : string) (total : Z)
    (s : run_state) :
  sources_settled n0 s -> sources_settled n0 (report name total s).
Proof.
  intros (Hb & Hs & Hle & Hout). unfold report.
  destruct (_ || _); [| repeat split; assumption].
  repeat split; simpl; try assumption.
  apply Forall_app. split; [assumption |].
  constructor; [| constructor]. intros ok [= <-]. lia.
Qed.

Lemma sources_block (n0 : nat) (name : string) (total : Z) (pos : nat)
    (result : option (gmap string json)) (s : run_state) :
  sources_settled n0 s ->
  Forall (sources_never_overcounts n0)
         (states (critical_section name total pos result) s) /\
  sources_settled n0 (run_steps (critical_section name total pos result) s).
Proof.
  intros Hset. pose proof Hset as (Hb & Hs & Hle & Hout).
  assert (Hfail : sources_settled n0 (inc_failed s))
    by (repeat split; assumption).
  unfold critical_section.
  destruct result as [record |]; [destruct (truthy (JObj record)) |];
    cbn [app states run_steps fold_left].
  - set (s4 := inc_success (set_described pos (out_flush (out_write record s)))).
    assert (H4 : sources_settled n0 s4).
    { subst s4. repeat split; simpl.
      - rewrite Hb, length_app. simpl. lia.
      - rewrite Hb, length_app. simpl. lia.
      - eapply sources_reports_mono; [| exact Hout]. rewrite length_app. lia. }
    split; [| apply sources_report_settled, H4].
    repeat constructor; simpl; try assumption; try lia;
      try (rewrite Hb, length_app; simpl; lia);
      try (eapply sources_reports_mono; [| exact Hout]; rewrite length_app; lia);
      try apply H4; apply (sources_report_settled n0 name total s4 H4).
  - split; [| apply sources_report_settled, Hfail].
    repeat constructor; simpl; try assumption; try lia;
      apply (sources_report_settled n0 name total _ Hfail).
  - split; [| apply sources_report_settled, Hfail].
    repeat constructor; simpl; try assumption; try lia;
      apply (sources_report_settled n0 name total _ Hfail).
Qed.

Lemma sources_loop_states (n0 : nat) (name : string) (total : Z)
    (results : list (nat * py (option (gmap string json)))) (s : run_state) :
  sources_settled n0 s ->
  Forall (sources_never_overcounts n0)
         (states (completion_loop name total results).1 s) /\
  sources_settled n0 (run_steps (completion_loop name total results).1 s).
Proof.
  revert s.
  induction results as [| [pos [result | e]] results IH]; intros s Hset.
  - simpl. split; [repeat constructor; apply Hset | exact Hset].
  - simpl. destruct (completion_loop name total results) as [steps e] eqn:Hloop.
    simpl in *.
    destruct (sources_block n0 name total pos result s Hset) as [Hblock Hnext].
    destruct (IH _ Hnext) as [Hrest Hend].
    unfold run_steps in *. rewrite states_app, fold_left_app.
    split; [| exact Hend].
    apply Forall_app. split; [exact Hblock |].
    destruct (states steps _); [constructor |].
    simpl. exact (Forall_inv_tail Hrest).
  - simpl. split; [repeat constructor; apply Hset | exact Hset].
Qed.

End SourcesWriteBeforeCount.

Lemma tgif_opened_settled (content : list line)
    (printed : list DescribeGifs.out_line) :
  Forall (fun l => tgif_reported l = None) printed ->
  tgif_settled (length content) (DescribeGifs.opened content printed).
Proof.
  intros Hp. repeat split; simpl; try lia.
  eapply Forall_impl; [exact Hp |]. intros l -> ok [=].
Qed.

Lemma sources_opened_settled (content : list line)
    (its : list (gmap string json)) (printed : list DescribeSources.out_line) :
  Forall (fun l => sources_reported l = None) printed ->
  sources_settled (length content)
    {| DescribeSources.flushed := content; DescribeSources.buffer := [];
       DescribeSources.success := 0; DescribeSources.failed := 0;
       DescribeSources.manifest_items := its;
       DescribeSources.stdout := printed |}.
Proof.
  intros Hp. repeat split; simpl; try lia.
  eapply Forall_impl; [exact Hp |]. intros l -> ok [=].
Qed.

(** The final summary of the TGIF engine: when [main] ends, the success
    count it holds and every count it printed are covered by the records
    in the output file. *)
Lemma tgif_summary_covered (json_loads : string -> option json)
    (worlds : nat -> DescribeGifs.world)
    (as_completed : list (nat * DescribeGifs.gif) -> list (nat * DescribeGifs.gif))
    (gifs : list DescribeGifs.gif) (resume : bool) (output : option (list line)) :
  let x := DescribeGifs.main_loaded json_loads worlds as_completed gifs
             resume output in
  forall f, DescribeGifs.output_file x = Some f ->
    DescribeGifs.success (DescribeGifs.last x)
      <= Z.of_nat (length f)
         - Z.of_nat (length (DescribeGifs.open_output resume output)) /\
    Forall (fun l => forall ok, tgif_reported l = Some ok ->
              ok <= Z.of_nat (length f)
                    - Z.of_nat (length (DescribeGifs.open_output resume output)))
           (DescribeGifs.stdout (DescribeGifs.last x)).
Proof.
  intros x f. subst x. unfold DescribeGifs.main_loaded.
  assert (Hsmall : forall o : option (list line), o = Some f ->
            0 <= Z.of_nat (length f)
                 - Z.of_nat (length (DescribeGifs.open_output resume o))).
  { intros o ->. unfold DescribeGifs.open_output.
    destruct resume; simpl; lia. }
  destruct (DescribeGifs.load_processed resume output) as [processed | e].
  2:{ simpl. intros Hf. split; [apply Hsmall, Hf | constructor]. }
  set (printed := _ ++ [DescribeGifs.To_process _]).
  assert (Hprinted : Forall (fun l => tgif_reported l = None) printed).
  { subst printed. apply Forall_app. split.
    - destruct resume, output; repeat constructor.
    - repeat constructor. }
  destruct (DescribeGifs.filter_processed gifs processed) as [| g to_process].
  { simpl. intros Hf. split; [apply Hsmall, Hf |].
    apply Forall_app. split.
    - eapply Forall_impl; [exact Hprinted |]. intros l -> ok [=].
    - repeat constructor. intros ok [=]. }
  set (results := map _ _).
  set (total := Z.of_nat (length (g :: to_process))).
  pose proof (tgif_loop_states _ total results _
                (tgif_opened_settled (DescribeGifs.open_output resume output)
                   printed Hprinted)) as [_ Hend].
  destruct (DescribeGifs.completion_loop total results) as [steps e].
  simpl in Hend. destruct Hend as (Hb & Hs & Hle & Hout).
  cbn beta iota. cbn [DescribeGifs.output_file DescribeGifs.last].
  intros Hf. injection Hf as <-.
  cbn [DescribeGifs.flushed DescribeGifs.out_flush].
  rewrite Hb, app_nil_r.
  destruct e; simpl; rewrite ?Hb, ?app_nil_r.
  - split; assumption.
  - split; [assumption |]. apply Forall_app. split; [assumption |].
    repeat constructor. intros ok [= <-]. lia.
Qed.

(** The same when [process_source] ends with the file opened: the count it
    returns and every count it printed are covered by the records in the
    descriptions file. *)
Lemma sources_summary_covered (json_loads : string -> option json)
    (worlds : nat -> DescribeSources.world)
    (as_completed : list DescribeSources.item_ref -> list DescribeSources.item_ref)
    (source_dir : string) (m : DescribeSources.manifest) (workers limit : Z)
    (force : bool) (descriptions : option (list line)) :
  let x := DescribeSources.process_source json_loads worlds as_completed
             source_dir m workers limit force descriptions in
  forall mode f,
    DescribeSources.opened_in x = Some mode ->
    DescribeSources.descriptions_file x = Some f ->
    let n0 := length (DescribeSources.open_output mode descriptions) in
    DescribeSources.success (DescribeSources.last x)
      <= Z.of_nat (length f) - Z.of_nat n0 /\
    (forall n, DescribeSources.returned x = Ret n ->
               n <= Z.of_nat (length f) - Z.of_nat n0) /\
    Forall (fun l => forall ok, sources_reported l = Some ok ->
              ok <= Z.of_nat (length f) - Z.of_nat n0)
           (DescribeSources.stdout (DescribeSources.last x)).
Proof.
  intros x mode f. subst x. unfold DescribeSources.process_source.
  destruct (DescribeSources.limited m limit force) as [| r0 limited];
    [discriminate |].
  destruct (DescribeSources.resume_filter _ force descriptions)
    as [[existing_ids [| r to_process]] | e]; [discriminate | | discriminate].
  set (total := Z.of_nat (length (r :: to_process))).
  set (results := map _ _).
  set (mode' := DescribeSources.choose_mode existing_ids force).
  pose proof (sources_loop_states _ (DescribeSources.source m) total results _
                (sources_opened_settled
                   (DescribeSources.open_output mode' descriptions)
                   (DescribeSources.items m)
                   [DescribeSources.To_describe total workers]
                   ltac:(repeat constructor))) as [_ Hend].
  destruct (DescribeSources.completion_loop (DescribeSources.source m) total
              results) as [steps e].
  simpl in Hend. destruct Hend as (Hb & Hs & Hle & Hout).
  cbn beta iota.
  cbn [DescribeSources.descriptions_file DescribeSources.last
       DescribeSources.opened_in DescribeSources.returned].
  intros Hmode Hf. injection Hmode as <-. injection Hf as <-.
  cbn [DescribeSources.flushed DescribeSources.out_flush
       DescribeSources.success DescribeSources.stdout].
  rewrite Hb, app_nil_r. split; [assumption |]. split; [| assumption].
  intros n. destruct e; [discriminate |]. intros [= <-]. assumption.
Qed.

(** C7. In both engines the record of a success is written and flushed
    before the success counter moves: in every state the completion loop
    goes through, whatever the results and their order, the counter and
    every success count printed so far are at most the number of records
    flushed since the file was opened; and when the run ends, the count of
    the final summary (the returned count, for [process_source]) is at most
    the number of records the file has gained. *)
Theorem C7_success_never_overcounts :
  (forall (total : Z) (results : list (py DescribeGifs.job_result))
          (content : list line) (printed : list DescribeGifs.out_line),
     Forall (fun l => tgif_reported l = None) printed ->
     Forall (tgif_never_overcounts (length content))
            (states (DescribeGifs.completion_loop total results).1
                    (DescribeGifs.opened content printed))) /\
  (forall json_loads worlds as_completed gifs resume output f,
     let x := DescribeGifs.main_loaded json_loads worlds as_completed gifs
                resume output in
     DescribeGifs.output_file x = Some f ->
     let gained := Z.of_nat (length f)
                   - Z.of_nat (length (DescribeGifs.open_output resume output)) in
     DescribeGifs.success (DescribeGifs.last x) <= gained /\
     Forall (fun l => forall ok, tgif_reported l = Some ok -> ok <= gained)
            (DescribeGifs.stdout (DescribeGifs.last x))) /\
  (forall (name : string) (total : Z)
          (results : list (nat * py (option (gmap string json))))
          (content : list line) (its : list (gmap string json))
          (printed : list DescribeSources.out_line),
     Forall (fun l => sources_reported l = None) printed ->
     Forall (sources_never_overcounts (length content))
            (states (DescribeSources.completion_loop name total results).1
                    {| DescribeSources.flushed := content;
                       DescribeSources.buffer := [];
                       DescribeSources.success := 0;
                       DescribeSources.failed := 0;
                       DescribeSources.manifest_items := its;
                       DescribeSources.stdout := printed |})) /\
  (forall json_loads worlds as_completed source_dir m workers limit force
          descriptions mode f,
     let x := DescribeSources.process_source json_loads worlds as_completed
                source_dir m workers limit force descriptions in
     DescribeSources.opened_in x = Some mode ->
     DescribeSources.descriptions_file x = Some f ->
     let gained := Z.of_nat (length f)
                   - Z.of_nat (length (DescribeSources.open_output mode
                                         descriptions)) in
     DescribeSources.success (DescribeSources.last x) <= gained /\
     (forall n, DescribeSources.returned x = Ret n -> n <= gained) /\
     Forall (fun l => forall ok, sources_reported l = Some ok -> ok <= gained)
            (DescribeSources.stdout (DescribeSources.last x))).
Proof.
  split; [| split; [| split]].
  - intros total results content printed Hp.
    apply tgif_loop_states, tgif_opened_settled, Hp.
  - intros. apply tgif_summary_covered. assumption.
  - intros name total results content its printed Hp.
    apply sources_loop_states, sources_opened_settled, Hp.
  - intros. apply sources_summary_covered; assumption.
Qed.

(** C7 on a resumed run of the TGIF engine that adds one record to a file
    of one: the summary counts one success, the file has gained one line. *)
Lemma C7_success_never_overcounts_witness :
  let x := DescribeGifs.main_loaded Samples.sample_loads
             (fun _ => Samples.online Samples.sorry_then_mood) (fun jobs => jobs)
             [Samples.cat_gif] true (Some Samples.earlier_output) in
  exists f,
    DescribeGifs.output_file x = Some f /\
    length f = 2%nat /\
    DescribeGifs.success (DescribeGifs.last x) = 1 /\
    DescribeGifs.success (DescribeGifs.last x)
      <= Z.of_nat (length f) - Z.of_nat (length Samples.earlier_output).
Proof.
  intros x. eexists. split; [vm_compute; reflexivity |].
  split; [reflexivity |]. split; [vm_compute; reflexivity |].
  refine (proj1 (proj1 (proj2 C7_success_never_overcounts)
                   Samples.sample_loads
                   (fun _ => Samples.online Samples.sorry_then_mood)
                   (fun jobs => jobs) [Samples.cat_gif] true
                   (Some Samples.earlier_output) _ _)).
  vm_compute. reflexivity.
Defined.

(** ** What the completion loops write *)

Lemma tgif_loop_written (total : Z) (results : list (py DescribeGifs.job_result))
    (s : DescribeGifs.run_state) :
  DescribeGifs.buffer s = [] ->
  let s' := DescribeGifs.run_steps (DescribeGifs.completion_loop total results).1 s in
  DescribeGifs.buffer s' = [] /\
  DescribeGifs.flushed s' = DescribeGifs.flushed s ++ tgif_written results.
Proof.
  revert s. induction results as [| [result | e] results IH]; intros s Hb;
    cbn zeta.
  - simpl. rewrite app_nil_r. split; [assumption | reflexivity].
  - simpl. destruct (DescribeGifs.completion_loop total results)
      as [steps e] eqn:Hloop.
    cbn [fst]. unfold DescribeGifs.run_steps. rewrite fold_left_app.
    fold (DescribeGifs.run_steps (DescribeGifs.critical_section total result) s).
    set (s1 := DescribeGifs.run_steps _ s).
    assert (H1 : DescribeGifs.buffer s1 = [] /\
                 DescribeGifs.flushed s1 = DescribeGifs.flushed s ++
                   match result with
                   | DescribeGifs.Described record =>
                       if truthy (JObj record) then [Json (JObj record)] else []
                   | _ => []
                   end).
    { subst s1. unfold DescribeGifs.critical_section, DescribeGifs.report.
      destruct result as [record | |];
        [destruct (truthy (JObj record)) |..];
        cbn [app DescribeGifs.run_steps fold_left];
        destruct (_ || _); simpl; rewrite ?Hb, ?app_nil_r; split; reflexivity. }
    destruct H1 as [Hb1 Hf1].
    specialize (IH s1 Hb1). cbn zeta in IH.
    cbn [fst] in IH. unfold DescribeGifs.run_steps in IH.
    destruct IH as [IHb IHf]. split; [exact IHb |].
    rewrite IHf, Hf1.
    destruct result; rewrite <- ?app_assoc; reflexivity.
  - simpl. rewrite app_nil_r. split; [assumption | reflexivity].
Qed.

Lemma sources_loop_written (name : string) (total : Z)
    (results : list (nat * py (option (gmap string json))))
    (s : DescribeSources.run_state) :
  DescribeSources.buffer s = [] ->
  let s' := DescribeSources.run_steps
              (DescribeSources.completion_loop name total results).1 s in
  DescribeSources.buffer s' = [] /\
  DescribeSources.flushed s' = DescribeSources.flushed s ++ sources_written results.
Proof.
  revert s. induction results as [| [pos [result | e]] results IH]; intros s Hb;
    cbn zeta.
  - simpl. rewrite app_nil_r. split; [assumption | reflexivity].
  - simpl. destruct (DescribeSources.completion_loop name total results)
      as [steps e] eqn:Hloop.
    cbn [fst]. unfold DescribeSources.run_steps. rewrite fold_left_app.
    fold (DescribeSources.run_steps
            (DescribeSources.critical_section name total pos result) s).
    set (s1 := DescribeSources.run_steps _ s).
    assert (H1 : DescribeSources.buffer s1 = [] /\
                 DescribeSources.flushed s1 = DescribeSources.flushed s ++
                   match result with
                   | Some record =>
                       if truthy (JObj record) then [Json (JObj record)] else []
                   | None => []
                   end).
    { subst s1. unfold DescribeSources.critical_section, DescribeSources.report.
      destruct result as [record |];
        [destruct (truthy (JObj record)) |];
        cbn [app DescribeSources.run_steps fold_left];
        destruct (_ || _); simpl; rewrite ?Hb, ?app_nil_r; split; reflexivity. }
    destruct H1 as [Hb1 Hf1].
    specialize (IH s1 Hb1). cbn zeta in IH.
    cbn [fst] in IH. unfold DescribeSources.run_steps in IH.
    destruct IH as [IHb IHf]. split; [exact IHb |].
    rewrite IHf, Hf1.
    destruct result; rewrite <- ?app_assoc; reflexivity.
  - simpl. rewrite app_nil_r. split; [assumption | reflexivity].
Qed.

(** ** describe_sources.py: resume, output mode and limit *)

Section SourcesResume.

Import DescribeSources.

(** The scan keeps what it had and adds the id of every line that has one;
    it ends in [TypeError] or not at all differently. *)
Lemma sources_scan_spec (lines : list line) (acc ids : gset key) :
  scan lines acc = Ret ids ->
  forall k, k ∈ ids <-> k ∈ acc \/ exists l, l ∈ lines /\ line_key "id" l = Ret k.
Proof.
  revert acc. induction lines as [| l lines IH]; intros acc; simpl.
  - intros [= <-] k. split; [auto |].
    intros [H | (l & Hl & _)]; [exact H | inversion Hl].
  - destruct (line_key "id" l) as [k0 | e] eqn:Hk.
    + intros Hs k. rewrite (IH _ Hs k). rewrite elem_of_union, elem_of_singleton.
      split.
      * intros [[-> | H] | (l' & Hl' & Hk')]; [| auto |].
        -- right. exists l. split; [apply list_elem_of_here | exact Hk].
        -- right. exists l'. split; [apply list_elem_of_further, Hl' | exact Hk'].
      * intros [H | (l' & Hl' & Hk')]; [auto |].
        apply elem_of_cons in Hl' as [-> | Hl'].
        -- rewrite Hk in Hk'. injection Hk' as ->. auto.
        -- right. exists l'. split; assumption.
    + assert (Hskip : scan lines acc = Ret ids ->
                forall k, k ∈ ids <->
                  k ∈ acc \/ exists l0, l0 ∈ l :: lines /\ line_key "id" l0 = Ret k).
      { intros Hs k. rewrite (IH _ Hs k). split.
        - intros [H | (l' & Hl' & Hk')]; [auto |].
          right. exists l'. split; [apply list_elem_of_further, Hl' | exact Hk'].
        - intros [H | (l' & Hl' & Hk')]; [auto |].
          apply elem_of_cons in Hl' as [-> | Hl'].
          + rewrite Hk in Hk'. discriminate.
          + right. exists l'. split; assumption. }
      destruct e; try discriminate; exact Hskip.
Qed.

Lemma line_key_cases (field : string) (l : line) :
  (exists k, line_key field l = Ret k) \/
  line_key field l = Raise JSONDecodeError \/
  line_key field l = Raise (KeyError field) \/
  line_key field l = Raise TypeError.
Proof.
  unfold line_key. destruct l as [| v]; simpl; [auto |].
  destruct v as [| b | z | s | a | m]; simpl; auto.
  destruct (m !! field) as [x |]; simpl; [| auto].
  destruct x; simpl; eauto.
Qed.

(** Lines that are not JSON and records without ["id"] never stop the
    scan: it runs to the end whenever no line raises [TypeError]. *)
Lemma sources_scan_total (lines : list line) (acc : gset key) :
  Forall (fun l => line_key "id" l <> Raise TypeError) lines ->
  exists ids, scan lines acc = Ret ids.
Proof.
  intros H. revert acc.
  induction H as [| l lines Hl _ IH]; intros acc; simpl.
  - eexists. reflexivity.
  - destruct (line_key_cases "id" l) as [[k ->] | [-> | [-> | Ht]]];
      [apply IH | apply IH | apply IH | contradiction].
Qed.

(** A line that is JSON but not a record (a list, a string, a number) or
    whose id is a list or a dict raises [TypeError], which the scan does
    not handle. *)
Lemma sources_scan_type_error (pre rest : list line) (l : line) (acc : gset key) :
  Forall (fun l => line_key "id" l <> Raise TypeError) pre ->
  line_key "id" l = Raise TypeError ->
  scan (pre ++ l :: rest) acc = Raise TypeError.
Proof.
  intros Hpre Hl. revert acc.
  induction Hpre as [| l0 pre Hl0 _ IH]; intros acc; simpl.
  - rewrite Hl. reflexivity.
  - destruct (line_key_cases "id" l0) as [[k ->] | [-> | [-> | Ht]]];
      [apply IH | apply IH | apply IH | contradiction].
Qed.

Lemma filter_existing_spec (to_process kept : list item_ref) (ids : gset key) :
  filter_existing to_process ids = Ret kept ->
  kept = filter (fun r => known ids r = false) to_process.
Proof.
  revert kept.
  induction to_process as [| r to_process IH]; intros kept;
    cbn [filter_existing].
  - intros [= <-]. reflexivity.
  - destruct (subscript (JObj r.2) "id") as [id |] eqn:Hid; [| discriminate].
    cbn [bind]. destruct (hash_key id) as [k |] eqn:Hk; [| discriminate].
    cbn [bind].
    destruct (filter_existing to_process ids) as [kept' |]; [| discriminate].
    cbn [bind]. intros [= <-]. rewrite (IH kept' eq_refl), filter_cons.
    assert (Hknown : known ids r = bool_decide (k ∈ ids)).
    { unfold known, item_key. rewrite Hid. cbn [bind]. rewrite Hk. reflexivity. }
    rewrite Hknown. destruct (bool_decide (k ∈ ids)).
    + rewrite decide_False by discriminate. reflexivity.
    + rewrite decide_True by reflexivity. reflexivity.
Qed.

End SourcesResume.

Section SourcesOpen.

Import DescribeSources.

Variable json_loads : string -> option json.
Variable worlds : nat -> world.
Variable as_completed : list item_ref -> list item_ref.
Variable source_dir : string.

(** When [process_source] opens the descriptions file, it has selected a
    non-empty [to_process], the mode comes from the ids found, and the file
    ends as its content after opening followed by the lines of this run. *)
Lemma process_source_opened (m : manifest) (workers limit : Z) (force : bool)
    (descriptions : option (list line)) (mode : output_mode) :
  opened_in (process_source json_loads worlds as_completed source_dir
               m workers limit force descriptions) = Some mode ->
  exists existing_ids to_process,
    to_process <> [] /\
    resume_filter (limited m limit force) force descriptions
      = Ret (existing_ids, to_process) /\
    mode = choose_mode existing_ids force /\
    descriptions_file (process_source json_loads worlds as_completed source_dir
                         m workers limit force descriptions)
      = Some (open_output mode descriptions ++
              sources_written (sources_results json_loads worlds as_completed
                                 source_dir to_process)).
Proof.
  unfold process_source.
  destruct (limited m limit force) as [| r0 lim] eqn:Hlim; [discriminate |].
  destruct (resume_filter (r0 :: lim) force descriptions)
    as [[existing_ids [| r to_process]] | e]; [discriminate | | discriminate].
  set (results := map _ _).
  pose proof (sources_loop_written (source m) (Z.of_nat (length (r :: to_process)))
                results
                {| flushed := open_output (choose_mode existing_ids force) descriptions;
                   buffer := []; success := 0; failed := 0;
                   manifest_items := items m;
                   stdout := [To_describe (Z.of_nat (length (r :: to_process)))
                                workers] |} eq_refl) as Hw.
  cbn zeta in Hw.
  destruct (completion_loop (source m) (Z.of_nat (length (r :: to_process)))
              results) as [steps e].
  cbn [fst] in Hw. destruct Hw as [Hb Hf].
  cbn beta iota. cbn [opened_in descriptions_file].
  intros [= <-]. exists existing_ids, (r :: to_process).
  split; [discriminate |]. split; [reflexivity |]. split; [reflexivity |].
  cbn [flushed out_flush]. rewrite Hb, app_nil_r, Hf. reflexivity.
Qed.

Lemma resume_filter_ids (to_process kept : list item_ref) (force : bool)
    (descriptions : option (list line)) (existing_ids : gset key) :
  resume_filter to_process force descriptions = Ret (existing_ids, kept) ->
  forall k, k ∈ existing_ids <->
    force = false /\
    exists lines l, descriptions = Some lines /\ l ∈ lines /\
                    line_key "id" l = Ret k.
Proof.
  unfold resume_filter.
  destruct descriptions as [lines |], force;
    try (intros [= <- _] k; split;
         [intros H; exfalso; exact (not_elem_of_empty k H)
         | intros [Hf (lines' & l & Hd & _)]; discriminate]).
  destruct (scan lines ∅) as [ids |] eqn:Hscan; [| discriminate].
  cbn [bind]. destruct (filter_existing to_process ids); [| discriminate].
  cbn [bind]. intros [= <- _] k.
  rewrite (sources_scan_spec lines ∅ ids Hscan k). split.
  - intros [H | (l & Hl & Hk)]; [exfalso; exact (not_elem_of_empty k H) |].
    split; [reflexivity |]. exists lines, l. auto.
  - intros [_ (lines' & l & [= <-] & Hl & Hk)]. right. exists l. auto.
Qed.

End SourcesOpen.

(** C9. Whenever [process_source] opens the descriptions file: with force
    off, the mode is append if and only if the file existed and at least one
    of its lines is a record carrying an ["id"]; otherwise, and always with
    force on, the mode is truncate, and the file then ends holding only the
    lines written by this run, whatever it held before. *)
Theorem C9_output_mode (json_loads : string -> option json)
    (worlds : nat -> DescribeSources.world)
    (as_completed : list DescribeSources.item_ref -> list DescribeSources.item_ref)
    (source_dir : string) (m : DescribeSources.manifest) (workers limit : Z)
    (force : bool) (descriptions : option (list line))
    (mode : DescribeSources.output_mode) :
  let x := DescribeSources.process_source json_loads worlds as_completed
             source_dir m workers limit force descriptions in
  DescribeSources.opened_in x = Some mode ->
  (force = true -> mode = DescribeSources.Truncate) /\
  (force = false ->
     (mode = DescribeSources.Append <->
      exists lines l k, descriptions = Some lines /\ l ∈ lines /\
                        line_key "id" l = Ret k)) /\
  (mode = DescribeSources.Truncate ->
     exists to_process,
       DescribeSources.descriptions_file x
         = Some (sources_written
                   (sources_results json_loads worlds as_completed source_dir
                      to_process))).
Proof.
  intros x Hopen. subst x.
  destruct (process_source_opened _ _ _ _ _ _ _ _ _ _ Hopen)
    as (ids & to_process & _ & Hfilter & -> & Hfile).
  pose proof (resume_filter_ids _ _ _ _ _ Hfilter) as Hids.
  unfold DescribeSources.choose_mode in *.
  split; [intros ->; reflexivity |]. split.
  - intros ->. destruct (bool_decide (ids = ∅)) eqn:Hempty.
    + apply bool_decide_eq_true in Hempty. subst ids. split; [discriminate |].
      intros (lines & l & k & Hd & Hl & Hk). exfalso.
      apply (not_elem_of_empty (C := gset key) k). apply Hids.
      split; [reflexivity |]. exists lines, l. auto.
    + apply bool_decide_eq_false in Hempty. split; [| reflexivity].
      intros _. apply set_choose_L in Hempty as [k Hk].
      apply Hids in Hk as [_ (lines & l & Hd & Hl & Hkey)].
      exists lines, l, k. auto.
  - intros Hmode. exists to_process. rewrite Hfile, Hmode. reflexivity.
Qed.

(** C9 on a run: the descriptions file exists but its only line was cut
    off; the file is opened for truncation and the line is gone. *)
Lemma C9_output_mode_witness :
  let x := DescribeSources.process_source Samples.sample_loads
             (fun _ => Samples.on_disk Samples.always_mood) (fun jobs => jobs)
             "sources/demo"
             {| DescribeSources.source := "demo";
                DescribeSources.items := [Samples.clip "a"] |}
             10 0 false (Some [Garbled]) in
  DescribeSources.opened_in x = Some DescribeSources.Truncate /\
  DescribeSources.descriptions_file x
    = Some [Json (JObj (Samples.clip_record "a"))] /\
  ~ (exists lines l k, Some [Garbled] = Some lines /\ l ∈ lines /\
                       line_key "id" l = Ret k).
Proof.
  intros x.
  assert (Hopen : DescribeSources.opened_in x = Some DescribeSources.Truncate)
    by (vm_compute; reflexivity).
  split; [exact Hopen |]. split; [vm_compute; reflexivity |].
  destruct (C9_output_mode Samples.sample_loads
              (fun _ => Samples.on_disk Samples.always_mood) (fun jobs => jobs)
              "sources/demo"
              {| DescribeSources.source := "demo";
                 DescribeSources.items := [Samples.clip "a"] |}
              10 0 false (Some [Garbled]) DescribeSources.Truncate Hopen)
    as (_ & Hiff & _).
  intros Hex. apply (Hiff eq_refl) in Hex. discriminate Hex.
Defined.

Section SourcesLimit.

Import DescribeSources.

Variable json_loads : string -> option json.
Variable worlds : nat -> world.
Variable as_completed : list item_ref -> list item_ref.
Variable source_dir : string.

Lemma filter_existing_all_known (to_process : list item_ref) (ids : gset key) :
  Forall (fun r => known ids r = true) to_process ->
  filter_existing to_process ids = Ret [].
Proof.
  induction 1 as [| r to_process Hr _ IH]; cbn [filter_existing].
  - reflexivity.
  - unfold known, item_key in Hr.
    destruct (subscript (JObj r.2) "id") as [id |]; [| discriminate].
    cbn [bind] in *. destruct (hash_key id) as [k |]; [| discriminate].
    cbn [bind]. rewrite IH. cbn [bind]. rewrite Hr. reflexivity.
Qed.

Lemma limited_positive (m : manifest) (limit : Z) (force : bool) :
  0 < limit ->
  limited m limit force
    = take (Z.to_nat limit) (items_needing_description m force).
Proof.
  intros Hl. unfold limited, slice_to.
  destruct (Z.eqb_spec limit 0); [lia |].
  destruct (Z.leb_spec 0 limit); [reflexivity | lia].
Qed.

(** C10. With a limit [L > 0], the limit is applied to the items needing
    description first and the ids found in the existing descriptions are
    filtered out of those first [L] afterwards: at most [L] items are
    scheduled, and when all of the first [L] are already in the existing
    descriptions nothing at all is scheduled ([process_source] returns 0
    without opening the file), however many undescribed items follow. *)
Theorem C10_limit_before_resume_filter (m : manifest) (workers limit : Z)
    (lines : list line) (existing_ids : gset key) :
  0 < limit ->
  scan lines ∅ = Ret existing_ids ->
  (forall to_process,
     resume_filter (limited m limit false) false (Some lines)
       = Ret (existing_ids, to_process) ->
     to_process
       = filter (fun r => known existing_ids r = false)
                (take (Z.to_nat limit) (items_needing_description m false)) /\
     Z.of_nat (length to_process) <= limit) /\
  (items_needing_description m false <> [] ->
   Forall (fun r => known existing_ids r = true)
          (take (Z.to_nat limit) (items_needing_description m false)) ->
   let x := process_source json_loads worlds as_completed source_dir
              m workers limit false (Some lines) in
   returned x = Ret 0 /\ opened_in x = None /\ saved x = None /\
   descriptions_file x = Some lines /\
   stdout (last x) = [All_items_already_described]).
Proof.
  intros Hl Hscan. split.
  - intros to_process. unfold resume_filter. rewrite Hscan. cbn [bind].
    destruct (filter_existing _ _) as [kept |] eqn:Hf; [| discriminate].
    cbn [bind]. intros [= <-].
    rewrite (filter_existing_spec _ _ _ Hf), (limited_positive m limit false Hl).
    split; [reflexivity |].
    pose proof (length_filter (fun r => known existing_ids r = false)
                  (take (Z.to_nat limit) (items_needing_description m false))).
    rewrite length_take in *. lia.
  - intros Hne Hknown x. subst x. unfold process_source.
    rewrite (limited_positive m limit false Hl).
    destruct (take (Z.to_nat limit) (items_needing_description m false))
      as [| r rest] eqn:Htake.
    { destruct (items_needing_description m false); [contradiction |].
      destruct (Z.to_nat limit) eqn:Hn; [lia | discriminate]. }
    unfold resume_filter. rewrite Hscan. cbn [bind].
    rewrite (filter_existing_all_known _ _ Hknown). cbn [bind].
    repeat split; reflexivity.
Qed.

End SourcesLimit.

(** C10 on a run: limit 1; the first item is already in the descriptions
    file (written by a run that ended before the manifest was saved); three
    undescribed items follow and none is scheduled. *)
Lemma C10_limit_before_resume_filter_witness :
  let lines := [Json (JObj (Samples.clip_record "a"))] in
  let x := DescribeSources.process_source Samples.sample_loads
             (fun _ => Samples.on_disk Samples.always_mood) (fun jobs => jobs)
             "sources/demo" Samples.demo_manifest 10 1 false (Some lines) in
  length (undescribed Samples.demo_manifest {[KStr "a"]}) = 3%nat /\
  DescribeSources.returned x = Ret 0 /\
  DescribeSources.opened_in x = None /\
  DescribeSources.descriptions_file x = Some lines.
Proof.
  intros lines x. split; [vm_compute; reflexivity |].
  destruct (C10_limit_before_resume_filter Samples.sample_loads
              (fun _ => Samples.on_disk Samples.always_mood) (fun jobs => jobs)
              "sources/demo" Samples.demo_manifest 10 1 lines
              ({[KStr "a"]} ∪ ∅) ltac:(lia) eq_refl) as [_ Hnone].
  destruct Hnone as (Hret & Hopen & _ & Hfile & _).
  - vm_compute. discriminate.
  - vm_compute. repeat constructor.
  - repeat split; assumption.
Defined.

(** ** Skip policy and resume *)

Lemma comprehension_app {A B} (f : A -> py B) (l1 l2 : list A) (r1 r2 : list B) :
  comprehension f l1 = Ret r1 ->
  comprehension f l2 = Ret r2 ->
  comprehension f (l1 ++ l2) = Ret (r1 ++ r2).
Proof.
  revert r1. induction l1 as [| x l1 IH]; intros r1; simpl.
  - intros [= <-] H. exact H.
  - destruct (f x) as [y |]; [| discriminate]. cbn [bind].
    destruct (comprehension f l1) as [ys |]; [| discriminate]. cbn [bind].
    intros [= <-] H2. rewrite (IH ys eq_refl H2). reflexivity.
Qed.

Lemma snd_imap_pair {A} (l : list A) : (imap pair l).*2 = l.
Proof.
  rewrite fmap_imap. rewrite (imap_ext _ (fun _ x => x) l) by reflexivity.
  rewrite (imap_const id). apply list_fmap_id.
Qed.

Section TgifResume.

Import DescribeGifs.

Variable json_loads : string -> option json.

(** The scan of a file whose lines all carry an identity ends with the set
    of those identities. *)
Lemma tgif_scan_identities (lines : list line) (ks : list key) (acc : gset key) :
  identities "url" lines = Ret ks ->
  scan lines acc = Ret (list_to_set ks ∪ acc).
Proof.
  unfold identities. revert ks acc.
  induction lines as [| l lines IH]; intros ks acc; simpl.
  - intros [= <-]. f_equal. set_solver.
  - destruct (line_key "url" l) as [k |]; [| discriminate]. cbn [bind].
    destruct (comprehension (line_key "url") lines) as [ks' |]; [| discriminate].
    cbn [bind]. intros [= <-]. rewrite (IH ks' _ eq_refl). f_equal.
    set_solver.
Qed.

(** Every GIF that is scheduled has a URL outside the skip-set, and the
    scheduled GIFs are taken from the input in input order. *)
Lemma filter_processed_spec (gifs : list gif) (processed_urls : gset key) :
  filter_processed gifs processed_urls `sublist_of` gifs /\
  forall g, g ∈ filter_processed gifs processed_urls <->
            g ∈ gifs /\ KStr (url g) ∉ processed_urls.
Proof.
  unfold filter_processed. split; [apply sublist_filter |].
  intros g. rewrite list_elem_of_filter. tauto.
Qed.

(** The lines written for the jobs of a list are the records of some of
    these jobs, in order, each under the URL of its GIF. *)
Lemma tgif_written_identities (worlds : nat -> world) (jobs : list (nat * gif)) :
  tgif_keeps_identity json_loads worlds ->
  exists js,
    js `sublist_of` jobs /\
    identities "url"
      (tgif_written
         (map (fun '(i, g) => fst (process_gif json_loads (worlds i) g)) jobs))
      = Ret ((fun j => KStr (url j.2)) <$> js).
Proof.
  intros Hkeep. induction jobs as [| [i g] jobs (js & Hsub & Hids)].
  - exists []. split; [constructor | reflexivity].
  - cbn [map tgif_written].
    destruct (process_gif json_loads (worlds i) g) as [[[record | |] | e] printed]
      eqn:Hjob; cbn [fst].
    + destruct (truthy (JObj record)).
      * exists ((i, g) :: js). split; [constructor; exact Hsub |].
        pose proof (Hkeep i g record printed Hjob) as Hurl.
        unfold identities in *. cbn [app comprehension].
        unfold line_key at 1. cbn [json_loads_line bind subscript].
        rewrite Hurl. cbn [bind hash_key]. rewrite Hids. reflexivity.
      * exists js. split; [constructor; exact Hsub | exact Hids].
    + exists js. split; [constructor; exact Hsub | exact Hids].
    + exists js. split; [constructor; exact Hsub | exact Hids].
    + exists []. split; [apply sublist_nil_l | reflexivity].
Qed.

End TgifResume.

Section TgifRuns.

Import DescribeGifs.

Variable json_loads : string -> option json.

(** The three counters after the loop add up to the number of results
    consumed, which is at most the number of results. *)
Lemma tgif_loop_counts (total : Z) (results : list (py job_result))
    (s : run_state) :
  let s' := run_steps (completion_loop total results).1 s in
  success s + failed s + removed s
    <= success s' + failed s' + removed s'
    <= success s + failed s + removed s + Z.of_nat (length results).
Proof.
  revert s. induction results as [| [result | e] results IH]; intros s;
    cbn zeta.
  - simpl. lia.
  - simpl. destruct (completion_loop total results) as [steps e] eqn:Hloop.
    cbn [fst]. unfold run_steps. rewrite fold_left_app.
    fold (run_steps (critical_section total result) s).
    set (s1 := run_steps _ s).
    assert (H1 : success s1 + failed s1 + removed s1
                 = success s + failed s + removed s + 1).
    { subst s1. unfold critical_section, report.
      destruct result as [record | |];
        [destruct (truthy (JObj record)) |..];
        cbn [app run_steps fold_left];
        destruct (_ || _); simpl; lia. }
    specialize (IH s1). cbn zeta in IH. cbn [fst] in IH.
    unfold run_steps in IH. lia.
  - simpl. lia.
Qed.

(** A run that finds GIFs to process: the jobs are those of the filtered
    list and no others; the output file ends as its content after opening
    followed by the records of these jobs; the counters add up to at most
    the number of jobs. *)
Lemma main_loaded_run (worlds : nat -> world)
    (as_completed : list (nat * gif) -> list (nat * gif))
    (gifs : list gif) (resume : bool) (output : option (list line))
    (processed_urls : gset key) (g : gif) (to_process : list gif) :
  load_processed resume output = Ret processed_urls ->
  filter_processed gifs processed_urls = g :: to_process ->
  let x := main_loaded json_loads worlds as_completed gifs resume output in
  output_file x
    = Some (open_output resume output ++
            tgif_written (tgif_results json_loads worlds as_completed
                            (g :: to_process))) /\
  0 <= success (last x) + failed (last x) + removed (last x)
    <= Z.of_nat (length (as_completed (imap pair (g :: to_process)))).
Proof.
  intros Hload Hfilter x. subst x. unfold main_loaded.
  rewrite Hload, Hfilter.
  set (printed := _ ++ [To_process _]).
  set (total := Z.of_nat (length (g :: to_process))).
  fold (tgif_results json_loads worlds as_completed (g :: to_process)).
  set (results := tgif_results _ _ _ _).
  pose proof (tgif_loop_written total results
                (opened (open_output resume output) printed) eq_refl) as Hw.
  pose proof (tgif_loop_counts total results
                (opened (open_output resume output) printed)) as Hc.
  cbn zeta in Hw, Hc.
  assert (Hlen : length results
                 = length (as_completed (imap pair (g :: to_process)))).
  { subst results. unfold tgif_results. apply length_map. }
  rewrite Hlen in Hc.
  destruct (completion_loop total results) as [steps e].
  cbn [fst] in Hw, Hc. destruct Hw as [Hb Hf].
  cbn beta iota. cbn [output_file last].
  split.
  - cbn [flushed out_flush]. rewrite Hb, app_nil_r, Hf. reflexivity.
  - destruct e; simpl in *; lia.
Qed.

(** A run that finds nothing to process leaves the file and the counters
    alone. *)
Lemma main_loaded_idle (worlds : nat -> world)
    (as_completed : list (nat * gif) -> list (nat * gif))
    (gifs : list gif) (resume : bool) (output : option (list line))
    (processed_urls : gset key) :
  load_processed resume output = Ret processed_urls ->
  filter_processed gifs processed_urls = [] ->
  let x := main_loaded json_loads worlds as_completed gifs resume output in
  output_file x = output /\
  success (last x) = 0 /\ failed (last x) = 0 /\ removed (last x) = 0.
Proof.
  intros Hload Hfilter x. subst x. unfold main_loaded.
  rewrite Hload, Hfilter. repeat split; reflexivity.
Qed.

End TgifRuns.

Section TgifTwoRuns.

Import DescribeGifs.

Variable json_loads : string -> option json.

Lemma KStr_inj : Inj (=) (=) KStr.
Proof. intros a b [= ->]. reflexivity. Qed.

(** Jobs that completed, out of those submitted for [to_process], carry
    pairwise distinct URLs when the input does, and all come from
    [to_process]. *)
Lemma tgif_completed_distinct
    (as_completed : list (nat * gif) -> list (nat * gif))
    (gifs to_process : list gif) (js : list (nat * gif)) :
  fair as_completed ->
  NoDup (url <$> gifs) ->
  to_process `sublist_of` gifs ->
  js `sublist_of` as_completed (imap pair to_process) ->
  NoDup ((fun j => KStr (url j.2)) <$> js) /\
  forall j, j ∈ js -> j.2 ∈ to_process.
Proof.
  intros Hfair Hnodup Htp Hjs. split.
  - eapply sublist_NoDup; [| apply fmap_sublist, Hjs].
    rewrite (Hfair (imap pair to_process)).
    change (fun j : nat * gif => KStr (url j.2))
      with ((KStr ∘ url) ∘ (snd : nat * gif -> gif)).
    rewrite (list_fmap_compose snd (KStr ∘ url)), snd_imap_pair.
    rewrite (list_fmap_compose url KStr).
    apply (NoDup_fmap_2 KStr (Inj0 := KStr_inj)).
    eapply sublist_NoDup; [exact Hnodup | apply fmap_sublist, Htp].
  - intros j Hj.
    assert (Hin : j ∈ as_completed (imap pair to_process))
      by (eapply elem_of_sublist; eassumption).
    rewrite (Hfair (imap pair to_process)) in Hin.
    rewrite <- (snd_imap_pair to_process).
    apply list_elem_of_fmap. exists j. split; [reflexivity | exact Hin].
Qed.

(** Two runs with resume on the same catalog, the first starting without
    an output file: no identity is recorded twice, provided the URLs of
    the catalog are pairwise distinct and the records keep them. *)
Lemma tgif_two_runs (worlds1 worlds2 : nat -> world)
    (as_completed1 as_completed2 : list (nat * gif) -> list (nat * gif))
    (gifs : list gif) :
  fair as_completed1 -> fair as_completed2 ->
  NoDup (url <$> gifs) ->
  tgif_keeps_identity json_loads worlds1 ->
  tgif_keeps_identity json_loads worlds2 ->
  let x1 := main_loaded json_loads worlds1 as_completed1 gifs true None in
  let x2 := main_loaded json_loads worlds2 as_completed2 gifs true
              (output_file x1) in
  forall f, output_file x2 = Some f ->
    exists ks, identities "url" f = Ret ks /\ NoDup ks.
Proof.
  intros Hfair1 Hfair2 Hnodup Hkeep1 Hkeep2 x1 x2.
  assert (Hload1 : load_processed true None = Ret ∅) by reflexivity.
  destruct (filter_processed gifs ∅) as [| g1 tp1] eqn:Hf1.
  { (* nothing in the catalog: no file after either run *)
    destruct (main_loaded_idle json_loads worlds1 as_completed1 gifs true None
                ∅ Hload1 Hf1) as [Hout1 _].
    fold x1 in Hout1. subst x2. rewrite Hout1.
    destruct (main_loaded_idle json_loads worlds2 as_completed2 gifs true None
                ∅ Hload1 Hf1) as [Hout2 _].
    intros f Hf. rewrite Hout2 in Hf. discriminate. }
  destruct (main_loaded_run json_loads worlds1 as_completed1 gifs true None
              ∅ g1 tp1 Hload1 Hf1) as [Hout1 _].
  fold x1 in Hout1. cbn [open_output default app] in Hout1.
  destruct (tgif_written_identities json_loads worlds1
              (as_completed1 (imap pair (g1 :: tp1))) Hkeep1)
    as (js1 & Hsub1 & Hids1).
  fold (tgif_results json_loads worlds1 as_completed1 (g1 :: tp1)) in Hids1.
  set (file1 := tgif_written _) in *.
  set (ks1 := (fun j : nat * gif => KStr (url j.2)) <$> js1) in *.
  pose proof (filter_processed_spec gifs ∅) as [Htp1 _]. rewrite Hf1 in Htp1.
  destruct (tgif_completed_distinct as_completed1 gifs (g1 :: tp1) js1
              Hfair1 Hnodup Htp1 Hsub1) as [Hnd1 _].
  fold ks1 in Hnd1.
  assert (Hload2 : load_processed true (output_file x1)
                   = Ret (list_to_set ks1 ∪ ∅)).
  { rewrite Hout1. apply (tgif_scan_identities file1 ks1 ∅ Hids1). }
  subst x2.
  destruct (filter_processed gifs (list_to_set ks1 ∪ ∅)) as [| g2 tp2] eqn:Hf2.
  { destruct (main_loaded_idle json_loads worlds2 as_completed2 gifs true
                (output_file x1) _ Hload2 Hf2) as [Hout2 _].
    intros f Hf. rewrite Hout2, Hout1 in Hf. injection Hf as <-.
    exists ks1. split; assumption. }
  destruct (main_loaded_run json_loads worlds2 as_completed2 gifs true
              (output_file x1) _ g2 tp2 Hload2 Hf2) as [Hout2 _].
  intros f Hf. rewrite Hout2 in Hf. injection Hf as <-.
  rewrite Hout1. cbn [open_output default].
  destruct (tgif_written_identities json_loads worlds2
              (as_completed2 (imap pair (g2 :: tp2))) Hkeep2)
    as (js2 & Hsub2 & Hids2).
  fold (tgif_results json_loads worlds2 as_completed2 (g2 :: tp2)) in Hids2.
  pose proof (filter_processed_spec gifs (list_to_set ks1 ∪ ∅)) as [Htp2 Hin2].
  rewrite Hf2 in Htp2, Hin2.
  destruct (tgif_completed_distinct as_completed2 gifs (g2 :: tp2) js2
              Hfair2 Hnodup Htp2 Hsub2) as [Hnd2 Hfrom2].
  exists (ks1 ++ ((fun j : nat * gif => KStr (url j.2)) <$> js2)).
  split; [apply comprehension_app; assumption |].
  apply NoDup_app. split; [exact Hnd1 |]. split; [| exact Hnd2].
  intros k Hk1 Hk2. apply list_elem_of_fmap in Hk2 as (j & -> & Hj).
  apply Hfrom2, Hin2 in Hj as [_ Hnot]. apply Hnot.
  apply elem_of_union_l, elem_of_list_to_set, Hk1.
Qed.

End TgifTwoRuns.

Section SourcesResumeRuns.

Import DescribeSources.

Variable json_loads : string -> option json.
Variable worlds : nat -> world.
Variable as_completed : list item_ref -> list item_ref.
Variable source_dir : string.

Lemma sources_scan_identities (lines : list line) (ks : list key)
    (acc : gset key) :
  identities "id" lines = Ret ks ->
  scan lines acc = Ret (list_to_set ks ∪ acc).
Proof.
  unfold identities. revert ks acc.
  induction lines as [| l lines IH]; intros ks acc; simpl.
  - intros [= <-]. f_equal. clear. set_solver.
  - destruct (line_key "id" l) as [k |]; [| discriminate]. cbn [bind].
    destruct (comprehension (line_key "id") lines) as [ks' |]; [| discriminate].
    cbn [bind]. intros [= <-]. rewrite (IH ks' _ eq_refl). f_equal.
    clear. set_solver.
Qed.

Lemma filter_existing_total (to_process : list item_ref) (ids : gset key) :
  Forall (fun r => exists k, item_key r = Ret k) to_process ->
  exists kept, filter_existing to_process ids = Ret kept.
Proof.
  induction 1 as [| r to_process [k Hk] _ [kept IH]]; cbn [filter_existing].
  - eexists. reflexivity.
  - unfold item_key in Hk.
    destruct (subscript (JObj r.2) "id") as [id |]; [| discriminate].
    cbn [bind] in *. rewrite Hk, IH. cbn [bind]. eexists. reflexivity.
Qed.

Lemma limited_sublist (m : manifest) (limit : Z) (force : bool) :
  limited m limit force `sublist_of` imap pair (items m).
Proof.
  unfold limited, slice_to, items_needing_description.
  destruct (limit =? 0); [apply sublist_filter |].
  destruct (0 <=? limit);
    (etransitivity; [apply sublist_take | apply sublist_filter]).
Qed.

Lemma process_source_not_opened (m : manifest) (workers limit : Z)
    (force : bool) (descriptions : option (list line)) :
  opened_in (process_source json_loads worlds as_completed source_dir
               m workers limit force descriptions) = None ->
  descriptions_file (process_source json_loads worlds as_completed source_dir
                       m workers limit force descriptions) = descriptions.
Proof.
  unfold process_source.
  destruct (limited m limit force) as [| r0 lim]; [reflexivity |].
  destruct (resume_filter (r0 :: lim) force descriptions)
    as [[existing_ids [| r to_process]] | e]; [reflexivity | | reflexivity].
  destruct (completion_loop _ _ _). discriminate.
Qed.

(** The lines written for the jobs of a list are the records of some of
    these jobs, in order, each under the id of its item. *)
Lemma sources_written_identities (jobs : list item_ref) :
  sources_keeps_identity json_loads worlds source_dir ->
  Forall (fun r => exists k, item_key r = Ret k) jobs ->
  exists js,
    js `sublist_of` jobs /\
    identities "id"
      (sources_written
         (map (fun r : item_ref =>
                 (r.1, fst (describe_item json_loads (worlds r.1) source_dir r.2)))
              jobs))
      = Ret (key_of <$> js).
Proof.
  intros Hkeep Hall.
  induction Hall as [| r jobs [k Hk] _ (js & Hsub & Hids)].
  - exists []. split; [constructor | reflexivity].
  - cbn [map sources_written].
    destruct (describe_item json_loads (worlds r.1) source_dir r.2)
      as [[[record |] | e] printed] eqn:Hjob; cbn [fst].
    + destruct (truthy (JObj record)).
      * exists (r :: js). split; [constructor; exact Hsub |].
        pose proof (Hkeep _ _ _ _ Hjob) as Hid.
        unfold identities in *. cbn [app comprehension].
        assert (Hline : line_key "id" (Json (JObj record)) = Ret (key_of r)).
        { unfold key_of. rewrite Hk. unfold item_key in Hk.
          unfold line_key. cbn [json_loads_line bind].
          unfold subscript in *. rewrite Hid. exact Hk. }
        rewrite Hline. cbn [bind]. rewrite Hids. reflexivity.
      * exists js. split; [constructor; exact Hsub | exact Hids].
    + exists js. split; [constructor; exact Hsub | exact Hids].
    + exists []. split; [apply sublist_nil_l | reflexivity].
Qed.

End SourcesResumeRuns.

Section SourcesRunDistinct.

Import DescribeSources.

Variable json_loads : string -> option json.
Variable worlds : nat -> world.
Variable as_completed : list item_ref -> list item_ref.
Variable source_dir : string.

(** Jobs that completed, out of those submitted for [to_process], carry
    pairwise distinct ids when the manifest does. *)
Lemma sources_completed_distinct (its : list (gmap string json))
    (to_process js : list item_ref) :
  fair as_completed ->
  distinct_ids its ->
  to_process `sublist_of` imap pair its ->
  js `sublist_of` as_completed to_process ->
  NoDup (key_of <$> js) /\ forall j, j ∈ js -> j ∈ to_process.
Proof.
  intros Hfair [_ Hnodup] Htp Hjs. split.
  - eapply sublist_NoDup; [| apply fmap_sublist, Hjs].
    rewrite (Hfair to_process).
    eapply sublist_NoDup; [exact Hnodup | apply fmap_sublist, Htp].
  - intros j Hj. rewrite <- (Hfair to_process).
    eapply elem_of_sublist; eassumption.
Qed.

(** A run without force keeps the identities in the descriptions file
    pairwise distinct: if the file is absent, or every line of it carries
    an id and no id occurs twice, the same holds of the file after the
    run. *)
Lemma sources_run_distinct (m : manifest) (workers limit : Z)
    (descriptions : option (list line)) :
  fair as_completed ->
  distinct_ids (items m) ->
  sources_keeps_identity json_loads worlds source_dir ->
  (forall file, descriptions = Some file ->
     exists ks, identities "id" file = Ret ks /\ NoDup ks) ->
  forall f,
    descriptions_file (process_source json_loads worlds as_completed source_dir
                         m workers limit false descriptions) = Some f ->
    exists ks, identities "id" f = Ret ks /\ NoDup ks.
Proof.
  intros Hfair Hdist Hkeep Hbefore f.
  destruct (opened_in (process_source json_loads worlds as_completed source_dir
                         m workers limit false descriptions))
    as [mode |] eqn:Hopen.
  2:{ rewrite (process_source_not_opened _ _ _ _ _ _ _ _ _ Hopen).
      apply Hbefore. }
  destruct (process_source_opened _ _ _ _ _ _ _ _ _ _ Hopen)
    as (ids & to_process & _ & Hfilter & -> & ->).
  intros [= <-].
  pose proof (limited_sublist m limit false) as Hlim.
  assert (Hall : Forall (fun r => exists k, item_key r = Ret k)
                   (limited m limit false)).
  { apply List.Forall_forall. intros r Hr.
    apply (proj1 (List.Forall_forall _ _) (proj1 Hdist)).
    apply list_elem_of_In. eapply elem_of_sublist; [| exact Hlim].
    apply list_elem_of_In, Hr. }
  (* what the scan found and what was selected *)
  assert (Hsel : to_process `sublist_of` limited m limit false /\
                 (forall r, r ∈ to_process -> known ids r = false) /\
                 exists ks0,
                   identities "id"
                     (open_output (choose_mode ids false) descriptions)
                     = Ret ks0 /\
                   NoDup ks0 /\ forall k, k ∈ ks0 -> k ∈ ids).
  { unfold resume_filter in Hfilter.
    destruct descriptions as [file |].
    - destruct (Hbefore file eq_refl) as (ks & Hks & Hnd).
      rewrite (sources_scan_identities file ks ∅ Hks) in Hfilter.
      cbn [bind] in Hfilter.
      destruct (filter_existing (limited m limit false) (list_to_set ks ∪ ∅))
        as [kept |] eqn:Hkept; [| discriminate].
      cbn [bind] in Hfilter. injection Hfilter as <- <-.
      rewrite (filter_existing_spec _ _ _ Hkept).
      split; [apply sublist_filter |]. split.
      + intros r Hr. apply list_elem_of_filter in Hr as [Hr _]. exact Hr.
      + unfold choose_mode.
        destruct (bool_decide (list_to_set ks ∪ ∅ = ∅)); cbn [open_output default].
        * exists []. split; [reflexivity |]. split; [constructor |].
          intros k Hk. inversion Hk.
        * exists ks. split; [exact Hks |]. split; [exact Hnd |].
          intros k Hk. apply elem_of_union_l, elem_of_list_to_set, Hk.
    - injection Hfilter as <- <-. split; [reflexivity |]. split.
      + intros r _. unfold known. destruct (item_key r); [| reflexivity].
        apply bool_decide_eq_false, not_elem_of_empty.
      + exists []. split; [reflexivity |]. split; [constructor |].
        intros k Hk. inversion Hk. }
  destruct Hsel as (Hsub & Hunknown & ks0 & Hks0 & Hnd0 & Hin0).
  assert (Hjobs : Forall (fun r => exists k, item_key r = Ret k)
                    (as_completed to_process)).
  { apply List.Forall_forall. intros r Hr.
    apply (proj1 (List.Forall_forall _ _) Hall).
    apply list_elem_of_In. eapply elem_of_sublist; [| exact Hsub].
    rewrite <- (Hfair to_process). apply list_elem_of_In, Hr. }
  destruct (sources_written_identities json_loads worlds source_dir
              (as_completed to_process) Hkeep Hjobs) as (js & Hjs & Hids).
  fold (sources_results json_loads worlds as_completed source_dir to_process)
    in Hids.
  destruct (sources_completed_distinct (items m) to_process js Hfair Hdist
              ltac:(etransitivity; eassumption) Hjs) as [Hnd Hfrom].
  exists (ks0 ++ (key_of <$> js)).
  split; [apply comprehension_app; assumption |].
  apply NoDup_app. split; [exact Hnd0 |]. split; [| exact Hnd].
  intros k Hk0 Hk. apply list_elem_of_fmap in Hk as (j & -> & Hj).
  pose proof (Hunknown j (Hfrom j Hj)) as Hun.
  assert (Hkey : exists k, item_key j = Ret k).
  { apply (proj1 (List.Forall_forall _ _) Hall).
    apply list_elem_of_In. eapply elem_of_sublist; [| exact Hsub].
    apply Hfrom, Hj. }
  destruct Hkey as [k Hkey]. unfold known in Hun. unfold key_of in Hk0.
  rewrite Hkey in Hun, Hk0. apply bool_decide_eq_false in Hun.
  apply Hun, Hin0, Hk0.
Qed.

End SourcesRunDistinct.

(** *** The manifest that is saved has the ids it was loaded with *)

Lemma same_ids_refl (its : list (gmap string json)) : same_ids its its.
Proof. unfold same_ids. induction its; constructor; auto. Qed.

Lemma same_ids_set_described (pos : nat) (its : list (gmap string json)) :
  same_ids (alter (insert "described" (JBool true)) pos its) its.
Proof.
  unfold same_ids. revert pos. induction its as [| it its IH]; intros pos.
  - constructor.
  - destruct pos as [| pos]; simpl; constructor.
    + apply lookup_insert_ne. discriminate.
    + apply same_ids_refl.
    + reflexivity.
    + apply IH.
Qed.

Lemma same_ids_trans (a b c : list (gmap string json)) :
  same_ids a b -> same_ids b c -> same_ids a c.
Proof.
  unfold same_ids. intros Hab. revert c.
  induction Hab as [| x y a b Hxy _ IH]; intros c Hbc; inversion Hbc; subst.
  - constructor.
  - constructor; [congruence | apply IH; assumption].
Qed.

Lemma sources_loop_same_ids (name : string) (total : Z)
    (results : list (nat * py (option (gmap string json))))
    (s : DescribeSources.run_state) :
  same_ids
    (DescribeSources.manifest_items
       (DescribeSources.run_steps
          (DescribeSources.completion_loop name total results).1 s))
    (DescribeSources.manifest_items s).
Proof.
  revert s. induction results as [| [pos [result | e]] results IH]; intros s.
  - apply same_ids_refl.
  - simpl. destruct (DescribeSources.completion_loop name total results)
      as [steps e] eqn:Hloop.
    cbn [fst]. unfold DescribeSources.run_steps. rewrite fold_left_app.
    fold (DescribeSources.run_steps
            (DescribeSources.critical_section name total pos result) s).
    set (s1 := DescribeSources.run_steps _ s).
    assert (H1 : same_ids (DescribeSources.manifest_items s1)
                          (DescribeSources.manifest_items s)).
    { subst s1.
      unfold DescribeSources.critical_section, DescribeSources.report.
      destruct result as [record |];
        [destruct (truthy (JObj record)) |];
        cbn [app DescribeSources.run_steps fold_left];
        destruct (_ || _); simpl;
        first [apply same_ids_set_described | apply same_ids_refl]. }
    specialize (IH s1). cbn [fst] in IH.
    unfold DescribeSources.run_steps in IH.
    eapply same_ids_trans; [exact IH | exact H1].
  - apply same_ids_refl.
Qed.

Lemma imap_pair_same_ids (its' its : list (gmap string json)) (n : nat) :
  same_ids its' its ->
  Forall2 (fun r' r : DescribeSources.item_ref => r'.2 !! "id" = r.2 !! "id")
          (imap (fun i x => (n + i, x)%nat) its')
          (imap (fun i x => (n + i, x)%nat) its).
Proof.
  unfold same_ids. intros H. revert n.
  induction H as [| a b its' its Hab _ IH]; intros n; simpl.
  - constructor.
  - constructor; [exact Hab |].
    rewrite (imap_ext _ (fun i x => (S n + i, x)%nat) its')
      by (intros; simpl; f_equal; lia).
    rewrite (imap_ext (_ ∘ S) (fun i x => (S n + i, x)%nat) its)
      by (intros; simpl; f_equal; lia).
    apply IH.
Qed.

Lemma item_key_same_id (r' r : DescribeSources.item_ref) :
  r'.2 !! "id" = r.2 !! "id" -> item_key r' = item_key r.
Proof.
  intros H. unfold item_key, subscript. rewrite H. reflexivity.
Qed.

Lemma distinct_ids_same_ids (its' its : list (gmap string json)) :
  same_ids its' its -> distinct_ids its -> distinct_ids its'.
Proof.
  intros Hsame [Hall Hnd].
  pose proof (imap_pair_same_ids its' its 0 Hsame) as H2.
  change (imap (fun i x => (0 + i, x)%nat) its') with (imap pair its') in H2.
  change (imap (fun i x => (0 + i, x)%nat) its) with (imap pair its) in H2.
  unfold distinct_ids.
  assert (Hkeys : key_of <$> imap pair its' = key_of <$> imap pair its).
  { clear Hall Hnd. induction H2 as [| r' r l' l Hr _ IH]; [reflexivity |].
    simpl. f_equal; [| exact IH].
    unfold key_of. rewrite (item_key_same_id r' r Hr). reflexivity. }
  rewrite Hkeys. split; [| exact Hnd].
  clear Hkeys Hnd. induction H2 as [| r' r l' l Hr _ IH]; [constructor |].
  inversion Hall; subst. constructor; [| apply IH; assumption].
  rewrite (item_key_same_id r' r Hr). assumption.
Qed.

Section SourcesTwoRuns.

Import DescribeSources.

Variable json_loads : string -> option json.
Variable source_dir : string.

Lemma process_source_saved (worlds : nat -> world)
    (as_completed : list item_ref -> list item_ref)
    (m m' : manifest) (workers limit : Z) (force : bool)
    (descriptions : option (list line)) :
  saved (process_source json_loads worlds as_completed source_dir
           m workers limit force descriptions) = Some m' ->
  same_ids (items m') (items m).
Proof.
  unfold process_source.
  destruct (limited m limit force) as [| r0 lim]; [discriminate |].
  destruct (resume_filter (r0 :: lim) force descriptions)
    as [[existing_ids [| r to_process]] | e]; [discriminate | | discriminate].
  set (results := map _ _).
  set (s0 := {| flushed := _; buffer := []; success := 0; failed := 0;
                manifest_items := items m; stdout := _ |}).
  pose proof (sources_loop_same_ids (source m)
                (Z.of_nat (length (r :: to_process))) results s0) as Hsame.
  destruct (completion_loop (source m) (Z.of_nat (length (r :: to_process)))
              results) as [steps [e |]]; [discriminate |].
  cbn [fst] in Hsame. cbn beta iota. cbn [saved]. intros [= <-]. exact Hsame.
Qed.

(** Two runs without force on the same source, the first starting without
    a descriptions file, the second with the manifest the first one saved
    (or the original one, if the first did not get to save it): no id is
    recorded twice, provided the ids of the manifest are pairwise distinct
    and the records keep them. *)
Lemma sources_two_runs (worlds1 worlds2 : nat -> world)
    (as_completed1 as_completed2 : list item_ref -> list item_ref)
    (m : manifest) (workers1 limit1 workers2 limit2 : Z) :
  fair as_completed1 -> fair as_completed2 ->
  distinct_ids (items m) ->
  sources_keeps_identity json_loads worlds1 source_dir ->
  sources_keeps_identity json_loads worlds2 source_dir ->
  let x1 := process_source json_loads worlds1 as_completed1 source_dir
              m workers1 limit1 false None in
  let x2 := process_source json_loads worlds2 as_completed2 source_dir
              (default m (saved x1)) workers2 limit2 false
              (descriptions_file x1) in
  forall f, descriptions_file x2 = Some f ->
    exists ks, identities "id" f = Ret ks /\ NoDup ks.
Proof.
  intros Hfair1 Hfair2 Hdist Hkeep1 Hkeep2 x1 x2. subst x2.
  apply sources_run_distinct; try assumption.
  - destruct (saved x1) as [m' |] eqn:Hsaved; [| exact Hdist].
    eapply distinct_ids_same_ids; [| exact Hdist].
    eapply process_source_saved. exact Hsaved.
  - intros file Hfile. subst x1.
    eapply (sources_run_distinct json_loads worlds1 as_completed1 source_dir
              m workers1 limit1 None); try eassumption.
    intros file' [=].
Qed.

End SourcesTwoRuns.

Section SourcesCounts.

Import DescribeSources.

Lemma sources_loop_counts (name : string) (total : Z)
    (results : list (nat * py (option (gmap string json)))) (s : run_state) :
  let s' := run_steps (completion_loop name total results).1 s in
  success s + failed s <= success s' + failed s'
    <= success s + failed s + Z.of_nat (length results).
Proof.
  revert s. induction results as [| [pos [result | e]] results IH]; intros s;
    cbn zeta.
  - simpl. lia.
  - simpl. destruct (completion_loop name total results) as [steps e] eqn:Hloop.
    cbn [fst]. unfold run_steps. rewrite fold_left_app.
    fold (run_steps (critical_section name total pos result) s).
    set (s1 := run_steps _ s).
    assert (H1 : success s1 + failed s1 = success s + failed s + 1).
    { subst s1. unfold critical_section, report.
      destruct result as [record |];
        [destruct (truthy (JObj record)) |];
        cbn [app run_steps fold_left];
        destruct (_ || _); simpl; lia. }
    specialize (IH s1). cbn zeta in IH. cbn [fst] in IH.
    unfold run_steps in IH. lia.
  - simpl. lia.
Qed.

Lemma resume_filter_unknown (limited_items to_process : list item_ref)
    (force : bool) (descriptions : option (list line)) (ids : gset key) :
  resume_filter limited_items force descriptions = Ret (ids, to_process) ->
  forall r, r ∈ to_process -> r ∈ limited_items /\ known ids r = false.
Proof.
  unfold resume_filter.
  assert (Hempty : forall r : item_ref, known ∅ r = false).
  { intros r. unfold known. destruct (item_key r); [| reflexivity].
    apply bool_decide_eq_false, not_elem_of_empty. }
  destruct descriptions as [lines |], force;
    try (intros [= <- <-] r Hr; split; [exact Hr | apply Hempty]).
  destruct (scan lines ∅) as [ids' |]; [| discriminate]. cbn [bind].
  destruct (filter_existing limited_items ids') as [kept |] eqn:Hkept;
    [| discriminate].
  cbn [bind]. intros [= <- <-] r Hr.
  rewrite (filter_existing_spec _ _ _ Hkept) in Hr.
  apply list_elem_of_filter in Hr. tauto.
Qed.

End SourcesCounts.

Section SourcesScheduled.

Import DescribeSources.

Variable json_loads : string -> option json.
Variable worlds : nat -> world.
Variable as_completed : list item_ref -> list item_ref.
Variable source_dir : string.

(** The counters of a run of [process_source] add up to at most the number
    of jobs that completed. *)
Lemma process_source_counts (m : manifest) (workers limit : Z) (force : bool)
    (descriptions : option (list line)) (ids : gset key)
    (to_process : list item_ref) :
  resume_filter (limited m limit force) force descriptions
    = Ret (ids, to_process) ->
  let x := process_source json_loads worlds as_completed source_dir
             m workers limit force descriptions in
  0 <= success (last x) + failed (last x)
    <= Z.of_nat (length (as_completed to_process)).
Proof.
  intros Hfilter x. subst x. unfold process_source.
  destruct (limited m limit force) as [| r0 lim]; [simpl; lia |].
  rewrite Hfilter. destruct to_process as [| r to_process]; [simpl; lia |].
  set (results := map _ _).
  set (s0 := {| flushed := _; buffer := []; success := 0; failed := 0;
                manifest_items := items m; stdout := _ |}).
  pose proof (sources_loop_counts (source m)
                (Z.of_nat (length (r :: to_process))) results s0) as Hc.
  cbn zeta in Hc.
  assert (Hlen : length results = length (as_completed (r :: to_process)))
    by apply length_map.
  rewrite Hlen in Hc.
  destruct (completion_loop (source m) (Z.of_nat (length (r :: to_process)))
              results) as [steps e].
  cbn [fst] in Hc. cbn beta iota. cbn [last]. simpl in *. lia.
Qed.

End SourcesScheduled.

Section SourcesFile.

Import DescribeSources.

Variable json_loads : string -> option json.
Variable worlds : nat -> world.
Variable as_completed : list item_ref -> list item_ref.
Variable source_dir : string.

(** The descriptions file after a run: untouched when nothing is selected;
    otherwise its content after opening followed by the records of the
    jobs of the selected items. *)
Lemma process_source_file (m : manifest) (workers limit : Z) (force : bool)
    (descriptions : option (list line)) (ids : gset key)
    (to_process : list item_ref) :
  resume_filter (limited m limit force) force descriptions
    = Ret (ids, to_process) ->
  descriptions_file (process_source json_loads worlds as_completed source_dir
                       m workers limit force descriptions)
  = match to_process with
    | [] => descriptions
    | _ :: _ =>
        Some (open_output (choose_mode ids force) descriptions ++
              sources_written (sources_results json_loads worlds as_completed
                                 source_dir to_process))
    end.
Proof.
  intros Hfilter. unfold process_source.
  destruct (limited m limit force) as [| r0 lim] eqn:Hlim.
  { pose proof (resume_filter_unknown _ _ _ _ _ Hfilter) as Hin.
    destruct to_process as [| r to_process]; [reflexivity |].
    destruct (Hin r (list_elem_of_here _ _)) as [Hr _]. inversion Hr. }
  rewrite Hfilter. destruct to_process as [| r to_process]; [reflexivity |].
  fold (sources_results json_loads worlds as_completed source_dir
          (r :: to_process)).
  set (results := sources_results _ _ _ _ _).
  set (s0 := {| flushed := _; buffer := []; success := 0; failed := 0;
                manifest_items := items m; stdout := _ |}).
  pose proof (sources_loop_written (source m)
                (Z.of_nat (length (r :: to_process))) results s0 eq_refl) as Hw.
  cbn zeta in Hw.
  destruct (completion_loop (source m) (Z.of_nat (length (r :: to_process)))
              results) as [steps e].
  cbn [fst] in Hw. destruct Hw as [Hb Hf].
  cbn beta iota. cbn [descriptions_file flushed out_flush].
  rewrite Hb, app_nil_r, Hf. reflexivity.
Qed.

End SourcesFile.

(** C5 (as the code has it). In both engines every item whose identity is
    in the skip-set is left out before scheduling: the jobs are exactly
    those of the items that pass the filter, the counters add up to at most
    the number of these jobs, and the output gains the records of these
    jobs and nothing else. Two runs with resume therefore record no identity
    twice, provided the identities of the input are pairwise distinct and
    the records keep the identity of their item. *)
Theorem C5_skip_policy_and_resume (json_loads : string -> option json) :
  (forall worlds as_completed gifs resume output processed_urls,
     fair as_completed ->
     DescribeGifs.load_processed resume output = Ret processed_urls ->
     let to_process := DescribeGifs.filter_processed gifs processed_urls in
     let x := DescribeGifs.main_loaded json_loads worlds as_completed gifs
                resume output in
     (forall g, g ∈ to_process <->
                g ∈ gifs /\ KStr (DescribeGifs.url g) ∉ processed_urls) /\
     0 <= DescribeGifs.success (DescribeGifs.last x)
          + DescribeGifs.failed (DescribeGifs.last x)
          + DescribeGifs.removed (DescribeGifs.last x)
       <= Z.of_nat (length to_process) /\
     DescribeGifs.output_file x
     = match to_process with
       | [] => output
       | _ :: _ =>
           Some (DescribeGifs.open_output resume output ++
                 tgif_written (tgif_results json_loads worlds as_completed
                                 to_process))
       end) /\
  (forall worlds1 worlds2 as_completed1 as_completed2 gifs,
     fair as_completed1 -> fair as_completed2 ->
     NoDup (DescribeGifs.url <$> gifs) ->
     tgif_keeps_identity json_loads worlds1 ->
     tgif_keeps_identity json_loads worlds2 ->
     let x1 := DescribeGifs.main_loaded json_loads worlds1 as_completed1
                 gifs true None in
     let x2 := DescribeGifs.main_loaded json_loads worlds2 as_completed2
                 gifs true (DescribeGifs.output_file x1) in
     forall f, DescribeGifs.output_file x2 = Some f ->
       exists ks, identities "url" f = Ret ks /\ NoDup ks) /\
  (forall worlds as_completed source_dir m workers limit force descriptions
          ids to_process,
     fair as_completed ->
     DescribeSources.resume_filter (DescribeSources.limited m limit force)
       force descriptions = Ret (ids, to_process) ->
     let x := DescribeSources.process_source json_loads worlds as_completed
                source_dir m workers limit force descriptions in
     (forall r, r ∈ to_process ->
        r ∈ DescribeSources.limited m limit force /\ known ids r = false) /\
     0 <= DescribeSources.success (DescribeSources.last x)
          + DescribeSources.failed (DescribeSources.last x)
       <= Z.of_nat (length to_process) /\
     DescribeSources.descriptions_file x
     = match to_process with
       | [] => descriptions
       | _ :: _ =>
           Some (DescribeSources.open_output
                   (DescribeSources.choose_mode ids force) descriptions ++
                 sources_written (sources_results json_loads worlds
                                    as_completed source_dir to_process))
       end) /\
  (forall worlds1 worlds2 as_completed1 as_completed2 source_dir m
          workers1 limit1 workers2 limit2,
     fair as_completed1 -> fair as_completed2 ->
     distinct_ids (DescribeSources.items m) ->
     sources_keeps_identity json_loads worlds1 source_dir ->
     sources_keeps_identity json_loads worlds2 source_dir ->
     let x1 := DescribeSources.process_source json_loads worlds1 as_completed1
                 source_dir m workers1 limit1 false None in
     let x2 := DescribeSources.process_source json_loads worlds2 as_completed2
                 source_dir (default m (DescribeSources.saved x1))
                 workers2 limit2 false (DescribeSources.descriptions_file x1) in
     forall f, DescribeSources.descriptions_file x2 = Some f ->
       exists ks, identities "id" f = Ret ks /\ NoDup ks).
Proof.
  split; [| split; [| split]].
  - intros worlds as_completed gifs resume output processed_urls Hfair Hload
           to_process x.
    split; [apply filter_processed_spec |].
    subst x. destruct to_process as [| g tp] eqn:Htp.
    + destruct (main_loaded_idle json_loads worlds as_completed gifs resume
                  output processed_urls Hload Htp) as (-> & -> & -> & ->).
      split; [simpl; lia | reflexivity].
    + destruct (main_loaded_run json_loads worlds as_completed gifs resume
                  output processed_urls g tp Hload Htp) as [-> Hc].
      split; [| reflexivity].
      rewrite (Permutation_length (Hfair (imap pair (g :: tp)))) in Hc.
      rewrite length_imap in Hc. lia.
  - intros worlds1 worlds2 as_completed1 as_completed2 gifs Hf1 Hf2 Hnd Hk1 Hk2.
    exact (tgif_two_runs json_loads worlds1 worlds2 as_completed1 as_completed2
             gifs Hf1 Hf2 Hnd Hk1 Hk2).
  - intros worlds as_completed source_dir m workers limit force descriptions
           ids to_process Hfair Hfilter x.
    split; [exact (resume_filter_unknown _ _ _ _ _ Hfilter) |].
    split.
    + pose proof (process_source_counts json_loads worlds as_completed
                    source_dir m workers limit force descriptions ids
                    to_process Hfilter) as Hc.
      cbn zeta in Hc.
      rewrite (Permutation_length (Hfair to_process)) in Hc. subst x. lia.
    + apply process_source_file, Hfilter.
  - intros worlds1 worlds2 as_completed1 as_completed2 source_dir m
           workers1 limit1 workers2 limit2 Hf1 Hf2 Hd Hk1 Hk2.
    exact (sources_two_runs json_loads source_dir worlds1 worlds2
             as_completed1 as_completed2 m workers1 limit1 workers2 limit2
             Hf1 Hf2 Hd Hk1 Hk2).
Qed.

(** C5 as stated fails on two counts. A catalog may list one GIF under two
    of the legacy hosts, which [fix_tumblr_url] maps to one URL: both lines
    are scheduled and both records carry that URL, so that the output of
    two runs with resume holds it twice. And a response of the service may
    carry a ["url"] of its own, which replaces the URL of the GIF in the
    record: two GIFs with distinct URLs are then recorded under one, and
    since that one is not theirs the second run processes both again. *)
Lemma C5_counterexample :
  (let x1 := DescribeGifs.main Samples.sample_loads
               (fun _ => Samples.online Samples.always_mood) (fun jobs => jobs)
               Samples.mirrored_catalog 0 true None in
   let x2 := DescribeGifs.main Samples.sample_loads
               (fun _ => Samples.online Samples.always_mood) (fun jobs => jobs)
               Samples.mirrored_catalog 0 true (DescribeGifs.output_file x1) in
   exists f,
     DescribeGifs.output_file x2 = Some f /\
     identities "url" f
       = Ret [KStr "https://64.media.tumblr.com/cat.gif";
              KStr "https://64.media.tumblr.com/cat.gif"] /\
     ~ (exists ks, identities "url" f = Ret ks /\ NoDup ks)) /\
  (let x1 := DescribeGifs.main_loaded Samples.url_loads
               (fun _ => Samples.online Samples.always_url) (fun jobs => jobs)
               [Samples.cat_gif; Samples.bird_gif] true None in
   let x2 := DescribeGifs.main_loaded Samples.url_loads
               (fun _ => Samples.online Samples.always_url) (fun jobs => jobs)
               [Samples.cat_gif; Samples.bird_gif] true
               (DescribeGifs.output_file x1) in
   NoDup (DescribeGifs.url <$> [Samples.cat_gif; Samples.bird_gif]) /\
   exists f,
     DescribeGifs.output_file x2 = Some f /\
     ~ (exists ks, identities "url" f = Ret ks /\ NoDup ks)).
Proof.
  assert (Hdup : forall (k : key) ks, ~ NoDup (k :: k :: ks)).
  { intros k ks H. apply NoDup_cons in H as [H _]. apply H, list_elem_of_here. }
  split.
  - intros x1 x2. eexists. split; [vm_compute; reflexivity |].
    split; [vm_compute; reflexivity |].
    intros (ks & Hks & Hnd). vm_compute in Hks. injection Hks as <-.
    exact (Hdup _ _ Hnd).
  - intros x1 x2. split.
    + apply NoDup_cons. split.
      * intros H. apply list_elem_of_singleton in H. discriminate H.
      * apply NoDup_singleton.
    + eexists. split; [vm_compute; reflexivity |].
      intros (ks & Hks & Hnd). vm_compute in Hks. injection Hks as <-.
      exact (Hdup _ _ Hnd).
Qed.

(** *** When records keep the identity of their item *)

Section KeepsIdentity.

Variable json_loads : string -> option json.

Lemma attempts_value (w : DescribeGifs.world) (frames : list bytes)
    (retries : Z) (n : nat) (attempt : Z) (v : json)
    (printed : list DescribeGifs.log_line) :
  DescribeGifs.attempts json_loads w frames retries n attempt = (v, printed) ->
  v = JNull \/ exists text, json_loads text = Some v.
Proof.
  revert attempt printed. induction n as [| n IH]; intros attempt printed; simpl.
  - intros [= <- _]. left. reflexivity.
  - destruct (DescribeGifs.generate_content w frames attempt) as [text | e].
    2:{ intros [= <- _]. left. reflexivity. }
    destruct (json_loads (DescribeGifs._clean_json_text text)) as [v' |] eqn:Hp.
    + intros [= <- _]. right. eexists. exact Hp.
    + destruct (DescribeGifs.attempts json_loads w frames retries n (attempt + 1))
        as [v' later] eqn:Hrest.
      intros [= <- _]. eapply IH. exact Hrest.
Qed.

(** The TGIF records keep the URL of their GIF as long as no response
    parses to an object with a ["url"]. *)
Lemma tgif_keeps_identity_intro (worlds : nat -> DescribeGifs.world) :
  (forall text d, json_loads text = Some (JObj d) -> d !! "url" = None) ->
  tgif_keeps_identity json_loads worlds.
Proof.
  intros Hno i g record printed. unfold DescribeGifs.process_gif.
  destruct (DescribeGifs.download_gif (worlds i) (DescribeGifs.url g))
    as [[data |] printed0]; [| discriminate].
  destruct (DescribeGifs.describe_gif_from_data json_loads (worlds i) data 1)
    as [descriptions printed1] eqn:Hdesc.
  destruct (truthy descriptions) eqn:Htruthy; [| discriminate].
  destruct descriptions as [| | | | | d]; try discriminate.
  intros [= <- _].
  assert (Hd : d !! "url" = None).
  { unfold DescribeGifs.describe_gif_from_data in Hdesc.
    destruct (DescribeGifs.extract_frames _ _ _ _) as [frames |];
      [| discriminate].
    apply attempts_value in Hdesc as [[=] | [text Htext]].
    eapply Hno. exact Htext. }
  unfold DescribeGifs.result_record.
  rewrite lookup_union_r by exact Hd. apply lookup_insert_eq.
Qed.

(** The same for the manifest-driven engine and ["id"]. *)
Lemma sources_keeps_identity_intro (worlds : nat -> DescribeSources.world)
    (source_dir : string) :
  (forall text d, json_loads text = Some (JObj d) -> d !! "id" = None) ->
  sources_keeps_identity json_loads worlds source_dir.
Proof.
  intros Hno pos item record printed. unfold DescribeSources.describe_item.
  assert (Hh : forall mk r p,
            DescribeSources.handler item mk = (Ret (Some r), p) -> False).
  { intros mk r p. unfold DescribeSources.handler.
    destruct (item !! "id"); discriminate. }
  destruct (item !! "local_file") as [[| | | name | |] |]; try discriminate.
  destruct (negb _); [discriminate |].
  destruct (DescribeSources.extract_frames _ _ _) as [frames |];
    [| intros H; destruct (Hh _ _ _ H)].
  destruct (DescribeSources.generate_content _ _ _) as [text |];
    [| intros H; destruct (Hh _ _ _ H)].
  destruct (json_loads (DescribeSources.clean text)) as [desc |] eqn:Hp;
    [| intros H; destruct (Hh _ _ _ H)].
  destruct (DescribeSources.result_record item desc) as [rec |] eqn:Hrec;
    [| intros H; destruct (Hh _ _ _ H)].
  intros [= <- _]. unfold DescribeSources.result_record in Hrec.
  unfold subscript in Hrec.
  destruct (item !! "id") as [id |]; [| discriminate]. cbn [bind] in Hrec.
  destruct (item !! "original_url") as [u |]; [| discriminate].
  cbn [bind] in Hrec. destruct desc as [| | | | | d]; try discriminate.
  injection Hrec as <-.
  rewrite lookup_union_r by (eapply Hno; exact Hp). apply lookup_insert_eq.
Qed.

End KeepsIdentity.

Lemma sample_loads_no_identity (text : string) (d : gmap string json) :
  Samples.sample_loads text = Some (JObj d) ->
  d !! "url" = None /\ d !! "id" = None.
Proof.
  unfold Samples.sample_loads. destruct (String.eqb text Samples.mood_text);
    [| discriminate].
  intros [= <-]. split; reflexivity.
Qed.

(** C5 on two runs over a catalog of two GIFs: the first run describes the
    dog and fails on the cat; the second skips the dog and describes the
    cat; the file holds each once. *)
Lemma C5_skip_policy_and_resume_witness :
  let x1 := DescribeGifs.main_loaded Samples.sample_loads
              Samples.first_job_unlucky (fun jobs => jobs)
              [Samples.cat_gif; Samples.dog_gif] true None in
  let x2 := DescribeGifs.main_loaded Samples.sample_loads
              (fun _ => Samples.online Samples.always_mood) (fun jobs => jobs)
              [Samples.cat_gif; Samples.dog_gif] true
              (DescribeGifs.output_file x1) in
  DescribeGifs.success (DescribeGifs.last x1) = 1 /\
  DescribeGifs.failed (DescribeGifs.last x1) = 1 /\
  DescribeGifs.success (DescribeGifs.last x2) = 1 /\
  DescribeGifs.failed (DescribeGifs.last x2) = 0 /\
  exists f,
    DescribeGifs.output_file x2 = Some f /\
    identities "url" f
      = Ret [KStr Samples.dog_url; KStr "https://64.media.tumblr.com/cat.gif"] /\
    exists ks, identities "url" f = Ret ks /\ NoDup ks.
Proof.
  intros x1 x2.
  split; [vm_compute; reflexivity |]. split; [vm_compute; reflexivity |].
  split; [vm_compute; reflexivity |]. split; [vm_compute; reflexivity |].
  eexists. split; [vm_compute; reflexivity |].
  split; [vm_compute; reflexivity |].
  refine (proj1 (proj2 (C5_skip_policy_and_resume Samples.sample_loads))
            Samples.first_job_unlucky
            (fun _ => Samples.online Samples.always_mood)
            (fun jobs => jobs) (fun jobs => jobs)
            [Samples.cat_gif; Samples.dog_gif] _ _ _ _ _ _ _).
  - intros jobs. reflexivity.
  - intros jobs. reflexivity.
  - apply NoDup_cons. split.
    + intros H. apply list_elem_of_singleton in H. discriminate H.
    + apply NoDup_singleton.
  - apply tgif_keeps_identity_intro. intros text d H.
    exact (proj1 (sample_loads_no_identity text d H)).
  - apply tgif_keeps_identity_intro. intros text d H.
    exact (proj1 (sample_loads_no_identity text d H)).
  - vm_compute. reflexivity.
Defined.

(** ** The completion order does not matter to the totals *)

Section Tally.

Import DescribeGifs.

Lemma count_of_cons {A} (counted : A -> tally) (t : tally) (r : A)
    (results : list A) :
  count_of counted t (r :: results)
  = (if decide (counted r = t) then 1 else 0) + count_of counted t results.
Proof.
  unfold count_of. rewrite filter_cons. destruct (decide (counted r = t));
    simpl; lia.
Qed.

Lemma count_of_Permutation {A} (counted : A -> tally) (t : tally)
    (l1 l2 : list A) :
  l1 ≡ₚ l2 -> count_of counted t l1 = count_of counted t l2.
Proof. intros H. unfold count_of. rewrite H. reflexivity. Qed.

(** When no job raises, each counter moves by the number of results of its
    kind: every completed job is counted once, under one counter. *)
Lemma tgif_loop_tally (total : Z) (results : list job_result) (s : run_state) :
  let s' := run_steps (completion_loop total (Ret <$> results)).1 s in
  success s' = success s + count_of tgif_counted Counted_success results /\
  failed s' = failed s + count_of tgif_counted Counted_failed results /\
  removed s' = removed s + count_of tgif_counted Counted_removed results.
Proof.
  revert s. induction results as [| result results IH]; intros s; cbn zeta.
  - unfold count_of. simpl. lia.
  - cbn [fmap list_fmap completion_loop].
    destruct (completion_loop total (Ret <$> results)) as [steps e] eqn:Hloop.
    cbn [fst]. unfold run_steps. rewrite fold_left_app.
    fold (run_steps (critical_section total result) s).
    set (s1 := run_steps _ s).
    assert (H1 : success s1 = success s
                   + (if decide (tgif_counted result = Counted_success)
                      then 1 else 0) /\
                 failed s1 = failed s
                   + (if decide (tgif_counted result = Counted_failed)
                      then 1 else 0) /\
                 removed s1 = removed s
                   + (if decide (tgif_counted result = Counted_removed)
                      then 1 else 0)).
    { subst s1. unfold critical_section, report, tgif_counted.
      destruct result as [record | |];
        [destruct (truthy (JObj record)) |..];
        cbn [app run_steps fold_left];
        destruct (_ || _); simpl; lia. }
    specialize (IH s1). cbn zeta in IH. cbn [fst] in IH.
    unfold run_steps in IH. rewrite !count_of_cons. lia.
Qed.

(** Two completion orders of the same results end with the same counters
    and with the same records in the file, up to their order. *)
Lemma tgif_order_independent (total : Z) (results1 results2 : list job_result)
    (s : run_state) :
  results1 ≡ₚ results2 ->
  buffer s = [] ->
  let s1 := run_steps (completion_loop total (Ret <$> results1)).1 s in
  let s2 := run_steps (completion_loop total (Ret <$> results2)).1 s in
  success s1 = success s2 /\ failed s1 = failed s2 /\ removed s1 = removed s2 /\
  flushed s1 ≡ₚ flushed s2.
Proof.
  intros Hperm Hb s1 s2.
  destruct (tgif_loop_tally total results1 s) as (Hs1 & Hf1 & Hr1).
  destruct (tgif_loop_tally total results2 s) as (Hs2 & Hf2 & Hr2).
  fold s1 in Hs1, Hf1, Hr1. fold s2 in Hs2, Hf2, Hr2.
  rewrite Hs1, Hf1, Hr1, Hs2, Hf2, Hr2.
  rewrite !(count_of_Permutation tgif_counted _ _ _ Hperm).
  repeat (split; [reflexivity |]).
  destruct (tgif_loop_written total (Ret <$> results1) s Hb) as [_ Hw1].
  destruct (tgif_loop_written total (Ret <$> results2) s Hb) as [_ Hw2].
  fold s1 in Hw1. fold s2 in Hw2. rewrite Hw1, Hw2.
  apply Permutation_app_head.
  clear -Hperm. induction Hperm as [| r l1 l2 _ IH | r r' l | l1 l2 l3 _ IH1 _ IH2].
  - reflexivity.
  - cbn [fmap list_fmap tgif_written].
    destruct r; [apply Permutation_app_head |..]; exact IH.
  - cbn [fmap list_fmap tgif_written].
    destruct r, r'; rewrite ?app_assoc; try reflexivity.
    apply Permutation_app_tail, Permutation_app_comm.
  - etransitivity; eassumption.
Qed.

End Tally.

Section SourcesTally.

Import DescribeSources.

(** The same in the manifest-driven engine: when no job raises, each of
    the two counters moves by the number of results of its kind. *)
Lemma sources_loop_tally (name : string) (total : Z)
    (results : list (nat * option (gmap string json))) (s : run_state) :
  let s' := run_steps
              (completion_loop name total
                 ((fun r => (r.1, Ret r.2)) <$> results)).1 s in
  success s' = success s
               + count_of (fun r => sources_counted r.2) Counted_success results /\
  failed s' = failed s
              + count_of (fun r => sources_counted r.2) Counted_failed results.
Proof.
  revert s. induction results as [| [pos result] results IH]; intros s;
    cbn zeta.
  - unfold count_of. simpl. lia.
  - cbn [fmap list_fmap completion_loop fst snd].
    destruct (completion_loop name total _) as [steps e] eqn:Hloop.
    cbn [fst]. unfold run_steps. rewrite fold_left_app.
    fold (run_steps (critical_section name total pos result) s).
    set (s1 := run_steps _ s).
    assert (H1 : success s1 = success s
                   + (if decide (sources_counted result = Counted_success)
                      then 1 else 0) /\
                 failed s1 = failed s
                   + (if decide (sources_counted result = Counted_failed)
                      then 1 else 0)).
    { subst s1. unfold critical_section, report, sources_counted.
      destruct result as [record |];
        [destruct (truthy (JObj record)) |];
        cbn [app run_steps fold_left];
        destruct (_ || _); simpl; lia. }
    specialize (IH s1). cbn zeta in IH. cbn [fst] in IH.
    unfold run_steps in IH. rewrite !count_of_cons. cbn [snd]. lia.
Qed.

End SourcesTally.

(** * Further properties of the two scripts *)

(** ** Strings *)

Lemma prefix_inv (a s : string) :
  String.prefix a s = true -> exists b, s = a +:+ b.
Proof.
  revert s. induction a as [| c a IH]; intros s.
  - intros _. exists s. reflexivity.
  - destruct s as [| c' s]; simpl; [discriminate |].
    destruct (Ascii.ascii_dec c c') as [<- | _]; [| discriminate].
    intros H. destruct (IH s H) as [b ->]. exists b. reflexivity.
Qed.

Lemma prefix_nil (s : string) : String.prefix "" s = true.
Proof. destruct s; reflexivity. Qed.

Lemma prefix_cons (c c' : Ascii.ascii) (a s : string) :
  String.prefix (String c a) (String c' s) = true <->
  c = c' /\ String.prefix a s = true.
Proof.
  simpl. destruct (Ascii.ascii_dec c c') as [-> | Hne].
  - split; [intros H; split; [reflexivity | exact H] | intros [_ H]; exact H].
  - split; [discriminate | intros [E _]; contradiction].
Qed.

Lemma append_cons (c : Ascii.ascii) (a b : string) :
  String c a +:+ b = String c (a +:+ b).
Proof. reflexivity. Qed.

Lemma append_nil_l (b : string) : "" +:+ b = b.
Proof. reflexivity. Qed.

Lemma prefix_app (a b : string) : String.prefix a (a +:+ b) = true.
Proof.
  induction a as [| c a IH]; [apply prefix_nil |].
  rewrite append_cons. apply prefix_cons. split; [reflexivity | exact IH].
Qed.

Lemma append_assoc (a b c : string) : (a +:+ b) +:+ c = a +:+ (b +:+ c).
Proof.
  induction a as [| x a IH]; [reflexivity |].
  rewrite !append_cons, IH. reflexivity.
Qed.

Lemma append_nil_r (a : string) : a +:+ "" = a.
Proof.
  induction a as [| x a IH]; [reflexivity |].
  rewrite append_cons, IH. reflexivity.
Qed.

Lemma length_append (a b : string) :
  String.length (a +:+ b) = (String.length a + String.length b)%nat.
Proof.
  induction a as [| x a IH]; [reflexivity |].
  rewrite append_cons. simpl. rewrite IH. reflexivity.
Qed.

Lemma prefix_length (a s : string) :
  String.prefix a s = true -> (String.length a <= String.length s)%nat.
Proof.
  intros H. apply prefix_inv in H as [b ->]. rewrite length_append. lia.
Qed.

Lemma contains_cons (needle : string) (c : Ascii.ascii) (s : string) :
  contains needle (String c s)
  = String.prefix needle (String c s) || contains needle s.
Proof. reflexivity. Qed.

(** [needle in s] holds exactly when [s] has [needle] as a substring. *)
Lemma contains_spec (needle s : string) :
  contains needle s = true <-> exists a b, s = a +:+ needle +:+ b.
Proof.
  split.
  - induction s as [| c s IH].
    + change (contains needle "") with (String.prefix needle "" || false).
      rewrite orb_false_r. intros H. apply prefix_inv in H as [b ->].
      exists "", b. reflexivity.
    + rewrite contains_cons. intros H. apply orb_true_iff in H as [H | H].
      * apply prefix_inv in H as [b ->]. exists "", b. reflexivity.
      * destruct (IH H) as (a & b & ->). exists (String c a), b. reflexivity.
  - intros (a & b & ->). induction a as [| c a IH].
    + rewrite append_nil_l.
      destruct (needle +:+ b) eqn:E.
      * change (contains needle "") with (String.prefix needle "" || false).
        rewrite orb_false_r, <- E. apply prefix_app.
      * rewrite contains_cons, <- E, prefix_app. reflexivity.
    + rewrite append_cons, contains_cons, IH. apply orb_true_r.
Qed.

(** *** [str.replace] *)

Lemma replace_from_absent (old new s : string) :
  contains old s = false -> replace_from old new 0 s = s.
Proof.
  induction s as [| c s IH]; [reflexivity |].
  rewrite contains_cons. intros H. apply orb_false_iff in H as [Hp Hc].
  cbn [replace_from]. rewrite Hp, (IH Hc). reflexivity.
Qed.

Lemma replace_from_length (old new : string) (s : string) (skip : nat) :
  String.length new = String.length old -> old <> "" ->
  (skip <= String.length s)%nat ->
  String.length (replace_from old new skip s) = (String.length s - skip)%nat.
Proof.
  intros Hlen Hne. revert skip.
  induction s as [| c s IH]; intros skip Hskip.
  - simpl in *. lia.
  - destruct skip as [| k]; cbn [replace_from].
    + destruct (String.prefix old (String c s)) eqn:Hp.
      * apply prefix_length in Hp. simpl in Hp.
        assert (0 < String.length old)%nat
          by (destruct old; [contradiction | simpl; lia]).
        rewrite length_append, IH by lia. simpl. lia.
      * simpl. rewrite IH by lia. lia.
    + simpl in Hskip. rewrite IH by lia. simpl. lia.
Qed.

(** Characters of a string. *)
Lemma mem_char_append (c : Ascii.ascii) (a b : string) :
  mem_char c (a +:+ b) = mem_char c a || mem_char c b.
Proof.
  induction a as [| x a IH]; [reflexivity |].
  rewrite append_cons. simpl. rewrite IH, orb_assoc. reflexivity.
Qed.

(** Replacing in front of a text what the needle cannot start in does not
    create an occurrence of the needle. *)
Lemma contains_append_foreign (needle : string) (c0 : Ascii.ascii)
    (needle' new r : string) :
  needle = String c0 needle' -> mem_char c0 new = false ->
  contains needle r = false -> contains needle (new +:+ r) = false.
Proof.
  intros -> Hnew Hr. induction new as [| c new IH]; [exact Hr |].
  simpl in Hnew. apply orb_false_iff in Hnew as [Hc Hnew].
  rewrite append_cons, contains_cons, (IH Hnew), orb_false_r.
  destruct (String.prefix (String c0 needle') (String c (new +:+ r))) eqn:Hp;
    [| reflexivity].
  apply prefix_cons in Hp as [-> _].
  rewrite Ascii.eqb_refl in Hc. discriminate.
Qed.

(** A text free of the first character of [new] that starts the result of
    a replacement starts the original too. *)
Lemma prefix_replace_from (old new' q s : string) (n0 : Ascii.ascii) :
  mem_char n0 q = false ->
  String.prefix q (replace_from old (String n0 new') 0 s) = true ->
  String.prefix q s = true.
Proof.
  revert q. induction s as [| c s IH]; intros q Hq; [trivial |].
  destruct q as [| x q]; [intros _; reflexivity |].
  simpl in Hq. apply orb_false_iff in Hq as [Hx Hq].
  cbn [replace_from].
  destruct (String.prefix old (String c s)) eqn:Hp.
  - rewrite append_cons. intros H. apply prefix_cons in H as [-> _].
    rewrite Ascii.eqb_refl in Hx. discriminate.
  - intros H. apply prefix_cons in H as [-> H].
    apply prefix_cons. split; [reflexivity | exact (IH q Hq H)].
Qed.

(** After a replacement no occurrence of a needle is left that was not
    there before, provided the needle and the new text cannot overlap. *)
Lemma replace_from_keeps_absent (old new' needle' s : string)
    (n0 c0 : Ascii.ascii) (skip : nat) :
  mem_char n0 (String c0 needle') = false ->
  mem_char c0 (String n0 new') = false ->
  contains (String c0 needle') s = false ->
  contains (String c0 needle') (replace_from old (String n0 new') skip s) = false.
Proof.
  intros Hn Hc. revert skip.
  induction s as [| c s IH]; intros skip Hs; [exact Hs |].
  rewrite contains_cons in Hs. apply orb_false_iff in Hs as [Hp Hs].
  destruct skip as [| k]; cbn [replace_from]; [| exact (IH k Hs)].
  destruct (String.prefix old (String c s)) eqn:Hold.
  - eapply contains_append_foreign; [reflexivity | exact Hc | exact (IH _ Hs)].
  - rewrite contains_cons, (IH 0%nat Hs), orb_false_r.
    destruct (String.prefix (String c0 needle')
                (String c (replace_from old (String n0 new') 0 s))) eqn:Hq;
      [| reflexivity].
    rewrite <- Hp. symmetry.
    apply (prefix_replace_from old new' _ (String c s) n0 Hn).
    cbn [replace_from]. rewrite Hold. exact Hq.
Qed.

(** After a replacement no occurrence of the replaced text is left. *)
Lemma replace_from_removes (old' new' s : string) (n0 c0 : Ascii.ascii)
    (skip : nat) :
  mem_char n0 (String c0 old') = false ->
  mem_char c0 (String n0 new') = false ->
  contains (String c0 old')
    (replace_from (String c0 old') (String n0 new') skip s) = false.
Proof.
  intros Hn Hc. revert skip.
  induction s as [| c s IH]; intros skip.
  - simpl. reflexivity.
  - destruct skip as [| k]; cbn [replace_from]; [| exact (IH k)].
    destruct (String.prefix (String c0 old') (String c s)) eqn:Hold.
    + eapply contains_append_foreign; [reflexivity | exact Hc | exact (IH _)].
    + rewrite contains_cons, (IH 0%nat), orb_false_r.
      destruct (String.prefix (String c0 old')
                  (String c (replace_from (String c0 old') (String n0 new') 0 s)))
        eqn:Hq; [| reflexivity].
      rewrite <- Hold. symmetry.
      apply (prefix_replace_from (String c0 old') new' _ (String c s) n0 Hn).
      cbn [replace_from]. rewrite Hold. exact Hq.
Qed.

(** ** describe_gifs.py: [fix_tumblr_url] *)

Lemma fix_tumblr_url_unfold (u : string) :
  DescribeGifs.fix_tumblr_url u
  = replace "31.media.tumblr.com" "64.media.tumblr.com"
      (replace "33.media.tumblr.com" "64.media.tumblr.com"
         (replace "38.media.tumblr.com" "64.media.tumblr.com" u)).
Proof. reflexivity. Qed.

(** X1. A URL in which none of the three legacy hosts occurs is returned
    as it is. *)
Theorem fix_tumblr_url_unchanged (u : string) :
  Forall (fun host => contains host u = false) LEGACY_HOSTS ->
  DescribeGifs.fix_tumblr_url u = u.
Proof.
  intros H. unfold LEGACY_HOSTS in H.
  apply Forall_cons in H as [H38 H]. apply Forall_cons in H as [H33 H].
  apply Forall_cons in H as [H31 _].
  rewrite fix_tumblr_url_unfold. unfold replace.
  rewrite (replace_from_absent _ _ _ H38), (replace_from_absent _ _ _ H33).
  exact (replace_from_absent _ _ _ H31).
Qed.

Lemma fix_tumblr_url_unchanged_witness :
  DescribeGifs.fix_tumblr_url "https://64.media.tumblr.com/cat.gif"
  = "https://64.media.tumblr.com/cat.gif".
Proof.
  apply fix_tumblr_url_unchanged. unfold LEGACY_HOSTS.
  repeat (apply List.Forall_cons; [vm_compute; reflexivity |]).
  apply List.Forall_nil.
Defined.

(** The rewriting keeps the length of the URL: every legacy host is
    replaced by a host of the same length. *)
Lemma fix_tumblr_url_length (u : string) :
  String.length (DescribeGifs.fix_tumblr_url u) = String.length u.
Proof.
  rewrite fix_tumblr_url_unfold. unfold replace.
  rewrite !replace_from_length; try reflexivity; try discriminate; lia.
Qed.

(** X2. No legacy host is left in the result, whatever the URL, so that
    rewriting a second time changes nothing. *)
Theorem fix_tumblr_url_idempotent (u : string) :
  Forall (fun host => contains host (DescribeGifs.fix_tumblr_url u) = false)
         LEGACY_HOSTS /\
  DescribeGifs.fix_tumblr_url (DescribeGifs.fix_tumblr_url u)
  = DescribeGifs.fix_tumblr_url u.
Proof.
  assert (H : Forall (fun host =>
                contains host (DescribeGifs.fix_tumblr_url u) = false)
              LEGACY_HOSTS).
  { rewrite fix_tumblr_url_unfold. unfold replace, LEGACY_HOSTS.
    repeat apply List.Forall_cons; [| | | apply List.Forall_nil].
    - apply replace_from_keeps_absent; [reflexivity | reflexivity |].
      apply replace_from_keeps_absent; [reflexivity | reflexivity |].
      apply replace_from_removes; reflexivity.
    - apply replace_from_keeps_absent; [reflexivity | reflexivity |].
      apply replace_from_removes; reflexivity.
    - apply replace_from_removes; reflexivity. }
  split; [exact H | exact (fix_tumblr_url_unchanged _ H)].
Qed.

(** ** describe_gifs.py: [load_gifs] *)

(** [str.strip] leaves nothing to strip at either end. *)
Lemma lstrip_head (s : string) (c : Ascii.ascii) (r : string) :
  lstrip s = String c r -> isspace c = false.
Proof.
  induction s as [| x s IH]; [discriminate |].
  simpl. destruct (isspace x) eqn:Hx; [exact IH |].
  intros E. injection E as -> _. exact Hx.
Qed.

Lemma rstrip_head (s : string) (c : Ascii.ascii) (r : string) :
  isspace c = false -> exists r', rstrip (String c s) = String c r'.
Proof.
  intros Hc. cbn [rstrip]. destruct (rstrip s); [rewrite Hc |]; eauto.
Qed.

Lemma strip_head (s : string) (c : Ascii.ascii) (r : string) :
  strip s = String c r -> isspace c = false.
Proof.
  unfold strip. destruct (lstrip s) as [| x t] eqn:E; [discriminate |].
  pose proof (lstrip_head _ _ _ E) as Hx.
  destruct (rstrip_head t x t Hx) as [r' ->].
  intros E'. injection E' as -> _. exact Hx.
Qed.

(** What [rstrip] returns does not end in white space. *)
Lemma rstrip_last (s a : string) (c : Ascii.ascii) :
  rstrip s = a +:+ String c "" -> isspace c = false.
Proof.
  revert a. induction s as [| x s IH]; intros a.
  - destruct a; discriminate.
  - cbn [rstrip]. destruct (rstrip s) as [| y t] eqn:E.
    + destruct (isspace x) eqn:Hx; [destruct a; discriminate |].
      destruct a as [| z a]; [| destruct a; discriminate].
      intros E'. injection E' as ->. exact Hx.
    + destruct a as [| z a].
      * rewrite append_nil_l. discriminate.
      * rewrite append_cons. intros E'. injection E' as _ E'.
        exact (IH a E').
Qed.

Lemma isspace_tab : isspace (Ascii.ascii_of_nat 9) = true.
Proof. reflexivity. Qed.

(** [split_tab] cuts at a tab. *)
Lemma split_tab_spec (s u d : string) :
  split_tab s = Some (u, d) -> s = u +:+ String (Ascii.ascii_of_nat 9) d.
Proof.
  revert u. induction s as [| c s IH]; intros u; [discriminate |].
  cbn [split_tab]. destruct (Ascii.nat_of_ascii c =? 9)%nat eqn:Hc.
  - intros E. injection E as <- <-. rewrite append_nil_l.
    apply Nat.eqb_eq in Hc. rewrite <- Hc, Ascii.ascii_nat_embedding.
    reflexivity.
  - destruct (split_tab s) as [[b a] |]; [| discriminate].
    intros E. injection E as <- <-. rewrite append_cons, (IH b eq_refl).
    reflexivity.
Qed.

(** Both parts of a stripped line cut at its first tab hold something. *)
Lemma split_tab_strip (l u d : string) :
  split_tab (strip l) = Some (u, d) -> u <> "" /\ d <> "".
Proof.
  intros H. apply split_tab_spec in H. split; intros ->.
  - rewrite append_nil_l in H. apply strip_head in H.
    rewrite isspace_tab in H. discriminate.
  - unfold strip in H. apply rstrip_last in H.
    rewrite isspace_tab in H. discriminate.
Qed.

Lemma load_gifs_from_all (lines : list string) (gifs : list DescribeGifs.gif) :
  DescribeGifs.load_gifs_from lines 0 gifs
  = gifs ++ DescribeGifs.load_gifs_from lines 0 [].
Proof.
  revert gifs. induction lines as [| l lines IH]; intros gifs.
  - simpl. rewrite app_nil_r. reflexivity.
  - cbn [DescribeGifs.load_gifs_from].
    destruct (split_tab (strip l)) as [[u d] |]; [| apply IH].
    change (negb (0 =? 0)) with false. cbn [andb].
    rewrite IH, (IH ([] ++ _)), app_assoc. reflexivity.
Qed.

Lemma load_gifs_from_limit (lines : list string) (limit : Z)
    (gifs : list DescribeGifs.gif) :
  0 < limit -> Z.of_nat (length gifs) < limit ->
  DescribeGifs.load_gifs_from lines limit gifs
  = gifs ++ take (Z.to_nat limit - length gifs)
                 (DescribeGifs.load_gifs_from lines 0 []).
Proof.
  intros Hlimit. revert gifs.
  induction lines as [| l lines IH]; intros gifs Hlen.
  - simpl. rewrite take_nil, app_nil_r. reflexivity.
  - cbn [DescribeGifs.load_gifs_from].
    destruct (split_tab (strip l)) as [[u d] |]; [| apply IH; exact Hlen].
    change (negb (0 =? 0)) with false. cbn [andb].
    rewrite (load_gifs_from_all lines ([] ++ _)).
    replace (negb (limit =? 0)) with true
      by (symmetry; apply negb_true_iff, Z.eqb_neq; lia).
    cbn [andb app]. rewrite length_app. cbn [length].
    destruct (Z.to_nat limit - length gifs)%nat as [| n] eqn:En; [lia |].
    cbn [take]. destruct (limit <=? Z.of_nat (length gifs + 1)) eqn:Hle.
    + apply Z.leb_le in Hle. replace n with 0%nat by lia.
      rewrite take_0. reflexivity.
    + apply Z.leb_gt in Hle. rewrite IH by (rewrite length_app; simpl; lia).
      rewrite length_app. cbn [length].
      replace (Z.to_nat limit - (length gifs + 1))%nat with n by lia.
      rewrite <- app_assoc. reflexivity.
Qed.

(** X3. With a positive [limit], [load_gifs] returns the first [limit]
    entries of what it returns without a limit ([limit = 0]): the limit
    counts loaded entries, not lines of the file. *)
Theorem load_gifs_limit (tsv : list string) (limit : Z) :
  0 < limit ->
  DescribeGifs.load_gifs tsv limit
  = take (Z.to_nat limit) (DescribeGifs.load_gifs tsv 0).
Proof.
  intros H. unfold DescribeGifs.load_gifs.
  rewrite load_gifs_from_limit by (simpl; lia).
  simpl. rewrite Nat.sub_0_r. reflexivity.
Qed.

Lemma load_gifs_limit_witness :
  DescribeGifs.load_gifs ["a" +:+ Samples.tab +:+ "x"; "no tab";
                          "b" +:+ Samples.tab +:+ "y";
                          "c" +:+ Samples.tab +:+ "z"] 2
  = take 2 (DescribeGifs.load_gifs
              ["a" +:+ Samples.tab +:+ "x"; "no tab";
               "b" +:+ Samples.tab +:+ "y";
               "c" +:+ Samples.tab +:+ "z"] 0).
Proof. apply (load_gifs_limit _ 2). lia. Defined.

(** X4. A negative [limit] is not "no limit": the loop stops after the
    first entry it loads. *)
Theorem load_gifs_negative_limit (tsv : list string) (limit : Z) :
  limit < 0 ->
  DescribeGifs.load_gifs tsv limit = take 1 (DescribeGifs.load_gifs tsv 0).
Proof.
  intros H. unfold DescribeGifs.load_gifs.
  induction tsv as [| l tsv IH]; [reflexivity |].
  cbn [DescribeGifs.load_gifs_from].
  destruct (split_tab (strip l)) as [[u d] |]; [| exact IH].
  change (negb (0 =? 0)) with false. cbn [andb app length].
  replace (negb (limit =? 0)) with true
    by (symmetry; apply negb_true_iff, Z.eqb_neq; lia).
  replace (limit <=? Z.of_nat 1) with true by (symmetry; apply Z.leb_le; lia).
  cbn [andb]. rewrite (load_gifs_from_all tsv [_]). reflexivity.
Qed.

Lemma load_gifs_negative_limit_witness :
  DescribeGifs.load_gifs ["a" +:+ Samples.tab +:+ "x";
                          "b" +:+ Samples.tab +:+ "y"] (-1)
  = take 1 (DescribeGifs.load_gifs
              ["a" +:+ Samples.tab +:+ "x"; "b" +:+ Samples.tab +:+ "y"] 0).
Proof. apply load_gifs_negative_limit. lia. Defined.

Lemma load_gifs_from_Forall (P : DescribeGifs.gif -> Prop)
    (lines : list string) (limit : Z) (gifs : list DescribeGifs.gif) :
  (forall l u d, l ∈ lines -> split_tab (strip l) = Some (u, d) ->
     P {| DescribeGifs.url := DescribeGifs.fix_tumblr_url u;
          DescribeGifs.original_description := d |}) ->
  Forall P gifs ->
  Forall P (DescribeGifs.load_gifs_from lines limit gifs).
Proof.
  revert gifs. induction lines as [| l lines IH]; intros gifs Hl Hg; [exact Hg |].
  cbn [DescribeGifs.load_gifs_from].
  assert (Hl' : forall l0 u d, l0 ∈ lines -> split_tab (strip l0) = Some (u, d) ->
            P {| DescribeGifs.url := DescribeGifs.fix_tumblr_url u;
                 DescribeGifs.original_description := d |})
    by (intros l0 u d Hin; apply Hl; right; exact Hin).
  destruct (split_tab (strip l)) as [[u d] |] eqn:E; [| exact (IH _ Hl' Hg)].
  assert (Hg' : Forall P (gifs ++
            [{| DescribeGifs.url := DescribeGifs.fix_tumblr_url u;
                DescribeGifs.original_description := d |}])).
  { apply Forall_app. split; [exact Hg |].
    apply List.Forall_cons; [| apply List.Forall_nil].
    apply (Hl l); [left | exact E]. }
  destruct (_ && _); [exact Hg' | exact (IH _ Hl' Hg')].
Qed.

(** X5. Every entry loaded has a URL and a description that are not
    empty: a line that, once stripped, holds nothing before or nothing
    after its first tab is skipped like a line without a tab. *)
Theorem load_gifs_fields_not_empty (tsv : list string) (limit : Z) :
  Forall (fun g => DescribeGifs.url g <> ""
                   /\ DescribeGifs.original_description g <> "")
         (DescribeGifs.load_gifs tsv limit).
Proof.
  apply load_gifs_from_Forall; [| apply List.Forall_nil].
  intros l u d _ E. apply split_tab_strip in E as [Hu Hd].
  split; [| exact Hd]. cbn [DescribeGifs.url]. intros E.
  apply (f_equal String.length) in E. rewrite fix_tumblr_url_length in E.
  destruct u; [contradiction | discriminate].
Qed.

(** ** describe_gifs.py: the limit and the resume filter *)

Section TgifLimit.

Import DescribeGifs.

Variable json_loads : string -> option json.
Variable worlds : nat -> world.
Variable as_completed : list (nat * gif) -> list (nat * gif).

(** X6. [--limit] cuts the catalog before the resume filter is applied:
    a resumed run works on those of the first [limit] entries that are
    not recorded yet, and once all of these are recorded it finds nothing
    to do and leaves the output file alone, however long the catalog is. *)
Theorem tgif_limit_before_resume_filter (tsv : list string) (limit : Z)
    (lines : list line) (processed_urls : gset key) :
  0 < limit ->
  load_processed true (Some lines) = Ret processed_urls ->
  Forall (fun g => KStr (url g) ∈ processed_urls)
         (take (Z.to_nat limit) (load_gifs tsv 0)) ->
  main json_loads worlds as_completed tsv limit true (Some lines)
  = {| output_file := Some lines;
       last := opened [] [Resuming (Z.of_nat (size processed_urls));
                          To_process 0; Nothing_to_do];
       uncaught := None |}.
Proof.
  intros Hlimit Hload Hknown. unfold main, main_loaded.
  rewrite (load_gifs_limit tsv limit Hlimit), Hload.
  assert (Hnone : filter_processed (take (Z.to_nat limit) (load_gifs tsv 0))
                    processed_urls = []).
  { unfold filter_processed. induction Hknown as [| g gs Hg _ IH];
      [reflexivity |].
    rewrite filter_cons_False by (intros Hn; exact (Hn Hg)). exact IH. }
  rewrite Hnone. reflexivity.
Qed.

End TgifLimit.

Lemma tgif_limit_before_resume_filter_witness :
  DescribeGifs.output_file
    (DescribeGifs.main Samples.sample_loads
       (fun _ => Samples.online Samples.always_mood) (fun jobs => jobs)
       Samples.pets_catalog 1 true (Some Samples.earlier_output))
  = Some Samples.earlier_output.
Proof.
  assert (Hload : DescribeGifs.load_processed true (Some Samples.earlier_output)
                  = Ret ({[KStr Samples.dog_url]} ∪ ∅)).
  { cbn -[union singleton]. reflexivity. }
  assert (Hknown : Forall (fun g => KStr (DescribeGifs.url g)
                                      ∈ ({[KStr Samples.dog_url]} ∪ ∅ : gset key))
                     (take (Z.to_nat 1)
                        (DescribeGifs.load_gifs Samples.pets_catalog 0))).
  { apply List.Forall_cons; [| apply List.Forall_nil].
    apply elem_of_union_l, elem_of_singleton. reflexivity. }
  exact (f_equal DescribeGifs.output_file
           (tgif_limit_before_resume_filter Samples.sample_loads
              (fun _ => Samples.online Samples.always_mood) (fun jobs => jobs)
              Samples.pets_catalog 1 Samples.earlier_output
              ({[KStr Samples.dog_url]} ∪ ∅) ltac:(lia) Hload Hknown)).
Defined.

(** ** Both scripts: the fence stripping *)

Lemma lstrip_blank_append (ws t : string) :
  blank ws = true -> lstrip (ws +:+ t) = lstrip t.
Proof.
  induction ws as [| c ws IH]; [reflexivity |].
  cbn [blank]. intros H. apply andb_true_iff in H as [Hc Hws].
  rewrite append_cons. cbn [lstrip]. rewrite Hc. exact (IH Hws).
Qed.

Lemma rstrip_cons (c : Ascii.ascii) (s : string) :
  isspace c = false -> rstrip (String c s) = String c (rstrip s).
Proof. intros Hc. cbn [rstrip]. destruct (rstrip s); [rewrite Hc |]; reflexivity. Qed.

Lemma rstrip_blank (ws : string) : blank ws = true -> rstrip ws = "".
Proof.
  induction ws as [| c ws IH]; [reflexivity |].
  cbn [blank]. intros H. apply andb_true_iff in H as [Hc Hws].
  cbn [rstrip]. rewrite (IH Hws), Hc. reflexivity.
Qed.

Lemma rstrip_append_blank (t ws : string) :
  blank ws = true -> rstrip (t +:+ ws) = rstrip t.
Proof.
  intros Hws. induction t as [| c t IH].
  - rewrite append_nil_l. exact (rstrip_blank ws Hws).
  - rewrite append_cons. cbn [rstrip]. rewrite IH. reflexivity.
Qed.

Lemma rstrip_ends_nonspace (t : string) (c : Ascii.ascii) :
  isspace c = false -> rstrip (t +:+ String c "") = t +:+ String c "".
Proof.
  intros Hc. induction t as [| x t IH].
  - rewrite append_nil_l. simpl. rewrite Hc. reflexivity.
  - rewrite append_cons. cbn [rstrip]. rewrite IH.
    destruct (t +:+ String c "") eqn:E; [| reflexivity].
    destruct t; discriminate.
Qed.

(** What [rstrip] returns is the text with white space cut off its end. *)
Lemma rstrip_prefix (s : string) : exists w, s = rstrip s +:+ w.
Proof.
  induction s as [| c s [w IH]]; [exists ""; reflexivity |].
  cbn [rstrip]. destruct (rstrip s) as [| y r] eqn:E.
  - destruct (isspace c).
    + exists (String c s). reflexivity.
    + exists w. rewrite IH at 1. reflexivity.
  - exists w. rewrite IH at 1. reflexivity.
Qed.

(** Padding with white space around a text that neither starts nor ends
    with white space is what [strip] removes. *)
Lemma strip_padded (ws1 ws2 core a r : string) (c1 c2 : Ascii.ascii) :
  blank ws1 = true -> blank ws2 = true ->
  core = String c1 r -> isspace c1 = false ->
  core = a +:+ String c2 "" -> isspace c2 = false ->
  strip (ws1 +:+ core +:+ ws2) = core.
Proof.
  intros H1 H2 Hhead Hc1 Hlast Hc2. unfold strip.
  rewrite (lstrip_blank_append _ _ H1).
  rewrite Hhead at 1. rewrite append_cons. cbn [lstrip]. rewrite Hc1.
  rewrite <- append_cons, <- Hhead, (rstrip_append_blank _ _ H2).
  rewrite Hlast. exact (rstrip_ends_nonspace a c2 Hc2).
Qed.

Lemma split_newline_not_nil (s : string) : split_newline s <> [].
Proof.
  induction s as [| c s IH]; [discriminate |].
  cbn [split_newline]. destruct (_ =? _)%nat; [discriminate |].
  destruct (split_newline s); [contradiction | discriminate].
Qed.

Lemma split_newline_append (a b : string) :
  split_newline (a +:+ newline_text +:+ b) = split_newline a ++ split_newline b.
Proof.
  induction a as [| c a IH]; [reflexivity |].
  rewrite append_cons. cbn [split_newline]. rewrite IH.
  destruct (_ =? _)%nat; [reflexivity |].
  destruct (split_newline a) eqn:E; [| reflexivity].
  exfalso. exact (split_newline_not_nil a E).
Qed.

Lemma newline_char (c : Ascii.ascii) :
  (Ascii.nat_of_ascii c =? 10)%nat = Ascii.eqb (Ascii.ascii_of_nat 10) c.
Proof.
  destruct (Ascii.eqb (Ascii.ascii_of_nat 10) c) eqn:E.
  - apply Ascii.eqb_eq in E as <-. reflexivity.
  - apply Nat.eqb_neq. intros H. apply Ascii.eqb_neq in E. apply E.
    rewrite <- H, Ascii.ascii_nat_embedding. reflexivity.
Qed.

Lemma split_newline_one_line (s : string) :
  one_line s = true -> split_newline s = [s].
Proof.
  unfold one_line. induction s as [| c s IH]; [reflexivity |].
  cbn [mem_char]. rewrite negb_orb. intros H.
  apply andb_true_iff in H as [Hc Hs].
  cbn [split_newline]. rewrite newline_char, (IH Hs).
  apply negb_true_iff in Hc. rewrite Hc. reflexivity.
Qed.

Lemma concat_cons (sep x y : string) (l : list string) :
  String.concat sep (x :: y :: l) = x +:+ sep +:+ String.concat sep (y :: l).
Proof. reflexivity. Qed.

(** Joining the lines of a text with line breaks gives the text back. *)
Lemma concat_split_newline (s : string) :
  String.concat newline_text (split_newline s) = s.
Proof.
  induction s as [| c s IH]; [reflexivity |].
  cbn [split_newline].
  destruct (Ascii.nat_of_ascii c =? 10)%nat eqn:Hc.
  - destruct (split_newline s) as [| p ps] eqn:E;
      [exfalso; exact (split_newline_not_nil s E) |].
    rewrite concat_cons, IH.
    apply Nat.eqb_eq in Hc.
    assert (c = Ascii.ascii_of_nat 10) as ->
      by (rewrite <- Hc, Ascii.ascii_nat_embedding; reflexivity).
    reflexivity.
  - destruct (split_newline s) as [| p ps] eqn:E;
      [exfalso; exact (split_newline_not_nil s E) |].
    rewrite <- IH. destruct ps; [reflexivity |].
    rewrite !concat_cons. reflexivity.
Qed.

Lemma split_newline_length_append (a b : string) :
  (length (split_newline (a +:+ b)) + 1
   = length (split_newline a) + length (split_newline b))%nat.
Proof.
  induction a as [| c a IH]; [rewrite append_nil_l; simpl; lia |].
  rewrite append_cons. cbn [split_newline].
  destruct (_ =? _)%nat.
  - cbn [length]. lia.
  - destruct (split_newline (a +:+ b)) eqn:E;
      [exfalso; exact (split_newline_not_nil _ E) |].
    destruct (split_newline a) eqn:E';
      [exfalso; exact (split_newline_not_nil _ E') |].
    cbn [length] in *. lia.
Qed.

Lemma slice_1_m1_short {A} (l : list A) :
  (length l <= 2)%nat -> slice_1_m1 l = [].
Proof.
  destruct l as [| x [| y [| z l]]]; simpl; try reflexivity; lia.
Qed.

Lemma slice_1_m1_middle {A} (x y : A) (l : list A) :
  slice_1_m1 ([x] ++ l ++ [y]) = l.
Proof. unfold slice_1_m1. simpl. apply removelast_last. Qed.

Lemma fence_head (x : string) :
  "```" +:+ x = String (Ascii.ascii_of_nat 96) ("``" +:+ x).
Proof. reflexivity. Qed.

Lemma fenced_core (tag body : string) :
  let core := "```" +:+ tag +:+ newline_text +:+ body +:+ newline_text +:+ "```" in
  core = ("```" +:+ tag +:+ newline_text +:+ body +:+ newline_text +:+ "``")
         +:+ String (Ascii.ascii_of_nat 96) "".
Proof. cbn zeta. rewrite !append_assoc. reflexivity. Qed.

Lemma fenced_text (ws1 ws2 tag body : string) :
  ws1 +:+ "```" +:+ tag +:+ newline_text +:+ body +:+ newline_text +:+ "```" +:+ ws2
  = ws1 +:+ ("```" +:+ tag +:+ newline_text +:+ body +:+ newline_text +:+ "```")
        +:+ ws2.
Proof. rewrite !append_assoc. reflexivity. Qed.

Lemma fenced_strip (ws1 ws2 tag body : string) :
  blank ws1 = true -> blank ws2 = true ->
  strip (ws1 +:+ "```" +:+ tag +:+ newline_text +:+ body +:+ newline_text
             +:+ "```" +:+ ws2)
  = "```" +:+ tag +:+ newline_text +:+ body +:+ newline_text +:+ "```".
Proof.
  intros H1 H2. rewrite fenced_text.
  eapply strip_padded;
    [exact H1 | exact H2 | apply fence_head | reflexivity
    | apply fenced_core | reflexivity].
Qed.

Lemma fenced_lines (tag body : string) :
  one_line tag = true ->
  slice_1_m1 (split_newline ("```" +:+ tag +:+ newline_text +:+ body
                                   +:+ newline_text +:+ "```"))
  = split_newline body.
Proof.
  intros Htag.
  rewrite <- (append_assoc "```" tag), split_newline_append, split_newline_append.
  rewrite (split_newline_one_line ("```" +:+ tag)).
  - exact (slice_1_m1_middle _ _ _).
  - unfold one_line in *. rewrite mem_char_append. apply negb_true_iff.
    apply negb_true_iff in Htag. rewrite Htag. reflexivity.
Qed.

(** X7. A reply wrapped in a Markdown fence, with an optional tag after
    the opening fence and white space around, is reduced to its body, in
    both scripts; the body may itself hold line breaks and fences. *)
Theorem clean_fenced_reply (ws1 ws2 tag body : string) :
  blank ws1 = true -> blank ws2 = true -> one_line tag = true ->
  let text := ws1 +:+ "```" +:+ tag +:+ newline_text +:+ body +:+ newline_text
                  +:+ "```" +:+ ws2 in
  DescribeGifs._clean_json_text text = body /\
  DescribeSources.clean text = body.
Proof.
  intros H1 H2 Htag text.
  unfold DescribeGifs._clean_json_text, DescribeSources.clean, text.
  rewrite (fenced_strip _ _ _ _ H1 H2).
  change DescribeGifs.fence with "```". change DescribeSources.fence with "```".
  rewrite prefix_app, (fenced_lines _ _ Htag).
  split; apply concat_split_newline.
Qed.

Lemma clean_fenced_reply_witness :
  DescribeGifs._clean_json_text
    (" " +:+ "```" +:+ "json" +:+ newline_text +:+ "{}" +:+ newline_text
         +:+ "```" +:+ newline_text) = "{}" /\
  DescribeSources.clean
    (" " +:+ "```" +:+ "json" +:+ newline_text +:+ "{}" +:+ newline_text
         +:+ "```" +:+ newline_text) = "{}".
Proof. apply clean_fenced_reply; reflexivity. Defined.

(** X8. A reply that starts with a fence and has fewer than three lines
    is reduced to the empty text in both scripts, whatever its lines hold:
    a reply whose closing fence follows the JSON on the same line loses
    the JSON. *)
Theorem clean_fence_without_body (ws1 first last : string) :
  blank ws1 = true -> one_line first = true -> one_line last = true ->
  let text := ws1 +:+ "```" +:+ first +:+ newline_text +:+ last in
  DescribeGifs._clean_json_text text = "" /\
  DescribeSources.clean text = "".
Proof.
  intros H1 Hfirst Hlast text.
  assert (Hstrip : strip text
                   = "```" +:+ rstrip (first +:+ newline_text +:+ last)).
  { unfold strip, text. rewrite (lstrip_blank_append _ _ H1).
    rewrite !fence_head. cbn [lstrip].
    change (isspace (Ascii.ascii_of_nat 96)) with false. cbv iota.
    rewrite <- !append_cons. 
    change (String (Ascii.ascii_of_nat 96) "``") with "```".
    change ("```" +:+ ?x) with
      (String (Ascii.ascii_of_nat 96)
         (String (Ascii.ascii_of_nat 96) (String (Ascii.ascii_of_nat 96) x))).
    rewrite !rstrip_cons by reflexivity. reflexivity. }
  assert (Hshort : (length (split_newline (strip text)) <= 2)%nat).
  { rewrite Hstrip.
    destruct (rstrip_prefix (first +:+ newline_text +:+ last)) as [w Hw].
    pose proof (split_newline_length_append "```"
                  (rstrip (first +:+ newline_text +:+ last))) as L1.
    pose proof (split_newline_length_append
                  (rstrip (first +:+ newline_text +:+ last)) w) as L2.
    rewrite <- Hw, split_newline_append in L2.
    rewrite (split_newline_one_line _ Hfirst),
            (split_newline_one_line _ Hlast) in L2.
    pose proof (split_newline_not_nil w) as Hnil.
    destruct (split_newline w); [contradiction |].
    cbn [length app] in *. change (split_newline "```") with ["```"] in L1.
    cbn [length] in L1. lia. }
  unfold DescribeGifs._clean_json_text, DescribeSources.clean.
  change DescribeGifs.fence with "```". change DescribeSources.fence with "```".
  rewrite (slice_1_m1_short _ Hshort), Hstrip, prefix_app.
  split; reflexivity.
Qed.

Lemma clean_fence_without_body_witness :
  DescribeGifs._clean_json_text
    ("```" +:+ "json" +:+ newline_text +:+ "{}```") = "" /\
  DescribeSources.clean ("```" +:+ "json" +:+ newline_text +:+ "{}```") = "".
Proof. apply (clean_fence_without_body "" "json" "{}```"); reflexivity. Defined.

(** ** Both scripts: the API key *)

Lemma lstrip_blank (ws : string) : blank ws = true -> lstrip ws = "".
Proof.
  induction ws as [| c ws IH]; [reflexivity |].
  cbn [blank]. intros H. apply andb_true_iff in H as [Hc Hws].
  cbn [lstrip]. rewrite Hc. exact (IH Hws).
Qed.

Lemma rstrip_solid_append (tok rest : string) :
  solid tok = true -> rstrip (tok +:+ rest) = tok +:+ rstrip rest.
Proof.
  induction tok as [| c tok IH]; [reflexivity |].
  cbn [solid]. intros H. apply andb_true_iff in H as [Hc Htok].
  apply negb_true_iff in Hc.
  rewrite !append_cons, (rstrip_cons _ _ Hc), (IH Htok). reflexivity.
Qed.

Lemma rstrip_token_end (rest : string) : token_end rest -> token_end (rstrip rest).
Proof.
  destruct rest as [| c r]; [trivial |]. cbn [token_end rstrip]. intros Hc.
  destruct (rstrip r); [rewrite Hc |]; cbn; trivial.
Qed.

Lemma split_whitespace_token (tok rest : string) :
  tok <> "" -> solid tok = true -> token_end rest ->
  split_whitespace (tok +:+ rest) = tok :: split_whitespace rest.
Proof.
  intros Hne Htok Hrest. induction tok as [| c tok IH]; [contradiction |].
  cbn [solid] in Htok. apply andb_true_iff in Htok as [Hc Htok].
  apply negb_true_iff in Hc. rewrite append_cons.
  cbn [split_whitespace]. rewrite Hc.
  destruct tok as [| c2 tok].
  - rewrite append_nil_l. destruct rest as [| c' r]; [reflexivity |].
    cbn [token_end] in Hrest. rewrite Hrest. reflexivity.
  - rewrite append_cons. rewrite <- append_cons.
    cbn [solid] in Htok. pose proof Htok as Htok'.
    apply andb_true_iff in Htok' as [Hc2 _]. apply negb_true_iff in Hc2.
    rewrite append_cons at 1. rewrite Hc2.
    rewrite (IH ltac:(discriminate) Htok). reflexivity.
Qed.



(** ** describe_gifs.py: one job *)

Section TgifJob.

Variable json_loads : string -> option json.

(** X10. [download_gif] returns the body exactly when the URL could be
    opened, the final location does not have the removal notice's location
    anywhere inside it, and the body could be read. *)
Theorem download_gif_fetched_iff (w : DescribeGifs.world) (u : string)
    (data : bytes) :
  (DescribeGifs.download_gif w u).1 = Some data <->
  exists resp_url,
    DescribeGifs.urlopen w u = DescribeGifs.Response resp_url (Ret data) /\
    ~ exists a b, resp_url = a +:+ DescribeGifs.VIOLATION_LOCATION +:+ b.
Proof.
  unfold DescribeGifs.download_gif.
  destruct (DescribeGifs.urlopen w u) as [e | resp_url read].
  - split; [discriminate | intros (r & E & _); discriminate].
  - destruct (contains DescribeGifs.VIOLATION_LOCATION resp_url) eqn:Hc.
    + split; [discriminate |]. intros (r & E & Hn). injection E as <- _.
      exfalso. apply Hn, contains_spec. exact Hc.
    + assert (Hn : ~ exists a b,
                resp_url = a +:+ DescribeGifs.VIOLATION_LOCATION +:+ b).
      { intros H. apply contains_spec in H. congruence. }
      destruct read as [d | e]; cbn [fst].
      * split.
        -- intros E. injection E as <-. exists resp_url. split; [reflexivity | exact Hn].
        -- intros (r & E & _). injection E as <- <-. reflexivity.
      * split; [discriminate | intros (r & E & _); discriminate].
Qed.

Lemma attempts_same_replies (w w' : DescribeGifs.world) (frames : list bytes)
    (retries : Z) (n : nat) (attempt : Z) :
  (forall a, attempt <= a < attempt + Z.of_nat n ->
     DescribeGifs.generate_content w frames a
     = DescribeGifs.generate_content w' frames a) ->
  DescribeGifs.attempts json_loads w frames retries n attempt
  = DescribeGifs.attempts json_loads w' frames retries n attempt.
Proof.
  revert attempt. induction n as [| n IH]; intros attempt H; [reflexivity |].
  cbn [DescribeGifs.attempts]. rewrite <- (H attempt) by lia.
  rewrite (IH (attempt + 1)) by (intros a Ha; apply H; lia).
  reflexivity.
Qed.

(** X11. [describe_gif_from_data] sends the requests number 0 to [retries]
    of a job and no other: its result and what it prints do not depend on
    what the service would answer to a later request. With [retries]
    below zero it sends none and returns [None] without a message. *)
Theorem describe_gif_from_data_requests (w w' : DescribeGifs.world)
    (gif_data : bytes) (retries : Z) :
  DescribeGifs.Image_open w gif_data = DescribeGifs.Image_open w' gif_data ->
  (forall frames a, 0 <= a <= retries ->
     DescribeGifs.generate_content w frames a
     = DescribeGifs.generate_content w' frames a) ->
  DescribeGifs.describe_gif_from_data json_loads w gif_data retries
  = DescribeGifs.describe_gif_from_data json_loads w' gif_data retries /\
  (retries < 0 ->
   forall frames,
     DescribeGifs.extract_frames w gif_data NUM_FRAMES MAX_FRAME_DIM = Ret frames ->
     DescribeGifs.describe_gif_from_data json_loads w gif_data retries
     = (JNull, [])).
Proof.
  intros Himg Hgc. unfold DescribeGifs.describe_gif_from_data. split.
  - unfold DescribeGifs.extract_frames. rewrite <- Himg.
    destruct (bind _ _) as [frames | e]; [| reflexivity].
    apply attempts_same_replies. intros a Ha. apply Hgc. lia.
  - intros Hneg frames ->. replace (Z.to_nat (1 + retries)) with 0%nat by lia.
    reflexivity.
Qed.

(** X12. A reply that parses to a value Python takes as false ([null],
    [false], [0], an empty string, list or object) makes [process_gif]
    return [None] at once: the request is not repeated and nothing is
    printed, and the completion loop counts the GIF as failed. *)
Theorem process_gif_falsy_reply (w : DescribeGifs.world) (g : DescribeGifs.gif)
    (data : bytes) (frames : list bytes) (text : string) (v : json)
    (total : Z) (s : DescribeGifs.run_state) :
  DescribeGifs.download_gif w (DescribeGifs.url g) = (Some data, []) ->
  DescribeGifs.extract_frames w data NUM_FRAMES MAX_FRAME_DIM = Ret frames ->
  DescribeGifs.generate_content w frames 0 = Ret text ->
  json_loads (DescribeGifs._clean_json_text text) = Some v ->
  truthy v = false ->
  DescribeGifs.process_gif json_loads w g = (Ret DescribeGifs.NONE, []) /\
  let s' := DescribeGifs.run_steps
              (DescribeGifs.critical_section total DescribeGifs.NONE) s in
  DescribeGifs.failed s' = DescribeGifs.failed s + 1 /\
  DescribeGifs.success s' = DescribeGifs.success s /\
  DescribeGifs.flushed s' = DescribeGifs.flushed s.
Proof.
  intros Hd Hf Hg Hp Hv. split.
  - unfold DescribeGifs.process_gif, DescribeGifs.describe_gif_from_data.
    rewrite Hd, Hf. change (Z.to_nat (1 + 1)) with 2%nat.
    rewrite (attempts_parsed json_loads w frames text v 1 1 0 Hg Hp), Hv.
    reflexivity.
  - unfold DescribeGifs.critical_section, DescribeGifs.run_steps,
      DescribeGifs.report. cbn [fold_left app].
    destruct (_ || _); cbn; auto.
Qed.

(** X13. [process_gif] raises nothing but [TypeError], and only after
    [json.loads] has returned a value that Python takes as true and that is
    not an object; a first reply of that kind does make it raise. *)
Theorem process_gif_raises_on_non_object (w : DescribeGifs.world)
    (g : DescribeGifs.gif) :
  (forall e, (DescribeGifs.process_gif json_loads w g).1 = Raise e ->
     e = TypeError /\
     exists text v, json_loads text = Some v /\ truthy v = true /\
                    forall d, v <> JObj d) /\
  (forall data frames text v,
     DescribeGifs.download_gif w (DescribeGifs.url g) = (Some data, []) ->
     DescribeGifs.extract_frames w data NUM_FRAMES MAX_FRAME_DIM = Ret frames ->
     DescribeGifs.generate_content w frames 0 = Ret text ->
     json_loads (DescribeGifs._clean_json_text text) = Some v ->
     truthy v = true -> (forall d, v <> JObj d) ->
     DescribeGifs.process_gif json_loads w g = (Raise TypeError, [])).
Proof.
  split.
  - intros e. unfold DescribeGifs.process_gif.
    destruct (DescribeGifs.download_gif w _) as [[data |] printed];
      [| discriminate].
    destruct (DescribeGifs.describe_gif_from_data json_loads w data 1)
      as [v printed'] eqn:Hdesc.
    cbn [fst]. destruct (truthy v) eqn:Hv; [| discriminate].
    assert (Hsrc : v = JNull \/ exists text, json_loads text = Some v).
    { unfold DescribeGifs.describe_gif_from_data in Hdesc.
      destruct (DescribeGifs.extract_frames w data _ _) as [frames | e'].
      - exact (attempts_value json_loads _ _ _ _ _ _ _ Hdesc).
      - injection Hdesc as <- _. left. reflexivity. }
    destruct Hsrc as [-> | [text Htext]]; [discriminate |].
    destruct v; try discriminate; intros E; injection E as <-;
      (split; [reflexivity |]); exists text; eexists;
      (split; [exact Htext |]); (split; [exact Hv | discriminate]).
  - intros data frames text v Hd Hf Hg Hp Hv Hobj.
    unfold DescribeGifs.process_gif, DescribeGifs.describe_gif_from_data.
    rewrite Hd, Hf. change (Z.to_nat (1 + 1)) with 2%nat.
    rewrite (attempts_parsed json_loads w frames text v 1 1 0 Hg Hp), Hv.
    destruct v; try reflexivity. exfalso. exact (Hobj _ eq_refl).
Qed.

End TgifJob.

Lemma describe_gif_from_data_requests_witness :
  DescribeGifs.describe_gif_from_data Samples.sample_loads
    (Samples.online Samples.always_sorry) [] 1
  = DescribeGifs.describe_gif_from_data Samples.sample_loads
      (Samples.online Samples.two_replies) [] 1.
Proof.
  apply (describe_gif_from_data_requests Samples.sample_loads
           (Samples.online Samples.always_sorry)
           (Samples.online Samples.two_replies) [] 1).
  - reflexivity.
  - intros frames a Ha. cbn. unfold Samples.always_sorry, Samples.two_replies.
    replace (a <=? 1) with true by (symmetry; apply Z.leb_le; lia).
    reflexivity.
Defined.

Lemma process_gif_falsy_reply_witness :
  DescribeGifs.process_gif Samples.reply_loads
    (Samples.online Samples.always_empty_object) Samples.cat_gif
  = (Ret DescribeGifs.NONE, []).
Proof.
  eapply (process_gif_falsy_reply Samples.reply_loads
            (Samples.online Samples.always_empty_object) Samples.cat_gif
            [] [[]] "{}" (JObj ∅) 1
            (DescribeGifs.opened [] [])); reflexivity.
Defined.

Lemma process_gif_raises_on_non_object_witness :
  DescribeGifs.process_gif Samples.reply_loads
    (Samples.online Samples.always_list) Samples.cat_gif
  = (Raise TypeError, []).
Proof.
  apply (proj2 (process_gif_raises_on_non_object Samples.reply_loads
                  (Samples.online Samples.always_list) Samples.cat_gif)
           [] [[]] "[1]" (JArr [JNum 1])); try reflexivity.
  discriminate.
Defined.

(** ** describe_gifs.py: a whole run *)

Section TgifWholeRun.

Import DescribeGifs.

Variable json_loads : string -> option json.
Variable worlds : nat -> world.
Variable as_completed : list (nat * gif) -> list (nat * gif).

Lemma all_returned {A} (results : list (py A)) :
  Forall (fun x => exists r, x = Ret r) results ->
  exists rs, results = Ret <$> rs.
Proof.
  induction 1 as [| x results [r ->] _ [rs ->]].
  - exists []. reflexivity.
  - exists (r :: rs). reflexivity.
Qed.

Lemma tgif_loop_app (total : Z) (rs : list job_result)
    (rest : list (py job_result)) :
  completion_loop total ((Ret <$> rs) ++ rest)
  = ((completion_loop total (Ret <$> rs)).1 ++ (completion_loop total rest).1,
     (completion_loop total rest).2).
Proof.
  induction rs as [| r rs IH].
  - simpl. destruct (completion_loop total rest). reflexivity.
  - cbn [fmap list_fmap app completion_loop]. 
    change (list_fmap _ _ Ret rs) with (Ret <$> rs). rewrite IH.
    destruct (completion_loop total (Ret <$> rs)) as [steps e].
    cbn [fst snd]. rewrite app_assoc. reflexivity.
Qed.

Lemma tgif_section_counts (total : Z) (r : job_result) (s : run_state) :
  exists s2,
    run_steps (critical_section total r) s = report total s2 /\
    success s2 + failed s2 + removed s2
    = success s + failed s + removed s + 1 /\
    stdout s2 = stdout s.
Proof.
  unfold critical_section, run_steps.
  destruct r as [record | |]; [destruct (truthy (JObj record)) |..];
    cbn [app fold_left]; eexists; (split; [reflexivity |]); simpl;
    split; (reflexivity || lia).
Qed.

Lemma report_counts (total : Z) (s : run_state) :
  success (report total s) = success s /\
  failed (report total s) = failed s /\
  removed (report total s) = removed s.
Proof. unfold report. destruct (_ || _); repeat split; reflexivity. Qed.

Lemma tgif_loop_done (total : Z) (rs : list job_result) (s : run_state) :
  let s' := run_steps (completion_loop total (Ret <$> rs)).1 s in
  success s' + failed s' + removed s'
  = success s + failed s + removed s + Z.of_nat (length rs).
Proof.
  revert s. induction rs as [| r rs IH]; intros s; cbn zeta.
  - simpl. lia.
  - cbn [fmap list_fmap completion_loop].
    change (list_fmap _ _ Ret rs) with (Ret <$> rs).
    destruct (completion_loop total (Ret <$> rs)) as [steps e] eqn:Hloop.
    cbn [fst]. unfold run_steps. rewrite fold_left_app.
    fold (run_steps (critical_section total r) s).
    destruct (tgif_section_counts total r s) as (s2 & -> & Hd & _).
    specialize (IH (report total s2)). cbn zeta in IH.
    cbn [fst] in IH. unfold run_steps in IH.
    rewrite IH. destruct (report_counts total s2) as (-> & -> & ->).
    cbn [length]. lia.
Qed.

(** X14. When the run has GIFs to process, the success count it ends
    with is the number of records the output file gained since it was
    opened, also when an exception cuts the run short. *)
Theorem tgif_success_is_records_gained (gifs : list gif) (resume : bool)
    (output : option (list line)) (processed_urls : gset key) (g : gif)
    (to_process : list gif) :
  load_processed resume output = Ret processed_urls ->
  filter_processed gifs processed_urls = g :: to_process ->
  let x := main_loaded json_loads worlds as_completed gifs resume output in
  exists f,
    output_file x = Some f /\
    success (last x)
    = Z.of_nat (length f) - Z.of_nat (length (open_output resume output)).
Proof.
  intros Hload Hfilter x. subst x. unfold main_loaded.
  rewrite Hload, Hfilter.
  set (printed := _ ++ [To_process _]).
  set (total := Z.of_nat (length (g :: to_process))).
  set (results := map _ _).
  assert (Hprinted : Forall (fun l => tgif_reported l = None) printed).
  { subst printed. apply Forall_app. split.
    - destruct resume, output; repeat constructor.
    - repeat constructor. }
  pose proof (tgif_loop_states _ total results _
                (tgif_opened_settled (open_output resume output) printed
                   Hprinted)) as [_ (Hb & Hs & _)].
  destruct (completion_loop total results) as [steps e].
  cbn [fst] in Hb, Hs. cbn beta iota. cbn [output_file last].
  eexists. split; [reflexivity |].
  cbn [flushed out_flush]. rewrite Hb, app_nil_r.
  destruct e; cbn [success out_flush print]; exact Hs.
Qed.

Lemma report_at_total (total : Z) (s : run_state) :
  success s + failed s + removed s = total ->
  report total s
  = print (Progress total total (success s) (failed s) (removed s)) s.
Proof.
  intros H. unfold report. rewrite H, Z.eqb_refl, orb_true_r. reflexivity.
Qed.


Lemma completion_loop_raised (total : Z) (results : list (py job_result)) :
  (forall e, Raise e ∈ results -> e = TypeError) ->
  (exists e, Raise e ∈ results) ->
  (completion_loop total results).2 = Some TypeError.
Proof.
  intros Honly [e He]. induction results as [| [r | e'] results IH].
  - inversion He.
  - cbn [completion_loop].
    destruct (completion_loop total results) as [steps e0]. cbn [snd] in *.
    apply IH.
    + intros e1 H1. apply Honly. right. exact H1.
    + apply elem_of_cons in He as [He | He]; [discriminate | exact He].
  - cbn. rewrite (Honly e') by left. reflexivity.
Qed.

(** X16. A single job that raises ends the whole run: [future.result()]
    re-raises the [TypeError] in [main], which has no handler around the
    loop, so that the summary is never printed, whatever the other jobs
    returned. *)
Theorem tgif_run_aborted_by_one_job (gifs : list gif) (resume : bool)
    (output : option (list line)) (processed_urls : gset key)
    (job : nat * gif) :
  fair as_completed ->
  load_processed resume output = Ret processed_urls ->
  job ∈ imap pair (filter_processed gifs processed_urls) ->
  (process_gif json_loads (worlds job.1) job.2).1 = Raise TypeError ->
  let x := main_loaded json_loads worlds as_completed gifs resume output in
  uncaught x = Some TypeError /\
  forall ok nfailed nremoved, Done ok nfailed nremoved ∉ stdout (last x).
Proof.
  intros Hfair Hload Hjob Hraise x. subst x. unfold main_loaded.
  rewrite Hload.
  destruct (filter_processed gifs processed_urls) as [| g to_process] eqn:Hfilter;
    [inversion Hjob |].
  set (printed := _ ++ [To_process _]).
  set (total := Z.of_nat (length (g :: to_process))).
  set (results := map _ _).
  assert (He : (completion_loop total results).2 = Some TypeError).
  { apply completion_loop_raised.
    - intros e H. subst results. apply list_elem_of_fmap in H as ([i g'] & H & _).
      symmetry in H.
      exact (proj1 (proj1 (process_gif_raises_on_non_object json_loads
                             (worlds i) g') e H)).
    - exists TypeError. subst results. apply list_elem_of_fmap.
      exists job. split.
      + destruct job as [i g']. symmetry. exact Hraise.
      + rewrite (Hfair _). exact Hjob. }
  assert (Hprinted : Forall (fun l => tgif_reported l = None) printed).
  { subst printed. apply Forall_app. split.
    - destruct resume, output; repeat constructor.
    - repeat constructor. }
  assert (Hout : forall steps s,
            Forall (fun l => forall a b c, l <> Done a b c) (stdout s) ->
            Forall (fun f => forall s0,
                      Forall (fun l => forall a b c, l <> Done a b c) (stdout s0) ->
                      Forall (fun l => forall a b c, l <> Done a b c)
                             (stdout (f s0))) steps ->
            Forall (fun l => forall a b c, l <> Done a b c)
                   (stdout (run_steps steps s))).
  { clear. intros steps. induction steps as [| f steps IH]; intros s Hs Hsteps.
    - exact Hs.
    - apply Forall_cons in Hsteps as [Hf Hsteps]. cbn.
      apply IH; [apply Hf; exact Hs | exact Hsteps]. }
  assert (Hsteps : Forall (fun f => forall s0,
                      Forall (fun l => forall a b c, l <> Done a b c) (stdout s0) ->
                      Forall (fun l => forall a b c, l <> Done a b c)
                             (stdout (f s0)))
                     (completion_loop total results).1).
  { clear. induction results as [| [r | e] results IH];
      [apply List.Forall_nil | | apply List.Forall_nil].
    cbn [completion_loop].
    destruct (completion_loop total results) as [steps e]. cbn [fst] in *.
    apply Forall_app. split; [| exact IH].
    unfold critical_section. apply Forall_app. split.
    - destruct r as [record | |]; [destruct (truthy (JObj record)) |..];
        repeat apply List.Forall_cons; try apply List.Forall_nil;
        intros s0 H0; exact H0.
    - apply List.Forall_cons; [| apply List.Forall_nil].
      intros s0 H0. unfold report. destruct (_ || _); [| exact H0].
      cbn. apply Forall_app. split; [exact H0 |].
      apply List.Forall_cons; [discriminate | apply List.Forall_nil]. }
  destruct (completion_loop total results) as [steps e]. cbn [fst snd] in *.
  subst e. cbn [uncaught last]. split; [reflexivity |].
  intros ok nf nr Hin.
  assert (H0 : Forall (fun l => forall a b c, l <> Done a b c) printed).
  { subst printed. apply Forall_app. split.
    - destruct resume, output; repeat constructor; discriminate.
    - repeat constructor. discriminate. }
  pose proof (Hout steps (opened (open_output resume output) printed) H0 Hsteps)
    as Hfinal.
  rewrite Forall_forall in Hfinal.
  exact (Hfinal _ Hin ok nf nr eq_refl).
Qed.

End TgifWholeRun.

Lemma tgif_success_is_records_gained_witness :
  let x := DescribeGifs.main_loaded Samples.sample_loads
             (fun _ => Samples.online Samples.always_mood) (fun jobs => jobs)
             [Samples.cat_gif] false None in
  exists f,
    DescribeGifs.output_file x = Some f /\
    DescribeGifs.success (DescribeGifs.last x)
    = Z.of_nat (length f)
      - Z.of_nat (length (DescribeGifs.open_output false None)).
Proof.
  apply (tgif_success_is_records_gained Samples.sample_loads) with
    (processed_urls := ∅) (g := Samples.cat_gif) (to_process := []);
    reflexivity.
Defined.


Lemma tgif_run_aborted_by_one_job_witness :
  let x := DescribeGifs.main_loaded Samples.reply_loads
             (fun _ => Samples.online Samples.always_list) (fun jobs => jobs)
             [Samples.cat_gif] false None in
  DescribeGifs.uncaught x = Some TypeError /\
  forall ok nfailed nremoved,
    DescribeGifs.Done ok nfailed nremoved
      ∉ DescribeGifs.stdout (DescribeGifs.last x).
Proof.
  apply (tgif_run_aborted_by_one_job Samples.reply_loads
           (fun _ => Samples.online Samples.always_list) (fun jobs => jobs)
           [Samples.cat_gif] false None ∅ (0%nat, Samples.cat_gif)).
  - intros jobs. reflexivity.
  - reflexivity.
  - vm_compute. left.
  - vm_compute. reflexivity.
Defined.

(** ** Both scripts: which frames are taken *)

Lemma round_half_even_near (a b : Z) :
  0 < b ->
  2 * b * round_half_even a b - b <= 2 * a <= 2 * b * round_half_even a b + b.
Proof.
  intros Hb. rewrite (round_half_even_pos a b Hb).
  pose proof (Z.div_mod a b ltac:(lia)) as Hdiv.
  pose proof (Z.mod_pos_bound a b Hb) as Hmod.
  destruct (2 * (a mod b) <? b) eqn:H1; [apply Z.ltb_lt in H1; nia |].
  apply Z.ltb_ge in H1.
  destruct (b <? 2 * (a mod b)) eqn:H2; [apply Z.ltb_lt in H2; nia |].
  apply Z.ltb_ge in H2. destruct (Z.even (a / b)); nia.
Qed.

(** Steps larger than the divisor are told apart by the rounding. *)
Lemma round_half_even_strict (a a' b : Z) :
  0 < b -> a + b < a' -> round_half_even a b < round_half_even a' b.
Proof.
  intros Hb Ha.
  pose proof (round_half_even_near a b Hb).
  pose proof (round_half_even_near a' b Hb).
  nia.
Qed.

Lemma spread_lookup (F K : Z) (i : nat) (x : Z) :
  spread F K !! i = Some x ->
  Z.of_nat i < K /\ x = round_half_even (Z.of_nat i * (F - 1)) (K - 1).
Proof.
  unfold spread, range. rewrite list_lookup_fmap.
  destruct (seqZ 0 K !! i) as [z |] eqn:E; [| discriminate].
  apply lookup_seqZ in E as [-> Hi]. cbn. intros [= <-].
  split; [lia | f_equal; lia].
Qed.

(** X17. Whenever the index selection returns, the indices are strictly
    increasing, so that no frame is taken twice, and every one of them is
    the number of an existing frame. *)
Theorem frame_indices_increasing_in_range (F K : Z) (l : list Z) :
  frame_indices F K = Ret l ->
  (forall i j x y, l !! i = Some x -> l !! j = Some y -> (i < j)%nat -> x < y) /\
  Forall (fun x => 0 <= x < F) l.
Proof.
  unfold frame_indices. destruct (F <=? K) eqn:HFK.
  - intros [= <-]. unfold range. split.
    + intros i j x y Hi Hj Hij.
      apply lookup_seqZ in Hi as [-> _]. apply lookup_seqZ in Hj as [-> _]. lia.
    + apply Forall_forall. intros x Hx. apply elem_of_seqZ in Hx. lia.
  - apply Z.leb_gt in HFK. destruct (Z_le_gt_dec K 0) as [HK0 | HK0].
    + unfold range. rewrite seqZ_nil by lia. intros [= <-].
      split; [intros i j x y Hi; discriminate Hi | apply List.Forall_nil].
    + destruct (Z.eq_dec K 1) as [-> | HK1].
      { cbn. discriminate. }
      rewrite (comprehension_ret _
                 (fun i => round_half_even (i * (F - 1)) (K - 1))).
      2:{ intros i _. unfold round_div.
          replace (K - 1 =? 0) with false by (symmetry; apply Z.eqb_neq; lia).
          reflexivity. }
      intros [= <-]. fold (spread F K).
      assert (Hstrict : forall i j : nat, (i < j)%nat ->
                round_half_even (Z.of_nat i * (F - 1)) (K - 1)
                < round_half_even (Z.of_nat j * (F - 1)) (K - 1)).
      { intros i j Hij. apply round_half_even_strict; [lia | nia]. }
      split.
      * intros i j x y Hi Hj Hij.
        apply spread_lookup in Hi as [_ ->].
        apply spread_lookup in Hj as [_ ->]. exact (Hstrict i j Hij).
      * apply Forall_forall. intros x Hx.
        apply list_elem_of_lookup in Hx as [i Hi].
        apply spread_lookup in Hi as [Hi ->].
        pose proof (round_half_even_mono 0 (Z.of_nat i * (F - 1)) (K - 1)
                      ltac:(lia) ltac:(nia)) as Hlo.
        pose proof (round_half_even_mono (Z.of_nat i * (F - 1))
                      ((F - 1) * (K - 1)) (K - 1) ltac:(lia) ltac:(nia)) as Hhi.
        rewrite (round_half_even_exact (F - 1) (K - 1)) in Hhi by lia.
        change 0 with (0 * (K - 1)) in Hlo at 1.
        rewrite (round_half_even_exact 0 (K - 1)) in Hlo by lia. lia.
Qed.

Lemma frame_indices_increasing_in_range_witness :
  (forall i j x y, [0; 3; 6; 8; 11] !! i = Some x ->
                   [0; 3; 6; 8; 11] !! j = Some y -> (i < j)%nat -> x < y) /\
  Forall (fun x => 0 <= x < 12) [0; 3; 6; 8; 11].
Proof. apply (frame_indices_increasing_in_range 12 5). reflexivity. Defined.

Lemma comprehension_same {A B} (f g : A -> py B) (l : list A) :
  (forall x, x ∈ l -> f x = g x) -> comprehension f l = comprehension g l.
Proof.
  induction l as [| x l IH]; intros H; [reflexivity |].
  cbn [comprehension]. rewrite (H x) by left.
  rewrite IH by (intros y Hy; apply H; right; exact Hy). reflexivity.
Qed.

Lemma frame_indices_length (F K : Z) (l : list Z) :
  frame_indices F K = Ret l -> length l = Z.to_nat (Z.min F K).
Proof.
  unfold frame_indices. destruct (F <=? K) eqn:HFK.
  - apply Z.leb_le in HFK. intros [= <-]. unfold range.
    rewrite length_seqZ. f_equal. lia.
  - apply Z.leb_gt in HFK. intros H. apply comprehension_length in H.
    rewrite H. unfold range. rewrite length_seqZ. f_equal. lia.
Qed.

(** X18. The frame extraction of both scripts reads existing frames
    only: two images with the same number of frames that agree on these
    frames give the same result. When it returns, it returns as many
    frames as the image has, up to [num_frames]. *)
Theorem extract_frames_of_existing_frames (img img' : image)
    (num_frames max_dim : Z) :
  n_frames img = n_frames img' ->
  (forall idx, 0 <= idx < n_frames img ->
     frame_png img idx max_dim = frame_png img' idx max_dim) ->
  extract_frames_of img num_frames max_dim
  = extract_frames_of img' num_frames max_dim /\
  forall frames,
    extract_frames_of img num_frames max_dim = Ret frames ->
    length frames = Z.to_nat (Z.min (n_frames img) num_frames).
Proof.
  intros Hn Hpng. unfold extract_frames_of. rewrite <- Hn.
  destruct (frame_indices (n_frames img) num_frames) as [l | e] eqn:Hl;
    cbn [bind]; [| split; [reflexivity | discriminate]].
  destruct (frame_indices_increasing_in_range _ _ _ Hl) as [_ Hrange].
  split.
  - apply comprehension_same. intros idx Hidx. apply Hpng.
    rewrite Forall_forall in Hrange. exact (Hrange idx Hidx).
  - intros frames H. apply comprehension_length in H.
    rewrite H. exact (frame_indices_length _ _ _ Hl).
Qed.

Lemma extract_frames_of_existing_frames_witness :
  extract_frames_of Samples.still NUM_FRAMES MAX_FRAME_DIM
  = extract_frames_of Samples.still_only NUM_FRAMES MAX_FRAME_DIM.
Proof.
  apply (extract_frames_of_existing_frames Samples.still Samples.still_only
           NUM_FRAMES MAX_FRAME_DIM).
  - reflexivity.
  - intros idx Hidx. cbn in *. 
    replace (idx =? 0) with true by (symmetry; apply Z.eqb_eq; lia).
    reflexivity.
Defined.

(** ** describe_sources.py: frames of a video *)

Lemma set_last_length {A} (l r : list A) (v : A) :
  DescribeSources.set_last l v = Ret r -> length r = length l.
Proof.
  unfold DescribeSources.set_last.
  destruct l as [| x l]; [discriminate |].
  destruct (exists_last (l := x :: l)) as (l' & a & E); [discriminate |].
  rewrite E. intros [= <-]. rewrite removelast_last, !length_app. reflexivity.
Qed.

Lemma timestamps_of_length (d : Q) (num_frames : Z) (timestamps : list Q) :
  DescribeSources.timestamps_of d num_frames = Ret timestamps ->
  length timestamps = Z.to_nat num_frames.
Proof.
  unfold DescribeSources.timestamps_of.
  destruct (num_frames =? 1) eqn:H1.
  - apply Z.eqb_eq in H1 as ->. intros [= <-]. reflexivity.
  - intros H. apply set_last_length in H. rewrite H, length_map.
    unfold range. apply length_seqZ.
Qed.

(** X19. Whenever [extract_frames_mp4] returns, it returns at least one
    frame and at most [num_frames]: runs of [ffmpeg] that leave no file
    are passed over silently, and only a video without any frame is an
    error. *)
Theorem extract_frames_mp4_frame_count (w : DescribeSources.world)
    (file_path : DescribeSources.path) (num_frames max_dim : Z)
    (frames : list bytes) :
  DescribeSources.extract_frames_mp4 w file_path num_frames max_dim
    = Ret frames ->
  (1 <= length frames <= Z.to_nat num_frames)%nat.
Proof.
  unfold DescribeSources.extract_frames_mp4.
  destruct (DescribeSources.ffprobe w file_path) as [p | e]; [| discriminate].
  cbn [bind]. destruct (negb _); [discriminate |].
  destruct (DescribeSources.video p) as [[vs |] | e]; try discriminate.
  cbn [bind].
  destruct (DescribeSources.resolve_duration vs) as [d | e]; [| discriminate].
  cbn [bind].
  destruct (DescribeSources.timestamps_of d num_frames) as [ts | e] eqn:Hts;
    [| discriminate].
  cbn [bind].
  destruct (DescribeSources.grab_frames w file_path max_dim 0 ts)
    as [fs | e] eqn:Hfs; [| discriminate].
  cbn [bind]. destruct fs as [| f fs]; [discriminate |].
  intros [= <-].
  apply grab_frames_at_most in Hfs. apply timestamps_of_length in Hts.
  cbn [length] in *. lia.
Qed.

Lemma extract_frames_mp4_frame_count_witness :
  (1 <= length (replicate 5 [Byte.x00]) <= Z.to_nat NUM_FRAMES)%nat.
Proof.
  apply (extract_frames_mp4_frame_count Samples.webm_on_disk
           ("sources/demo", "files/c1.webm") NUM_FRAMES MAX_FRAME_DIM).
  vm_compute. reflexivity.
Defined.

(** ** describe_sources.py: one job *)

Section SourcesJob.

Import DescribeSources.

Variable json_loads : string -> option json.

Lemma handler_returns (item : gmap string json) (mk : json -> log_line)
    (id : json) :
  item !! "id" = Some id -> handler item mk = (Ret None, [mk id]).
Proof. intros H. unfold handler. rewrite H. reflexivity. Qed.

Lemma handler_raises (item : gmap string json) (mk : json -> log_line)
    (e : exn) :
  (handler item mk).1 = Raise e -> item !! "id" = None /\ e = KeyError "id".
Proof.
  unfold handler. destruct (item !! "id"); [discriminate |].
  intros E. injection E as <-. split; reflexivity.
Qed.


(** X21. A reply that parses to anything but an object ([null], a number,
    a string, a list) makes [**desc] raise [TypeError] inside the [try]:
    [describe_item] prints it as an API error and returns [None], and the
    run goes on, where the same reply ends a run of [describe_gifs.py]. *)
Theorem describe_item_non_object_reply (w : world) (source_dir name : string)
    (item : gmap string json) (id original_url : json) (frames : list bytes)
    (text : string) (v : json) :
  item !! "local_file" = Some (JStr name) ->
  item !! "id" = Some id ->
  item !! "original_url" = Some original_url ->
  path_exists w (source_dir, name) = true ->
  extract_frames w (source_dir, name) (dict_get_or item "format" (JStr "gif"))
    = Ret frames ->
  generate_content w frames 0 = Ret text ->
  json_loads (clean text) = Some v ->
  (forall d, v <> JObj d) ->
  describe_item json_loads w source_dir item
  = (Ret None, [API_error id TypeError]).
Proof.
  intros Hname Hid Hurl Hex Hframes Hgc Hp Hv.
  unfold describe_item, handler, result_record.
  rewrite Hname, Hex, Hframes, Hgc, Hp. cbn [negb subscript bind].
  rewrite Hid, Hurl. cbn [bind].
  destruct v; try reflexivity. exfalso. exact (Hv _ eq_refl).
Qed.

(** X22. An item without ["original_url"] is never described: whatever
    the service answers, [describe_item] returns no dict, and when all the
    rest works the missing key is printed as an API error only after the
    request has been made. *)
Theorem describe_item_without_original_url (w : world) (source_dir : string)
    (item : gmap string json) :
  item !! "original_url" = None ->
  (forall record printed,
     describe_item json_loads w source_dir item <> (Ret (Some record), printed)) /\
  (forall name id frames text desc,
     item !! "local_file" = Some (JStr name) ->
     item !! "id" = Some id ->
     path_exists w (source_dir, name) = true ->
     extract_frames w (source_dir, name) (dict_get_or item "format" (JStr "gif"))
       = Ret frames ->
     generate_content w frames 0 = Ret text ->
     json_loads (clean text) = Some desc ->
     describe_item json_loads w source_dir item
     = (Ret None, [API_error id (KeyError "original_url")])).
Proof.
  intros Hurl.
  assert (Hrec : forall desc, exists e, result_record item desc = Raise e).
  { intros desc. unfold result_record. cbn [subscript].
    destruct (item !! "id"); cbn [bind]; [| eauto].
    rewrite Hurl. cbn [bind]. eauto. }
  split.
  - intros record printed. unfold describe_item, handler.
    destruct (item !! "local_file") as [[] |]; try discriminate.
    destruct (negb _); [discriminate |].
    destruct (extract_frames _ _ _) as [frames | e];
      [| destruct (item !! "id"); discriminate].
    destruct (generate_content w frames 0) as [text | e];
      [| destruct (item !! "id"); discriminate].
    destruct (json_loads (clean text)) as [desc |];
      [| destruct (item !! "id"); discriminate].
    destruct (Hrec desc) as [e ->]. destruct (item !! "id"); discriminate.
  - intros name id frames text desc Hname Hid Hex Hframes Hgc Hp.
    unfold describe_item, handler, result_record.
    rewrite Hname, Hex, Hframes, Hgc, Hp. cbn [negb subscript bind].
    rewrite Hid, Hurl. reflexivity.
Qed.

End SourcesJob.


Lemma describe_item_non_object_reply_witness :
  DescribeSources.describe_item Samples.reply_loads
    (Samples.on_disk Samples.always_list) "sources/demo" (Samples.clip "a")
  = (Ret None, [DescribeSources.API_error (JStr "a") TypeError]).
Proof.
  apply (describe_item_non_object_reply Samples.reply_loads
           (Samples.on_disk Samples.always_list) "sources/demo" "files/a.gif"
           (Samples.clip "a") (JStr "a") (JStr "https://example.org/a")
           [[]] "[1]" (JArr [JNum 1])); try (vm_compute; reflexivity).
  discriminate.
Defined.

Lemma describe_item_without_original_url_witness :
  DescribeSources.describe_item Samples.sample_loads
    (Samples.on_disk Samples.always_mood) "sources/demo" Samples.no_url_clip
  = (Ret None,
     [DescribeSources.API_error (JStr "a") (KeyError "original_url")]).
Proof.
  apply (proj2 (describe_item_without_original_url Samples.sample_loads
                  (Samples.on_disk Samples.always_mood) "sources/demo"
                  Samples.no_url_clip ltac:(vm_compute; reflexivity))
           "files/a.gif" (JStr "a") [[]] Samples.mood_text
           (JObj Samples.mood_dict)); vm_compute; reflexivity.
Defined.

(** ** describe_sources.py: a whole call of [process_source] *)

Section SourcesWholeRun.

Import DescribeSources.

Variable json_loads : string -> option json.
Variable worlds : nat -> world.
Variable as_completed : list item_ref -> list item_ref.
Variable source_dir : string.

Lemma sources_loop_app (name : string) (total : Z)
    (rs : list (nat * option (gmap string json)))
    (rest : list (nat * py (option (gmap string json)))) :
  completion_loop name total (((fun r => (r.1, Ret r.2)) <$> rs) ++ rest)
  = ((completion_loop name total ((fun r => (r.1, Ret r.2)) <$> rs)).1
     ++ (completion_loop name total rest).1,
     (completion_loop name total rest).2).
Proof.
  induction rs as [| [pos r] rs IH].
  - simpl. destruct (completion_loop name total rest). reflexivity.
  - cbn [fmap list_fmap app completion_loop fst snd].
    change (list_fmap _ _ ?f rs) with (f <$> rs). rewrite IH.
    destruct (completion_loop name total ((fun r => (r.1, Ret r.2)) <$> rs))
      as [steps e].
    cbn [fst snd]. rewrite app_assoc. reflexivity.
Qed.

Lemma sources_section_counts (name : string) (total : Z) (pos : nat)
    (r : option (gmap string json)) (s : run_state) :
  exists s2,
    run_steps (critical_section name total pos r) s = report name total s2 /\
    success s2 + failed s2 = success s + failed s + 1 /\
    stdout s2 = stdout s.
Proof.
  unfold critical_section, run_steps.
  destruct r as [record |]; [destruct (truthy (JObj record)) |];
    cbn [app fold_left]; eexists; (split; [reflexivity |]); simpl;
    split; (reflexivity || lia).
Qed.

Lemma sources_report_counts (name : string) (total : Z) (s : run_state) :
  success (report name total s) = success s /\
  failed (report name total s) = failed s.
Proof. unfold report. destruct (_ || _); split; reflexivity. Qed.

Lemma sources_loop_done (name : string) (total : Z)
    (rs : list (nat * option (gmap string json))) (s : run_state) :
  let s' := run_steps
              (completion_loop name total
                 ((fun r => (r.1, Ret r.2)) <$> rs)).1 s in
  success s' + failed s' = success s + failed s + Z.of_nat (length rs).
Proof.
  revert s. induction rs as [| [pos r] rs IH]; intros s; cbn zeta.
  - simpl. lia.
  - cbn [fmap list_fmap completion_loop fst snd].
    change (list_fmap _ _ ?f rs) with (f <$> rs).
    destruct (completion_loop name total _) as [steps e] eqn:Hloop.
    cbn [fst]. unfold run_steps. rewrite fold_left_app.
    fold (run_steps (critical_section name total pos r) s).
    destruct (sources_section_counts name total pos r s) as (s2 & -> & Hd & _).
    specialize (IH (report name total s2)). cbn zeta in IH.
    cbn [fst] in IH. unfold run_steps in IH.
    rewrite IH. destruct (sources_report_counts name total s2) as (-> & ->).
    cbn [length]. lia.
Qed.

Lemma sources_report_at_total (name : string) (total : Z) (s : run_state) :
  success s + failed s = total ->
  report name total s
  = print (Progress name (success s) (failed s) total total) s.
Proof.
  intros H. unfold report. rewrite H, Z.eqb_refl, orb_true_r. reflexivity.
Qed.

Lemma sources_all_returned
    (results : list (nat * py (option (gmap string json)))) :
  Forall (fun x => exists r, x.2 = Ret r) results ->
  exists rs, results = (fun r => (r.1, Ret r.2)) <$> rs.
Proof.
  induction 1 as [| [pos x] results [r Hr] _ [rs ->]].
  - exists []. reflexivity.
  - cbn in Hr. subst x. exists ((pos, r) :: rs). reflexivity.
Qed.

(** X23. Whenever [process_source] has opened the descriptions file, the
    success count it ends with, which is the count it returns, is the
    number of records the file gained since it was opened, also when an
    exception cuts the call short. *)
Theorem process_source_success_is_records_gained (m : manifest)
    (workers limit : Z) (force : bool) (descriptions : option (list line))
    (mode : output_mode) :
  let x := process_source json_loads worlds as_completed source_dir
             m workers limit force descriptions in
  opened_in x = Some mode ->
  exists f,
    descriptions_file x = Some f /\
    success (last x)
    = Z.of_nat (length f) - Z.of_nat (length (open_output mode descriptions)) /\
    forall n, returned x = Ret n -> n = success (last x).
Proof.
  intros x. subst x. unfold process_source.
  destruct (limited m limit force) as [| r0 lim]; [discriminate |].
  destruct (resume_filter _ force descriptions) as [[ids to_process] | e];
    [| discriminate].
  destruct to_process as [| r to_process]; [discriminate |].
  set (total := Z.of_nat (length (r :: to_process))).
  set (results := map _ _).
  set (s0 := {| flushed := _; buffer := []; success := 0; failed := 0;
                manifest_items := items m; stdout := _ |}).
  pose proof (sources_loop_states _ (source m) total results s0
                (sources_opened_settled _ (items m) [To_describe total workers]
                   ltac:(repeat constructor))) as [_ (Hb & Hs & _)].
  destruct (completion_loop (source m) total results) as [steps e].
  cbn [fst] in Hb, Hs. cbn beta iota. cbn [opened_in descriptions_file last returned].
  intros E. injection E as <-. eexists. split; [reflexivity |].
  cbn [flushed out_flush success]. rewrite Hb, app_nil_r. split; [exact Hs |].
  destruct e; [discriminate |]. intros n E. injection E as <-. reflexivity.
Qed.


Lemma sources_loop_flags (name : string) (total : Z)
    (results : list (nat * py (option (gmap string json)))) (s : run_state) :
  manifest_items (run_steps (completion_loop name total results).1 s)
  = foldl (fun its pos => alter (insert "described" (JBool true)) pos its)
          (manifest_items s) (described_positions results).
Proof.
  revert s. induction results as [| [pos [[record |] | e]] results IH];
    intros s; [reflexivity | | | reflexivity].
  - cbn [completion_loop described_positions].
    destruct (completion_loop name total results) as [steps e] eqn:Hloop.
    cbn [fst] in *. unfold run_steps in *. rewrite fold_left_app, IH.
    rewrite foldl_app. f_equal.
    unfold critical_section, report.
    destruct (truthy (JObj record)); cbn [app fold_left];
      destruct (_ || _); reflexivity.
  - cbn [completion_loop described_positions].
    destruct (completion_loop name total results) as [steps e] eqn:Hloop.
    cbn [fst] in *. unfold run_steps in *. rewrite fold_left_app, IH.
    f_equal. unfold critical_section, report. cbn [app fold_left].
    destruct (_ || _); reflexivity.
Qed.

Lemma lookup_flagged (its : list (gmap string json)) (ps : list nat) (p : nat) :
  foldl (fun its pos => alter (insert "described" (JBool true)) pos its) its ps
    !! p
  = if bool_decide (p ∈ ps)
    then insert "described" (JBool true) <$> its !! p
    else its !! p.
Proof.
  revert its. induction ps as [| q ps IH]; intros its; [reflexivity |].
  cbn [foldl]. rewrite IH.
  destruct (decide (p = q)) as [-> | Hne].
  - rewrite list_lookup_alter_eq.
    rewrite (bool_decide_eq_true_2 (q ∈ q :: ps)) by left.
    destruct (bool_decide (q ∈ ps)); [| reflexivity].
    destruct (its !! q); [| reflexivity].
    cbn. rewrite insert_insert_eq. reflexivity.
  - rewrite list_lookup_alter_ne by congruence.
    destruct (decide (p ∈ ps)) as [Hin | Hnin].
    + rewrite !bool_decide_eq_true_2; [reflexivity | right; exact Hin | exact Hin].
    + rewrite !bool_decide_eq_false_2; [reflexivity | | exact Hnin].
      intros Hin. apply elem_of_cons in Hin as [? | ?]; congruence.
Qed.

(** X25. The manifest [process_source] saves is the manifest it was given
    with ["described"] set to [True] on the items whose job returned a
    dict, and nothing else changed; these items are not selected again by
    a later call without [force]. *)
Theorem process_source_flags_described_items (m m' : manifest)
    (workers limit : Z) (force : bool) (descriptions : option (list line))
    (ids : gset key) (to_process : list item_ref) :
  resume_filter (limited m limit force) force descriptions
    = Ret (ids, to_process) ->
  saved (process_source json_loads worlds as_completed source_dir
           m workers limit force descriptions) = Some m' ->
  let flagged :=
    described_positions
      (sources_results json_loads worlds as_completed source_dir to_process) in
  source m' = source m /\
  length (items m') = length (items m) /\
  (forall p item, items m !! p = Some item ->
     items m' !! p
     = Some (if bool_decide (p ∈ flagged)
             then <["described" := JBool true]> item else item)) /\
  (forall i, i ∈ items_needing_description m' false -> i.1 ∉ flagged).
Proof.
  intros Hfilter Hsaved flagged.
  assert (Hitems : source m' = source m /\
            items m'
            = foldl (fun its pos => alter (insert "described" (JBool true)) pos its)
                    (items m) flagged).
  { revert Hsaved. unfold process_source.
    destruct (limited m limit force) as [| r0 lim]; [discriminate |].
    rewrite Hfilter. destruct to_process as [| r to_process]; [discriminate |].
    fold (sources_results json_loads worlds as_completed source_dir
            (r :: to_process)) in *.
    pose proof (sources_loop_flags (source m)
                  (Z.of_nat (length (r :: to_process)))
                  (sources_results json_loads worlds as_completed source_dir
                     (r :: to_process))
                  {| flushed := open_output (choose_mode ids force) descriptions;
                     buffer := []; success := 0; failed := 0;
                     manifest_items := items m;
                     stdout := [To_describe
                                  (Z.of_nat (length (r :: to_process))) workers] |})
      as Hflags.
    destruct (completion_loop _ _ _) as [steps [e |]]; [discriminate |].
    cbn [saved fst] in *. intros E. injection E as <-.
    cbn [source items manifest_items out_flush] in *. split; [reflexivity |].
    exact Hflags. }
  destruct Hitems as [Hsrc Hits]. split; [exact Hsrc |].
  assert (Hlookup : forall p, items m' !! p
            = if bool_decide (p ∈ flagged)
              then insert "described" (JBool true) <$> items m !! p
              else items m !! p)
    by (intros p; rewrite Hits; apply lookup_flagged).
  split; [| split].
  - rewrite Hits. clear. generalize (items m).
    induction flagged as [| q ps IH]; intros its; [reflexivity |].
    cbn [foldl]. rewrite IH. apply length_alter.
  - intros p item Hp. rewrite Hlookup, Hp.
    destruct (bool_decide _); reflexivity.
  - intros [p item'] Hin Hflag. cbn [fst] in Hflag.
    unfold items_needing_description in Hin.
    apply list_elem_of_filter in Hin as [Hsel Hin].
    apply elem_of_lookup_imap in Hin as (p' & it & E & Hp).
    injection E as <- <-. rewrite Hlookup in Hp.
    rewrite (bool_decide_eq_true_2 _ Hflag) in Hp.
    destruct (items m !! p) as [it0 |]; [| discriminate].
    cbn in Hp. injection Hp as <-.
    cbn [snd] in Hsel. unfold dict_get in Hsel.
    rewrite (lookup_insert_eq it0 "described") in Hsel.
    cbn in Hsel. rewrite andb_false_r in Hsel. discriminate.
Qed.

End SourcesWholeRun.

Lemma process_source_success_is_records_gained_witness :
  let x := DescribeSources.process_source Samples.sample_loads
             (fun _ => Samples.on_disk Samples.always_mood) (fun jobs => jobs)
             "sources/demo"
             {| DescribeSources.source := "demo";
                DescribeSources.items := [Samples.clip "a"] |}
             10 0 false None in
  exists f,
    DescribeSources.descriptions_file x = Some f /\
    DescribeSources.success (DescribeSources.last x)
    = Z.of_nat (length f)
      - Z.of_nat (length (DescribeSources.open_output
                            DescribeSources.Truncate None)) /\
    forall n, DescribeSources.returned x = Ret n ->
              n = DescribeSources.success (DescribeSources.last x).
Proof.
  apply (process_source_success_is_records_gained Samples.sample_loads
           (fun _ => Samples.on_disk Samples.always_mood) (fun jobs => jobs)
           "sources/demo"
           {| DescribeSources.source := "demo";
              DescribeSources.items := [Samples.clip "a"] |}
           10 0 false None DescribeSources.Truncate).
  reflexivity.
Defined.


Lemma process_source_flags_described_items_witness :
  let m' := {| DescribeSources.source := "demo";
               DescribeSources.items :=
                 [<["described" := JBool true]> (Samples.clip "a")] |} in
  DescribeSources.source m' = "demo" /\
  length (DescribeSources.items m') = 1%nat /\
  DescribeSources.items_needing_description m' false = [].
Proof.
  intros m'.
  destruct (process_source_flags_described_items Samples.sample_loads
              (fun _ => Samples.on_disk Samples.always_mood) (fun jobs => jobs)
              "sources/demo" Samples.solo_manifest m' 10 0 false None ∅
              [(0%nat, Samples.clip "a")]
              ltac:(reflexivity) ltac:(reflexivity))
    as (Hsrc & Hlen & _ & _).
  split; [exact Hsrc | split; [exact Hlen | vm_compute; reflexivity]].
Defined.

Section SourcesAbort.

Import DescribeSources.

Variable json_loads : string -> option json.
Variable worlds : nat -> world.
Variable as_completed : list item_ref -> list item_ref.
Variable source_dir : string.

Lemma sources_loop_raised (name : string) (total : Z)
    (results : list (nat * py (option (gmap string json)))) :
  (exists pos e, (pos, Raise e) ∈ results) ->
  exists e, (completion_loop name total results).2 = Some e.
Proof.
  intros (pos & e & He). induction results as [| [p [r | e']] results IH].
  - inversion He.
  - cbn [completion_loop].
    destruct (completion_loop name total results) as [steps e0]. cbn [snd] in *.
    apply IH. apply elem_of_cons in He as [He | He]; [discriminate | exact He].
  - exists e'. reflexivity.
Qed.

(** X26. A single job that raises, which a malformed item makes it do,
    ends the whole call: [process_source] raises, and the manifest is not
    saved, so that the flags of the items described before are lost, while
    their records stay in the descriptions file. *)
Theorem process_source_aborted_by_one_job (m : manifest) (workers limit : Z)
    (force : bool) (descriptions : option (list line)) (ids : gset key)
    (to_process : list item_ref) (job : item_ref) (e : exn) :
  fair as_completed ->
  resume_filter (limited m limit force) force descriptions
    = Ret (ids, to_process) ->
  job ∈ to_process ->
  (describe_item json_loads (worlds job.1) source_dir job.2).1 = Raise e ->
  let x := process_source json_loads worlds as_completed source_dir
             m workers limit force descriptions in
  (exists e', returned x = Raise e') /\
  saved x = None /\
  descriptions_file x
  = Some (open_output (choose_mode ids force) descriptions ++
          sources_written (sources_results json_loads worlds as_completed
                             source_dir to_process)).
Proof.
  intros Hfair Hfilter Hjob Hraise x.
  assert (Hfile := process_source_file json_loads worlds as_completed source_dir
                     m workers limit force descriptions ids to_process Hfilter).
  fold x in Hfile. subst x. revert Hfile. unfold process_source.
  destruct (limited m limit force) as [| r0 lim] eqn:Hlim.
  { destruct (resume_filter_unknown _ _ _ _ _ Hfilter job Hjob) as [Hr _].
    inversion Hr. }
  rewrite Hfilter. destruct to_process as [| r to_process]; [inversion Hjob |].
  set (results := map _ _).
  destruct (sources_loop_raised (source m)
              (Z.of_nat (length (r :: to_process))) results) as [e' He'].
  { exists job.1, e. subst results. apply list_elem_of_fmap.
    exists job. split; [rewrite Hraise; reflexivity |].
    rewrite (Hfair _). exact Hjob. }
  destruct (completion_loop (source m) _ results) as [steps e0].
  cbn [snd] in He'. subst e0. cbn [returned saved descriptions_file].
  intros Hfile. split; [eexists; reflexivity |]. split; [reflexivity |].
  exact Hfile.
Qed.

End SourcesAbort.

Lemma process_source_aborted_by_one_job_witness :
  let x := DescribeSources.process_source Samples.sample_loads
             (fun _ => Samples.on_disk Samples.always_mood) (fun jobs => jobs)
             "sources/demo" Samples.broken_manifest 10 0 false None in
  (exists e', DescribeSources.returned x = Raise e') /\
  DescribeSources.saved x = None /\
  DescribeSources.descriptions_file x
  = Some (DescribeSources.open_output
            (DescribeSources.choose_mode ∅ false) None ++
          sources_written
            (sources_results Samples.sample_loads
               (fun _ => Samples.on_disk Samples.always_mood) (fun jobs => jobs)
               "sources/demo"
               [(0%nat, Samples.clip "a"); (1%nat, Samples.no_file_clip)])).
Proof.
  apply (process_source_aborted_by_one_job Samples.sample_loads
           (fun _ => Samples.on_disk Samples.always_mood) (fun jobs => jobs)
           "sources/demo" Samples.broken_manifest 10 0 false None ∅
           [(0%nat, Samples.clip "a"); (1%nat, Samples.no_file_clip)]
           (1%nat, Samples.no_file_clip) (KeyError "local_file")).
  - intros jobs. reflexivity.
  - reflexivity.
  - right. left.
  - reflexivity.
Defined.

(** ** describe_sources.py: finding the sources and [main] *)

Section SourcesMain.

Import DescribeSourcesMain.

Lemma find_sources_spec (entries : list dir_entry)
    (source_filter : option string) (d : dir_entry) :
  d ∈ find_sources (Some entries) source_filter <->
  d ∈ entries /\ is_dir d = true /\ String.prefix "_" (name d) = false /\
  has_manifest d = true /\
  (forall f, source_filter = Some f -> f <> "" -> name d = f).
Proof.
  unfold find_sources. rewrite list_elem_of_filter, merge_sort_Permutation.
  rewrite !andb_true_iff, !negb_true_iff, orb_false_iff, negb_false_iff.
  split.
  - intros [[[[Hdir Hpre] Hf] Hman] Hin]. repeat split; try assumption.
    intros f -> Hne. apply andb_false_iff in Hf as [Hf | Hf].
    + apply negb_false_iff, String.eqb_eq in Hf. contradiction.
    + apply negb_false_iff, String.eqb_eq in Hf. exact Hf.
  - intros (Hin & Hdir & Hpre & Hman & Hf). repeat split; try assumption.
    destruct source_filter as [f |]; [| reflexivity].
    destruct (String.eqb f "") eqn:E; [reflexivity |].
    apply String.eqb_neq in E. rewrite (Hf f eq_refl E), String.eqb_refl.
    reflexivity.
Qed.

Lemma NoDup_constant {A} (l : list A) (a : A) :
  NoDup l -> Forall (fun x => x = a) l -> (length l <= 1)%nat.
Proof.
  intros Hnd Hall. destruct l as [| x [| y l]]; cbn; try lia.
  apply Forall_cons in Hall as [-> Hall]. apply Forall_cons in Hall as [-> _].
  apply NoDup_cons in Hnd as [Hnd _]. exfalso. apply Hnd. left.
Qed.

(** X27. [find_sources] returns the directories that hold a manifest and
    whose name does not begin with an underscore. A directory whose name
    begins with an underscore is left out even when [--source] names it,
    an empty [--source] selects every source, and any other selects at most
    one. *)
Theorem find_sources_filter (entries : list dir_entry) :
  (forall d, d ∈ find_sources (Some entries) None <->
     d ∈ entries /\ is_dir d = true /\ String.prefix "_" (name d) = false /\
     has_manifest d = true) /\
  (forall f, String.prefix "_" f = true ->
     find_sources (Some entries) (Some f) = []) /\
  find_sources (Some entries) (Some "") = find_sources (Some entries) None /\
  (forall f, f <> "" -> NoDup (name <$> entries) ->
     (length (find_sources (Some entries) (Some f)) <= 1)%nat).
Proof.
  split; [| split; [| split]].
  - intros d. rewrite find_sources_spec. split.
    + intros (? & ? & ? & ? & _). auto.
    + intros (? & ? & ? & ?). repeat split; try assumption. discriminate.
  - intros f Hf.
    destruct (find_sources (Some entries) (Some f)) as [| d l] eqn:E;
      [reflexivity |].
    assert (Hd : d ∈ find_sources (Some entries) (Some f))
      by (rewrite E; left).
    apply find_sources_spec in Hd as (_ & _ & Hpre & _ & Hname).
    rewrite (Hname f eq_refl) in Hpre by (intros ->; discriminate Hf).
    congruence.
  - reflexivity.
  - intros f Hne Hnd.
    rewrite <- (length_fmap name). apply (NoDup_constant _ f).
    + unfold find_sources.
      apply (sublist_NoDup _ (name <$> merge_sort path_le entries)).
      * rewrite (merge_sort_Permutation path_le entries). exact Hnd.
      * apply fmap_sublist, sublist_filter.
    + apply Forall_fmap, Forall_forall. intros d Hd.
      apply find_sources_spec in Hd as (_ & _ & _ & _ & Hname).
      exact (Hname f eq_refl Hne).
Qed.

Lemma find_sources_filter_witness :
  length (find_sources (Some Samples.sources_listing) (Some "kidmograph")) = 1%nat /\
  find_sources (Some Samples.sources_listing) (Some "_drafts") = [].
Proof.
  destruct (find_sources_filter Samples.sources_listing)
    as (_ & Hunder & _ & _).
  split; [vm_compute; reflexivity |].
  apply Hunder. reflexivity.
Defined.

Variable json_loads : string -> option json.
Variable worlds : string -> nat -> DescribeSources.world.
Variable as_completed :
  string -> list DescribeSources.item_ref -> list DescribeSources.item_ref.
Variable load_manifest : string -> py DescribeSources.manifest.
Variable descriptions : string -> option (list line).

Lemma process_source_returned_gain (source_dir : string)
    (m : DescribeSources.manifest) (workers limit : Z) (force : bool)
    (before : option (list line)) (count : Z) :
  let x := DescribeSources.process_source json_loads (worlds source_dir)
             (as_completed source_dir) source_dir m workers limit force before in
  DescribeSources.returned x = Ret count -> count = records_gained before x.
Proof.
  intros x Hret. unfold records_gained.
  destruct (DescribeSources.opened_in x) as [mode |] eqn:Hopen.
  - destruct (process_source_success_is_records_gained json_loads
                (worlds source_dir) (as_completed source_dir) source_dir
                m workers limit force before mode Hopen)
      as (f & Hf & Hs & Hn).
    fold x in Hf, Hs, Hn. rewrite Hf, <- Hs. exact (Hn count Hret).
  - subst x. revert Hopen Hret. unfold DescribeSources.process_source.
    destruct (DescribeSources.limited m limit force) as [| r0 lim];
      [intros _ [= <-]; reflexivity |].
    destruct (DescribeSources.resume_filter _ force before)
      as [[ids [| r to_process]] | e];
      [intros _ [= <-]; reflexivity | | discriminate].
    destruct (DescribeSources.completion_loop _ _ _). discriminate.
Qed.

(** X28. When [main] ends normally, the total it prints is the number of
    records the descriptions files of the sources gained in the run, all
    sources found were processed, each once and in the order found, and
    the summary is the last line printed. *)
Theorem sources_main_total (listing : option (list dir_entry))
    (source_filter : option string) (workers limit : Z) (force : bool)
    (printed : list out_line) (exits : list (string * DescribeSources.exit))
    (total : Z) :
  main json_loads worlds as_completed load_manifest descriptions
       listing source_filter workers limit force
    = (printed, exits, Ret total) ->
  total = foldr (fun e acc => records_gained (descriptions e.1) e.2 + acc)
                0 exits /\
  exits.*1 = name <$> find_sources listing source_filter /\
  (find_sources listing source_filter <> [] ->
   last printed
   = Some (Done total (Z.of_nat (length (find_sources listing source_filter))))).
Proof.
  assert (Hloop : forall sources t0 pr ex t,
            main_loop json_loads worlds as_completed load_manifest descriptions
              sources workers limit force t0 = (pr, ex, Ret t) ->
            t = t0 + foldr (fun e acc =>
                              records_gained (descriptions e.1) e.2 + acc) 0 ex
            /\ ex.*1 = name <$> sources).
  { induction sources as [| d sources IH]; intros t0 pr ex t.
    - cbn. intros [= <- <- <-]. cbn. split; [lia | reflexivity].
    - cbn [main_loop]. destruct (load_manifest (name d)) as [m | e];
        [| discriminate].
      destruct (DescribeSources.returned _) as [count | e] eqn:Hret;
        [| discriminate].
      destruct (main_loop _ _ _ _ _ sources workers limit force (t0 + count))
        as [[pr' ex'] r'] eqn:Hrest.
      intros [= <- <- ->].
      destruct (IH _ _ _ _ Hrest) as [Ht Hex].
      apply process_source_returned_gain in Hret.
      cbn [foldr fmap list_fmap fst snd]. split; [lia |].
      f_equal. exact Hex. }
  unfold main.
  destruct (find_sources listing source_filter) as [| d sources] eqn:Hfound.
  - intros [= <- <- <-]. cbn.
    split; [reflexivity | split; [reflexivity |]].
    intros H. exfalso. apply H. reflexivity.
  - destruct (main_loop _ _ _ _ _ (d :: sources) workers limit force 0)
      as [[pr ex] r] eqn:Hrun.
    intros [= <- <- ->]. destruct (Hloop _ _ _ _ _ Hrun) as [Ht Hex].
    split; [lia |]. split; [exact Hex |]. intros _.
    rewrite app_comm_cons, last_snoc. reflexivity.
Qed.

End SourcesMain.

Lemma sources_main_total_witness :
  let '(printed, exits, r) :=
    DescribeSourcesMain.main Samples.sample_loads
      (fun _ _ => Samples.on_disk Samples.always_mood) (fun _ jobs => jobs)
      (fun _ => Ret Samples.solo_manifest) (fun _ => None)
      (Some Samples.sources_listing) None 10 0 false in
  r = Ret 1 /\
  1 = foldr (fun e acc => records_gained None e.2 + acc) 0 exits.
Proof.
  destruct (DescribeSourcesMain.main Samples.sample_loads
              (fun _ _ => Samples.on_disk Samples.always_mood)
              (fun _ jobs => jobs)
              (fun _ => Ret Samples.solo_manifest) (fun _ => None)
              (Some Samples.sources_listing) None 10 0 false)
    as [[printed exits] r] eqn:H.
  assert (Hr : r = Ret 1) by (apply (f_equal snd) in H; symmetry; exact H).
  subst r. split; [reflexivity |].
  exact (proj1 (sources_main_total Samples.sample_loads
                  (fun _ _ => Samples.on_disk Samples.always_mood)
                  (fun _ jobs => jobs)
                  (fun _ => Ret Samples.solo_manifest) (fun _ => None)
                  (Some Samples.sources_listing) None 10 0 false
                  printed exits 1 H)).
Defined.
